(** * DOMTextScanner: a shallow embedding of ext/js/dom/dom-text-scanner.js

    The scanner walks a document tree forward or backward from a
    (node, offset) position and accumulates the visible text, collapsing
    whitespace and synthesising newlines from the CSS layout of the
    elements it crosses.

    Conventions of the embedding:
    - a JavaScript string that holds document text is a list of UTF-16 code
      units ([jsstring]); its [length] is the JavaScript [.length];
    - tag names and CSS keywords are [String.string] (they are ASCII);
    - numbers that the code compares with 0 or subtracts ([_remainder],
      [_newlines], the seek length) are [Z]: they stand for the doubles of
      the code on the safe integers, where its arithmetic is exact (see
      [maxSafeInteger]); text offsets are [nat];
    - the host document is an immutable finite tree ([Node]); a DOM node
      reference is the path from the node up to the root ([NodeRef]), so that
      [parentNode], [nextSibling], ... are the pointer reads of the DOM API;
    - the scanner object is the record [DOMTextScanner]; a method that
      mutates [this] takes the record and returns the updated one. *)

From Stdlib Require Import List ZArith String Ascii Bool Lia QArith.
Import ListNotations.

Local Open Scope string_scope.
Local Open Scope list_scope.
Local Open Scope Z_scope.

(* ------------------------------------------------------------------ *)
(** ** Strings *)

(** Document text: UTF-16 code units. *)
Definition jsstring := list Z.

(** [String.prototype.charCodeAt(0)]; [None] stands for [NaN]. *)
Definition charCodeAt0 (s : jsstring) : option Z := hd_error s.

Definition isHighSurrogate (c : Z) : bool := (0xd800 <=? c) && (c <? 0xdc00).
Definition isLowSurrogate (c : Z) : bool := (0xdc00 <=? c) && (c <? 0xe000).

Module StringUtil.

(** Modelled from the spec: [StringUtil.readCodePointsForward] of
    string-util.js (the module the scanner imports), which is not among the
    sources.
    The spec asks for a primitive that reads N Unicode code points forward
    from a string index and returns the substring, never splitting a
    surrogate pair.  An index past the end yields the empty string. *)
Fixpoint readCodePointsForward (text : jsstring) (position : nat) (count : nat)
    {struct count} : jsstring :=
  match count with
  | O => []
  | S count' =>
    match nth_error text position with
    | None => []
    | Some char =>
      match nth_error text (S position) with
      | Some char2 =>
        if isHighSurrogate char && isLowSurrogate char2
        then char :: char2 :: readCodePointsForward text (S (S position)) count'
        else char :: readCodePointsForward text (S position) count'
      | None => [char]
      end
    end
  end.

(** Modelled from the spec: [StringUtil.readCodePointsBackward], the mirror
    image of [readCodePointsForward]: [position] is the index of the last
    code unit to read, and the result keeps the order of the text. *)
Fixpoint readCodePointsBackward (text : jsstring) (position : nat) (count : nat)
    {struct count} : jsstring :=
  match count with
  | O => []
  | S count' =>
    match nth_error text position with
    | None => []
    | Some char =>
      match position with
      | O => [char]
      | S position' =>
        match nth_error text position' with
        | Some char2 =>
          if isLowSurrogate char && isHighSurrogate char2
          then match position' with
               | O => [char2; char]
               | S position'' =>
                 (readCodePointsBackward text position'' count' ++ [char2; char])%list
               end
          else (readCodePointsBackward text position' count' ++ [char])%list
        | None => [char]
        end
      end
    end
  end.

End StringUtil.

(** ASCII helpers for tag names and CSS keywords. *)
Definition asciiToUpper (c : ascii) : ascii :=
  let n := nat_of_ascii c in
  if (Nat.leb 97 n && Nat.leb n 122)%bool then ascii_of_nat (n - 32) else c.

Fixpoint toUpperCase (s : string) : string :=
  match s with
  | EmptyString => EmptyString
  | String c rest => String (asciiToUpper c) (toUpperCase rest)
  end.

(** [String.prototype.indexOf(ch)]: the first index of [ch], or [-1]. *)
Fixpoint indexOf (s : string) (ch : ascii) : Z :=
  match s with
  | EmptyString => -1
  | String c rest =>
    if Ascii.eqb c ch then 0
    else let r := indexOf rest ch in if r <? 0 then -1 else r + 1
  end.

(** [s.substring(0, pos)] for [pos >= 0]. *)
Definition substring0 (s : string) (pos : Z) : string :=
  String.substring 0 (Z.to_nat pos) s.

Definition startsWith (s prefix : string) : bool := String.prefix prefix s.

(* ------------------------------------------------------------------ *)
(** ** Computed style *)

(** The snapshot [window.getComputedStyle(element)] returns.  [opacity] and
    [fontSize] hold what [parseFloat] makes of the style strings ([None] is
    [NaN]); [color] and [webkitTextFillColor] are [None] when the property is
    not a string. *)
Record CSSStyleDeclaration : Type := {
  display : string;
  position : string;
  visibility : string;
  whiteSpace : string;
  opacity : option Q;
  fontSize : option Q;
  userSelect : string;
  webkitUserSelect : string;
  MozUserSelect : string;
  msUserSelect : string;
  color : option string;
  webkitTextFillColor : option string
}.

(** [x <= 0] on a [parseFloat] result; a comparison with [NaN] is false. *)
Definition parsedLe0 (x : option Q) : bool :=
  match x with
  | Some q => Qle_bool q 0
  | None => false
  end.

Definition isRegexSpace (c : ascii) : bool :=
  let n := nat_of_ascii c in
  (Nat.leb 9 n && Nat.leb n 13 || Nat.eqb n 32 || Nat.eqb n 160)%bool.

Definition isLineTerminator (c : ascii) : bool :=
  let n := nat_of_ascii c in (Nat.eqb n 10 || Nat.eqb n 13)%bool.

Fixpoint skipRegexSpaces (l : list ascii) : list ascii :=
  match l with
  | c :: rest => if isRegexSpace c then skipRegexSpaces rest else l
  | [] => []
  end.

(** The regular expression [/,\s*0.?0*\)$/], matched right to left on the
    reversed string: [commaSpacesZero] is [,\s*0], [optionalAny] adds [.?]
    and [zerosThen] adds [0*]. *)
Definition commaSpacesZero (l : list ascii) : bool :=
  match l with
  | c :: rest =>
    (Ascii.eqb c "0"%char &&
     match skipRegexSpaces rest with
     | c2 :: _ => Ascii.eqb c2 ","%char
     | [] => false
     end)%bool
  | [] => false
  end.

Definition optionalAny (l : list ascii) : bool :=
  (commaSpacesZero l ||
   match l with
   | c :: rest => negb (isLineTerminator c) && commaSpacesZero rest
   | [] => false
   end)%bool.

Fixpoint zerosThen (l : list ascii) : bool :=
  (optionalAny l ||
   match l with
   | c :: rest => Ascii.eqb c "0"%char && zerosThen rest
   | [] => false
   end)%bool.

Definition endsWithZeroAlpha (s : string) : bool :=
  match rev (list_ascii_of_string s) with
  | c :: rest => (Ascii.eqb c ")"%char && zerosThen rest)%bool
  | [] => false
  end.

(* ------------------------------------------------------------------ *)
(** ** The document *)

#[warnings="-register-all"]
Inductive Node : Type :=
| Text (nodeValue : jsstring)
| Element (nodeName : string) (computedStyle : CSSStyleDeclaration)
          (childNodes : list Node)
| Other (childNodes : list Node).

(** [Other] stands for every node that is neither a text node nor an
    element: the document, a document fragment, a comment. *)
Inductive NodeType : Type := TEXT_NODE | ELEMENT_NODE | OTHER_NODE.

(** A node reference: the child indices from the node up to the root. *)
Definition NodeRef := list nat.

Definition children (n : Node) : list Node :=
  match n with
  | Text _ => []
  | Element _ _ cs => cs
  | Other cs => cs
  end.

Fixpoint getNode (doc : Node) (ref : NodeRef) : option Node :=
  match ref with
  | [] => Some doc
  | i :: parent =>
    match getNode doc parent with
    | Some n => nth_error (children n) i
    | None => None
    end
  end.

Definition isNode (doc : Node) (ref : NodeRef) : bool :=
  match getNode doc ref with Some _ => true | None => false end.

Definition nodeTypeOf (n : Node) : NodeType :=
  match n with
  | Text _ => TEXT_NODE
  | Element _ _ _ => ELEMENT_NODE
  | Other _ => OTHER_NODE
  end.

Definition nodeType (doc : Node) (ref : NodeRef) : NodeType :=
  match getNode doc ref with
  | Some n => nodeTypeOf n
  | None => OTHER_NODE
  end.

Definition nodeNameOf (doc : Node) (ref : NodeRef) : string :=
  match getNode doc ref with
  | Some (Element name _ _) => name
  | Some (Text _) => "#text"
  | _ => "#document"
  end.

Definition nodeValueOf (doc : Node) (ref : NodeRef) : jsstring :=
  match getNode doc ref with
  | Some (Text v) => v
  | _ => []
  end.

Definition parentNode (node : NodeRef) : option NodeRef :=
  match node with
  | [] => None
  | _ :: parent => Some parent
  end.

Definition firstChild (doc : Node) (node : NodeRef) : option NodeRef :=
  if isNode doc (O :: node) then Some (O :: node) else None.

Definition lastChild (doc : Node) (node : NodeRef) : option NodeRef :=
  match getNode doc node with
  | Some n =>
    match List.length (children n) with
    | O => None
    | S k => Some (k :: node)
    end
  | None => None
  end.

Definition nextSibling (doc : Node) (node : NodeRef) : option NodeRef :=
  match node with
  | [] => None
  | i :: parent =>
    if isNode doc (S i :: parent) then Some (S i :: parent) else None
  end.

Definition previousSibling (node : NodeRef) : option NodeRef :=
  match node with
  | S i :: parent => Some (i :: parent)
  | _ => None
  end.

(** Styles for building documents. *)
Definition defaultStyle : CSSStyleDeclaration := {|
  display := "inline";
  position := "static";
  visibility := "visible";
  whiteSpace := "normal";
  opacity := Some 1%Q;
  fontSize := Some 16%Q;
  userSelect := "auto";
  webkitUserSelect := "auto";
  MozUserSelect := "auto";
  msUserSelect := "auto";
  color := Some "rgb(0, 0, 0)";
  webkitTextFillColor := Some "rgb(0, 0, 0)"
|}.

Definition withDisplay (s : CSSStyleDeclaration) (d : string) := {|
  display := d;
  position := position s;
  visibility := visibility s;
  whiteSpace := whiteSpace s;
  opacity := opacity s;
  fontSize := fontSize s;
  userSelect := userSelect s;
  webkitUserSelect := webkitUserSelect s;
  MozUserSelect := MozUserSelect s;
  msUserSelect := msUserSelect s;
  color := color s;
  webkitTextFillColor := webkitTextFillColor s
|}.

Definition withPosition (s : CSSStyleDeclaration) (p : string) := {|
  display := display s;
  position := p;
  visibility := visibility s;
  whiteSpace := whiteSpace s;
  opacity := opacity s;
  fontSize := fontSize s;
  userSelect := userSelect s;
  webkitUserSelect := webkitUserSelect s;
  MozUserSelect := MozUserSelect s;
  msUserSelect := msUserSelect s;
  color := color s;
  webkitTextFillColor := webkitTextFillColor s
|}.

(** The code units of an ASCII literal. *)
Definition js (s : string) : jsstring :=
  map (fun c => Z.of_nat (nat_of_ascii c)) (list_ascii_of_string s).

(* ------------------------------------------------------------------ *)
(** ** The scanner *)

Record DOMTextScanner : Type := {
  _node : NodeRef;
  _offset : nat;
  _content : jsstring;
  _remainder : Z;
  _resetOffset : bool;
  _newlines : Z;
  _lineHasWhitespace : bool;
  _lineHasContent : bool;
  _forcePreserveWhitespace : bool;
  _generateLayoutContent : bool
}.

(** Field assignments [this._x = v]. *)
Definition set_node (v : NodeRef) (c : DOMTextScanner) := {|
  _node := v; _offset := _offset c; _content := _content c;
  _remainder := _remainder c; _resetOffset := _resetOffset c;
  _newlines := _newlines c; _lineHasWhitespace := _lineHasWhitespace c;
  _lineHasContent := _lineHasContent c;
  _forcePreserveWhitespace := _forcePreserveWhitespace c;
  _generateLayoutContent := _generateLayoutContent c |}.

Definition set_offset (v : nat) (c : DOMTextScanner) := {|
  _node := _node c; _offset := v; _content := _content c;
  _remainder := _remainder c; _resetOffset := _resetOffset c;
  _newlines := _newlines c; _lineHasWhitespace := _lineHasWhitespace c;
  _lineHasContent := _lineHasContent c;
  _forcePreserveWhitespace := _forcePreserveWhitespace c;
  _generateLayoutContent := _generateLayoutContent c |}.

Definition set_content (v : jsstring) (c : DOMTextScanner) := {|
  _node := _node c; _offset := _offset c; _content := v;
  _remainder := _remainder c; _resetOffset := _resetOffset c;
  _newlines := _newlines c; _lineHasWhitespace := _lineHasWhitespace c;
  _lineHasContent := _lineHasContent c;
  _forcePreserveWhitespace := _forcePreserveWhitespace c;
  _generateLayoutContent := _generateLayoutContent c |}.

Definition set_remainder (v : Z) (c : DOMTextScanner) := {|
  _node := _node c; _offset := _offset c; _content := _content c;
  _remainder := v; _resetOffset := _resetOffset c;
  _newlines := _newlines c; _lineHasWhitespace := _lineHasWhitespace c;
  _lineHasContent := _lineHasContent c;
  _forcePreserveWhitespace := _forcePreserveWhitespace c;
  _generateLayoutContent := _generateLayoutContent c |}.

Definition set_resetOffset (v : bool) (c : DOMTextScanner) := {|
  _node := _node c; _offset := _offset c; _content := _content c;
  _remainder := _remainder c; _resetOffset := v;
  _newlines := _newlines c; _lineHasWhitespace := _lineHasWhitespace c;
  _lineHasContent := _lineHasContent c;
  _forcePreserveWhitespace := _forcePreserveWhitespace c;
  _generateLayoutContent := _generateLayoutContent c |}.

Definition set_newlines (v : Z) (c : DOMTextScanner) := {|
  _node := _node c; _offset := _offset c; _content := _content c;
  _remainder := _remainder c; _resetOffset := _resetOffset c;
  _newlines := v; _lineHasWhitespace := _lineHasWhitespace c;
  _lineHasContent := _lineHasContent c;
  _forcePreserveWhitespace := _forcePreserveWhitespace c;
  _generateLayoutContent := _generateLayoutContent c |}.

Definition set_lineHasWhitespace (v : bool) (c : DOMTextScanner) := {|
  _node := _node c; _offset := _offset c; _content := _content c;
  _remainder := _remainder c; _resetOffset := _resetOffset c;
  _newlines := _newlines c; _lineHasWhitespace := v;
  _lineHasContent := _lineHasContent c;
  _forcePreserveWhitespace := _forcePreserveWhitespace c;
  _generateLayoutContent := _generateLayoutContent c |}.

Definition set_lineHasContent (v : bool) (c : DOMTextScanner) := {|
  _node := _node c; _offset := _offset c; _content := _content c;
  _remainder := _remainder c; _resetOffset := _resetOffset c;
  _newlines := _newlines c; _lineHasWhitespace := _lineHasWhitespace c;
  _lineHasContent := v;
  _forcePreserveWhitespace := _forcePreserveWhitespace c;
  _generateLayoutContent := _generateLayoutContent c |}.

Module Scanner.

(** *** Static helpers *)

(** [getCharacterAttributes]: 0 ignorable, 1 collapsible whitespace,
    2 significant, 3 significant preserved newline. *)
Definition getCharacterAttributes (character : jsstring)
    (preserveNewlines preserveWhitespace : bool) : Z :=
  match charCodeAt0 character with
  | Some code =>
    if (code =? 0x09) || (code =? 0x0c) || (code =? 0x0d) || (code =? 0x20)
    then (if preserveWhitespace then 2 else 1)
    else if code =? 0x0a
    then (if preserveNewlines then 3 else 1)
    else if (code =? 0x200b) || (code =? 0x200c)
    then 0
    else 2
  | None => 2
  end.

Definition isStyleSelectable (style : CSSStyleDeclaration) : bool :=
  negb (String.eqb (userSelect style) "none" ||
        String.eqb (webkitUserSelect style) "none" ||
        String.eqb (MozUserSelect style) "none" ||
        String.eqb (msUserSelect style) "none").

Definition isCSSColorTransparent (cssColor : option string) : bool :=
  match cssColor with
  | Some s => startsWith s "rgba(" && endsWithZeroAlpha s
  | None => false
  end.

Definition isStyleVisible (style : CSSStyleDeclaration) : bool :=
  negb (String.eqb (visibility style) "hidden" ||
        parsedLe0 (opacity style) ||
        parsedLe0 (fontSize style) ||
        (negb (isStyleSelectable style) &&
         (isCSSColorTransparent (color style) ||
          isCSSColorTransparent (webkitTextFillColor style)))).

Definition doesCSSDisplayChangeLayout (cssDisplay : string) : bool :=
  let pos := indexOf cssDisplay " "%char in
  let cssDisplay := if pos >=? 0 then substring0 cssDisplay pos else cssDisplay in
  let pos := indexOf cssDisplay "-"%char in
  let cssDisplay := if pos >=? 0 then substring0 cssDisplay pos else cssDisplay in
  if String.eqb cssDisplay "block" || String.eqb cssDisplay "flex" ||
     String.eqb cssDisplay "grid" || String.eqb cssDisplay "list" ||
     String.eqb cssDisplay "table"
  then true
  else if String.eqb cssDisplay "ruby"
  then pos >=? 0
  else false.

(** [getElementSeekInfo] on the element's tag name and computed style; the
    result is the pair [(enterable, newlines)]. *)
Definition getElementSeekInfo (nodeName : string) (style : CSSStyleDeclaration)
  : bool * Z :=
  let name := toUpperCase nodeName in
  if String.eqb name "HEAD" || String.eqb name "RT" ||
     String.eqb name "SCRIPT" || String.eqb name "STYLE"
  then (false, 0)
  else if String.eqb name "BR"
  then (false, 1)
  else
    let enterable :=
      negb (String.eqb name "TEXTAREA" || String.eqb name "INPUT" ||
            String.eqb name "BUTTON") in
    let display := display style in
    let visible := negb (String.eqb display "none") && isStyleVisible style in
    if negb visible
    then (false, 0)
    else
      let newlines :=
        if String.eqb (position style) "absolute" ||
           String.eqb (position style) "fixed" ||
           String.eqb (position style) "sticky"
        then 2 else 0 in
      let newlines :=
        if (newlines =? 0) && doesCSSDisplayChangeLayout display
        then 1 else newlines in
      (enterable, newlines).

(** [getElementSeekInfo(element)] for a node of the document.  The code only
    calls it on element nodes. *)
Definition elementSeekInfo (doc : Node) (element : NodeRef) : bool * Z :=
  match getNode doc element with
  | Some (Element name style _) => getElementSeekInfo name style
  | _ => (false, 0)
  end.

(** The upward loop of [getNextNode]: [node] is pushed on [exitedNodes], then
    its sibling is tried, then its parent takes its place. *)
Fixpoint exitNodes (doc : Node) (forward : bool) (node : NodeRef)
    (exitedNodes : list NodeRef) : option NodeRef * list NodeRef :=
  let exitedNodes := exitedNodes ++ [node] in
  match (if forward then nextSibling doc node else previousSibling node) with
  | Some next => (Some next, exitedNodes)
  | None =>
    match node with
    | [] => (None, exitedNodes)
    | _ :: parent => exitNodes doc forward parent exitedNodes
    end
  end.

Definition getNextNode (doc : Node) (node : NodeRef) (forward visitChildren : bool)
    (exitedNodes : list NodeRef) : option NodeRef * list NodeRef :=
  let next :=
    if visitChildren
    then (if forward then firstChild doc node else lastChild doc node)
    else None in
  match next with
  | Some n => (Some n, exitedNodes)
  | None => exitNodes doc forward node exitedNodes
  end.

Fixpoint getParentElement (doc : Node) (node : NodeRef) : option NodeRef :=
  match nodeType doc node with
  | ELEMENT_NODE => Some node
  | _ =>
    match node with
    | [] => None
    | _ :: parent => getParentElement doc parent
    end
  end.

Definition getParentRubyElement (doc : Node) (node : NodeRef) : option NodeRef :=
  match getParentElement doc node with
  | Some node2 =>
    if String.eqb (toUpperCase (nodeNameOf doc node2)) "RT"
    then
      match parentNode node2 with
      | Some node3 =>
        if String.eqb (toUpperCase (nodeNameOf doc node3)) "RUBY"
        then Some node3 else None
      | None => None
      end
    else None
  | None => None
  end.

(** *** Construction *)

Definition constructor (doc : Node) (node : NodeRef) (offset : nat)
    (forcePreserveWhitespace generateLayoutContent : bool) : DOMTextScanner :=
  let ruby := getParentRubyElement doc node in
  let resetOffset := match ruby with Some _ => true | None => false end in
  let node := match ruby with Some r => r | None => node end in
  {| _node := node;
     _offset := offset;
     _content := [];
     _remainder := 0;
     _resetOffset := resetOffset;
     _newlines := 0;
     _lineHasWhitespace := false;
     _lineHasContent := false;
     _forcePreserveWhitespace := forcePreserveWhitespace;
     _generateLayoutContent := generateLayoutContent |}.

(** *** Text nodes *)

(** [_getWhitespaceSettings]: the pair [(preserveNewlines, preserveWhitespace)]. *)
Definition _getWhitespaceSettings (doc : Node) (this : DOMTextScanner)
    (textNode : NodeRef) : bool * bool :=
  if _forcePreserveWhitespace this then (true, true)
  else
    match getParentElement doc textNode with
    | Some element =>
      match getNode doc element with
      | Some (Element _ style _) =>
        let ws := whiteSpace style in
        if String.eqb ws "pre" || String.eqb ws "pre-wrap" ||
           String.eqb ws "break-spaces"
        then (true, true)
        else if String.eqb ws "pre-line"
        then (true, false)
        else (false, false)
      | _ => (false, false)
      end
    | None => (false, false)
    end.

Definition newline : Z := 0x0a.
Definition space : Z := 0x20.

(** [_checkCharacterForward]; the result is the updated scanner and the
    returned boolean.  An early [return true] is the pair [(this, true)] that
    the following steps pass through. *)
Definition _checkCharacterForward (this : DOMTextScanner) (char : jsstring)
    (charAttributes : Z) : DOMTextScanner * bool :=
  if charAttributes =? 1
  then (set_lineHasWhitespace true this, false)
  else if (charAttributes =? 2) || (charAttributes =? 3)
  then
    let (this, stop) :=
      if 0 <? _newlines this
      then
        let this :=
          if 0 <? Z.of_nat (List.length (_content this))
          then
            let useNewlineCount := Z.min (_remainder this) (_newlines this) in
            let this :=
              set_content
                (_content this ++ repeat newline (Z.to_nat useNewlineCount)) this in
            let this := set_remainder (_remainder this - useNewlineCount) this in
            set_newlines (_newlines this - useNewlineCount) this
          else set_newlines 0 this in
        let this := set_lineHasContent false this in
        let this := set_lineHasWhitespace false this in
        if _remainder this <=? 0
        then (set_offset (_offset this - List.length char)%nat this, true)
        else (this, false)
      else (this, false) in
    if stop then (this, true)
    else
      let this := set_lineHasContent (charAttributes =? 2) this in
      let (this, stop) :=
        if _lineHasWhitespace this
        then
          if _lineHasContent this
          then
            let this := set_content (_content this ++ [space]) this in
            let this := set_lineHasWhitespace false this in
            let this := set_remainder (_remainder this - 1) this in
            if _remainder this <=? 0
            then (set_offset (_offset this - List.length char)%nat this, true)
            else (this, false)
          else (set_lineHasWhitespace false this, false)
        else (this, false) in
      if stop then (this, true)
      else
        let this := set_content (_content this ++ char) this in
        let this := set_remainder (_remainder this - 1) this in
        (this, _remainder this <=? 0)
  else (this, false).

Definition _checkCharacterBackward (this : DOMTextScanner) (char : jsstring)
    (charAttributes : Z) : DOMTextScanner * bool :=
  if charAttributes =? 1
  then (set_lineHasWhitespace true this, false)
  else if (charAttributes =? 2) || (charAttributes =? 3)
  then
    let (this, stop) :=
      if 0 <? _newlines this
      then
        let this :=
          if 0 <? Z.of_nat (List.length (_content this))
          then
            let useNewlineCount := Z.min (_remainder this) (_newlines this) in
            let this :=
              set_content
                (repeat newline (Z.to_nat useNewlineCount) ++ _content this) this in
            let this := set_remainder (_remainder this - useNewlineCount) this in
            set_newlines (_newlines this - useNewlineCount) this
          else set_newlines 0 this in
        let this := set_lineHasContent false this in
        let this := set_lineHasWhitespace false this in
        if _remainder this <=? 0
        then (set_offset (_offset this + List.length char)%nat this, true)
        else (this, false)
      else (this, false) in
    if stop then (this, true)
    else
      let this := set_lineHasContent (charAttributes =? 2) this in
      let (this, stop) :=
        if _lineHasWhitespace this
        then
          if _lineHasContent this
          then
            let this := set_content ([space] ++ _content this) this in
            let this := set_lineHasWhitespace false this in
            let this := set_remainder (_remainder this - 1) this in
            if _remainder this <=? 0
            then (set_offset (_offset this + List.length char)%nat this, true)
            else (this, false)
          else (set_lineHasWhitespace false this, false)
        else (this, false) in
      if stop then (this, true)
      else
        let this := set_content (char ++ _content this) this in
        let this := set_remainder (_remainder this - 1) this in
        (this, _remainder this <=? 0)
  else (this, false).

(** The [while] loop of [_seekTextNodeForward].  Every round moves [_offset]
    forward, so [List.length nodeValue] rounds are enough; [None] is the loop
    still running when [fuel] is used up. *)
Fixpoint seekTextNodeForwardLoop (fuel : nat) (nodeValue : jsstring)
    (preserveNewlines preserveWhitespace : bool) (this : DOMTextScanner)
  : option DOMTextScanner :=
  if (_offset this <? List.length nodeValue)%nat
  then
    match fuel with
    | O => None
    | S fuel' =>
      let char := StringUtil.readCodePointsForward nodeValue (_offset this) 1 in
      let this := set_offset (_offset this + List.length char)%nat this in
      let charAttributes :=
        getCharacterAttributes char preserveNewlines preserveWhitespace in
      let (this, stop) := _checkCharacterForward this char charAttributes in
      if stop then Some this
      else seekTextNodeForwardLoop fuel' nodeValue preserveNewlines
                                   preserveWhitespace this
    end
  else Some this.

(** [_seekTextNodeForward]: the updated scanner and the returned boolean
    ([true]: go on scanning). *)
Definition _seekTextNodeForward (doc : Node) (this : DOMTextScanner)
    (textNode : NodeRef) (resetOffset : bool) : option (DOMTextScanner * bool) :=
  let nodeValue := nodeValueOf doc textNode in
  let nodeValueLength := List.length nodeValue in
  let (preserveNewlines, preserveWhitespace) :=
    _getWhitespaceSettings doc this textNode in
  let this := if resetOffset then set_offset O this else this in
  match seekTextNodeForwardLoop nodeValueLength nodeValue preserveNewlines
                                preserveWhitespace this with
  | Some this => Some (this, 0 <? _remainder this)
  | None => None
  end.

Fixpoint seekTextNodeBackwardLoop (fuel : nat) (nodeValue : jsstring)
    (preserveNewlines preserveWhitespace : bool) (this : DOMTextScanner)
  : option DOMTextScanner :=
  if (0 <? _offset this)%nat
  then
    match fuel with
    | O => None
    | S fuel' =>
      let char :=
        StringUtil.readCodePointsBackward nodeValue (_offset this - 1) 1 in
      let this := set_offset (_offset this - List.length char)%nat this in
      let charAttributes :=
        getCharacterAttributes char preserveNewlines preserveWhitespace in
      let (this, stop) := _checkCharacterBackward this char charAttributes in
      if stop then Some this
      else seekTextNodeBackwardLoop fuel' nodeValue preserveNewlines
                                    preserveWhitespace this
    end
  else Some this.

Definition _seekTextNodeBackward (doc : Node) (this : DOMTextScanner)
    (textNode : NodeRef) (resetOffset : bool) : option (DOMTextScanner * bool) :=
  let nodeValue := nodeValueOf doc textNode in
  let nodeValueLength := List.length nodeValue in
  let (preserveNewlines, preserveWhitespace) :=
    _getWhitespaceSettings doc this textNode in
  let this := if resetOffset then set_offset nodeValueLength this else this in
  match seekTextNodeBackwardLoop (_offset this) nodeValue preserveNewlines
                                 preserveWhitespace this with
  | Some this => Some (this, 0 <? _remainder this)
  | None => None
  end.

(** *** seek *)

(** [this._newlines] is raised to [newlines] when layout content is wanted. *)
Definition raiseNewlines (newlines : Z) (this : DOMTextScanner) : DOMTextScanner :=
  if (newlines >? _newlines this) && _generateLayoutContent this
  then set_newlines newlines this
  else this.

(** The [for] loop of [seek] over the exited nodes. *)
Fixpoint exitedNodesLoop (doc : Node) (exitedNodes : list NodeRef)
    (this : DOMTextScanner) : DOMTextScanner :=
  match exitedNodes with
  | [] => this
  | exitedNode :: rest =>
    match nodeType doc exitedNode with
    | ELEMENT_NODE =>
      let (_, newlines) := elementSeekInfo doc exitedNode in
      exitedNodesLoop doc rest (raiseNewlines newlines this)
    | _ => exitedNodesLoop doc rest this
    end
  end.

(** What one round of the [while (node !== null)] loop of [seek] leaves
    behind: the loop was left by [break], or [node] was advanced ([None] is
    [null]) and [resetOffset] set. *)
Inductive Round : Type :=
| Break (this : DOMTextScanner) (lastNode : NodeRef)
| Next (this : DOMTextScanner) (node : option NodeRef) (lastNode : NodeRef).

(** The steps of a round after the node itself was handled: [getNextNode],
    then the loop over the exited nodes. *)
Definition advance (doc : Node) (forward : bool) (this : DOMTextScanner)
    (node lastNode : NodeRef) (enterable : bool) : Round :=
  let (next, exitedNodes) := getNextNode doc node forward enterable [] in
  Next (exitedNodesLoop doc exitedNodes this) next lastNode.

(** The body of the [while] loop of [seek] for a non-null [node]; [None] is a
    text loop that ran out of fuel. *)
Definition seekRound (doc : Node) (forward : bool) (this : DOMTextScanner)
    (node lastNode : NodeRef) (resetOffset : bool) : option Round :=
  match nodeType doc node with
  | TEXT_NODE =>
    match (if forward
           then _seekTextNodeForward doc this node resetOffset
           else _seekTextNodeBackward doc this node resetOffset) with
    | Some (this, true) => Some (advance doc forward this node node false)
    | Some (this, false) => Some (Break this node)
    | None => None
    end
  | ELEMENT_NODE =>
    let this := set_offset O this in
    let (enterable, newlines) := elementSeekInfo doc node in
    Some (advance doc forward (raiseNewlines newlines this) node node enterable)
  | OTHER_NODE => Some (advance doc forward this node lastNode false)
  end.

(** The two assignments after the [while] loop of [seek]. *)
Definition finish (lastNode : NodeRef) (resetOffset : bool)
    (this : DOMTextScanner) : DOMTextScanner :=
  set_resetOffset resetOffset (set_node lastNode this).

(** The [while (node !== null)] loop of [seek], entered with a non-null
    [node].  One unit of [fuel] is one round; [None] is the loop still
    running when the fuel is used up. *)
Fixpoint seekLoop (fuel : nat) (doc : Node) (forward : bool)
    (this : DOMTextScanner) (node lastNode : NodeRef) (resetOffset : bool)
  : option DOMTextScanner :=
  match fuel with
  | O => None
  | S fuel' =>
    match seekRound doc forward this node lastNode resetOffset with
    | Some (Break this lastNode) => Some (finish lastNode resetOffset this)
    | Some (Next this (Some node) lastNode) =>
      seekLoop fuel' doc forward this node lastNode true
    | Some (Next this None lastNode) => Some (finish lastNode true this)
    | None => None
    end
  end.

(** The nodes the loop of [seek] handles, in the order of its rounds. *)
Fixpoint seekVisited (fuel : nat) (doc : Node) (forward : bool)
    (this : DOMTextScanner) (node lastNode : NodeRef) (resetOffset : bool)
  : list NodeRef :=
  match fuel with
  | O => []
  | S fuel' =>
    node ::
    match seekRound doc forward this node lastNode resetOffset with
    | Some (Next this (Some node) lastNode) =>
      seekVisited fuel' doc forward this node lastNode true
    | _ => []
    end
  end.

(** The number of nodes of a tree. *)
Fixpoint size (n : Node) : nat :=
  match n with
  | Text _ => 1
  | Element _ _ cs => S (list_sum (map size cs))
  | Other cs => S (list_sum (map size cs))
  end.

(** [seek(length)].  The loop is given one round per node of the document. *)
Definition seek (doc : Node) (this : DOMTextScanner) (length : Z)
  : option DOMTextScanner :=
  let forward := length >=? 0 in
  let this := set_remainder (if forward then length else - length) this in
  if length =? 0 then Some this
  else seekLoop (size doc) doc forward this (_node this) (_node this)
                (_resetOffset this).

(** The nodes [seek(length)] handles. *)
Definition visited (doc : Node) (this : DOMTextScanner) (length : Z)
  : list NodeRef :=
  let forward := length >=? 0 in
  let this' := set_remainder (if forward then length else - length) this in
  if length =? 0 then []
  else seekVisited (size doc) doc forward this' (_node this) (_node this)
                   (_resetOffset this).

End Scanner.

Import Scanner.

(* ------------------------------------------------------------------ *)
(** ** Character classification, in the words of the specification *)

Definition ignorable : Z := 0.
Definition collapsibleWhitespace : Z := 1.
Definition significant : Z := 2.
Definition significantNewline : Z := 3.

Definition tab : Z := 0x09.
Definition lineFeed : Z := 0x0a.
Definition formFeed : Z := 0x0c.
Definition carriageReturn : Z := 0x0d.
Definition zeroWidthSpace : Z := 0x200b.
Definition zeroWidthNonJoiner : Z := 0x200c.

Definition memZ (x : Z) (l : list Z) : bool := existsb (Z.eqb x) l.

(** The classification as section 4.4 of the specification words it, on the
    code of the character. *)
Definition classifySpec (code : Z) (preserveNewlines preserveWhitespace : bool) : Z :=
  if memZ code [tab; formFeed; carriageReturn; space]
  then (if negb preserveWhitespace then collapsibleWhitespace else significant)
  else if memZ code [lineFeed]
  then (if negb preserveNewlines then collapsibleWhitespace else significantNewline)
  else if memZ code [zeroWidthSpace; zeroWidthNonJoiner]
  then ignorable
  else significant.

(* ------------------------------------------------------------------ *)
(** ** Display values, in the words of the specification *)

(** The part of [s] before the first [ch] (all of [s] when there is none). *)
Fixpoint takeUntil (ch : ascii) (s : string) : string :=
  match s with
  | EmptyString => EmptyString
  | String c rest =>
    if Ascii.eqb c ch then EmptyString else String c (takeUntil ch rest)
  end.

Fixpoint contains (ch : ascii) (s : string) : bool :=
  match s with
  | EmptyString => false
  | String c rest => Ascii.eqb c ch || contains ch rest
  end.

Definition memString (x : string) (l : list string) : bool :=
  existsb (String.eqb x) l.

(** The layout test on a display value: its first keyword (the outer display
    type), cut at its first hyphen, is one of block, flex, grid, list, table,
    or it is ruby and the keyword went on after a hyphen. *)
Definition breaksFlowSpec (cssDisplay : string) : bool :=
  let outer := takeUntil " " cssDisplay in
  let head := takeUntil "-" outer in
  memString head ["block"; "flex"; "grid"; "list"; "table"] ||
  (String.eqb head "ruby" && contains "-" outer).

(** Tag names that [getElementSeekInfo] settles without looking at the style. *)
Definition settledByTag (nodeName : string) : bool :=
  memString (toUpperCase nodeName) ["HEAD"; "RT"; "SCRIPT"; "STYLE"; "BR"].

Definition outOfFlow (style : CSSStyleDeclaration) : bool :=
  memString (position style) ["absolute"; "fixed"; "sticky"].

Definition styleShown (style : CSSStyleDeclaration) : bool :=
  negb (String.eqb (display style) "none") && isStyleVisible style.

(* ------------------------------------------------------------------ *)
(** ** The character state machine, by direction *)

(** [_checkCharacterForward] and [_checkCharacterBackward] are the same three
    steps, appending to the content in one direction and prepending in the
    other.  [emit], [revertOffset] and the three steps below are these shared
    pieces; [checkCharacter_forward] and [checkCharacter_backward] show that
    [checkCharacter] is the one method or the other. *)
Definition emit (forward : bool) (s : jsstring) (this : DOMTextScanner)
  : DOMTextScanner :=
  set_content (if forward then _content this ++ s else s ++ _content this) this.

Definition revertOffset (forward : bool) (char : jsstring) (this : DOMTextScanner)
  : DOMTextScanner :=
  set_offset (if forward then _offset this - List.length char
              else _offset this + List.length char)%nat this.

(** Step a: the pending layout newlines. *)
Definition pendingNewlines (forward : bool) (this : DOMTextScanner)
    (char : jsstring) : DOMTextScanner * bool :=
  if 0 <? _newlines this
  then
    let this :=
      if 0 <? Z.of_nat (List.length (_content this))
      then
        let useNewlineCount := Z.min (_remainder this) (_newlines this) in
        let this := emit forward (repeat newline (Z.to_nat useNewlineCount)) this in
        let this := set_remainder (_remainder this - useNewlineCount) this in
        set_newlines (_newlines this - useNewlineCount) this
      else set_newlines 0 this in
    let this := set_lineHasContent false this in
    let this := set_lineHasWhitespace false this in
    if _remainder this <=? 0
    then (revertOffset forward char this, true)
    else (this, false)
  else (this, false).

(** Step c: the pending run of collapsible whitespace. *)
Definition pendingWhitespace (forward : bool) (this : DOMTextScanner)
    (char : jsstring) : DOMTextScanner * bool :=
  if _lineHasWhitespace this
  then
    if _lineHasContent this
    then
      let this := emit forward [space] this in
      let this := set_lineHasWhitespace false this in
      let this := set_remainder (_remainder this - 1) this in
      if _remainder this <=? 0
      then (revertOffset forward char this, true)
      else (this, false)
    else (set_lineHasWhitespace false this, false)
  else (this, false).

(** Step d: the character itself. *)
Definition emitCharacter (forward : bool) (this : DOMTextScanner)
    (char : jsstring) : DOMTextScanner * bool :=
  let this := emit forward char this in
  let this := set_remainder (_remainder this - 1) this in
  (this, _remainder this <=? 0).

Definition checkCharacter (forward : bool) (this : DOMTextScanner)
    (char : jsstring) (charAttributes : Z) : DOMTextScanner * bool :=
  if charAttributes =? 1
  then (set_lineHasWhitespace true this, false)
  else if (charAttributes =? 2) || (charAttributes =? 3)
  then
    let (this, stop) := pendingNewlines forward this char in
    if stop then (this, true)
    else
      let this := set_lineHasContent (charAttributes =? 2) this in
      let (this, stop) := pendingWhitespace forward this char in
      if stop then (this, true)
      else emitCharacter forward this char
  else (this, false).

(** One round of the loop of [_seekTextNodeForward] or [_seekTextNodeBackward]:
    a character is read, [_offset] is moved over it, and the character is
    checked. *)
Definition readCharacter (forward : bool) (nodeValue : jsstring) (offset : nat)
  : jsstring :=
  if forward
  then StringUtil.readCodePointsForward nodeValue offset 1
  else StringUtil.readCodePointsBackward nodeValue (offset - 1) 1.

Definition moveOffset (forward : bool) (char : jsstring) (this : DOMTextScanner)
  : DOMTextScanner :=
  set_offset (if forward then _offset this + List.length char
              else _offset this - List.length char)%nat this.

Definition textRound (forward : bool) (nodeValue : jsstring)
    (preserveNewlines preserveWhitespace : bool) (this : DOMTextScanner)
  : DOMTextScanner * bool :=
  let char := readCharacter forward nodeValue (_offset this) in
  let this := moveOffset forward char this in
  checkCharacter forward this char
    (getCharacterAttributes char preserveNewlines preserveWhitespace).

(** The loop condition of the two text loops. *)
Definition textPending (forward : bool) (nodeValue : jsstring)
    (this : DOMTextScanner) : bool :=
  if forward then (_offset this <? List.length nodeValue)%nat
  else (0 <? _offset this)%nat.

Fixpoint seekTextNodeLoop (forward : bool) (fuel : nat) (nodeValue : jsstring)
    (preserveNewlines preserveWhitespace : bool) (this : DOMTextScanner)
  : option DOMTextScanner :=
  if textPending forward nodeValue this
  then
    match fuel with
    | O => None
    | S fuel' =>
      let (this, stop) :=
        textRound forward nodeValue preserveNewlines preserveWhitespace this in
      if stop then Some this
      else seekTextNodeLoop forward fuel' nodeValue preserveNewlines
                            preserveWhitespace this
    end
  else Some this.

(** [_seekTextNodeForward] and [_seekTextNodeBackward] by direction. *)
Definition seekTextNode (forward : bool) (doc : Node) (this : DOMTextScanner)
    (textNode : NodeRef) (resetOffset : bool) : option (DOMTextScanner * bool) :=
  if forward then _seekTextNodeForward doc this textNode resetOffset
  else _seekTextNodeBackward doc this textNode resetOffset.

(** What the loop of a text node still has to read. *)
Definition textLeft (forward : bool) (nodeValue : jsstring)
    (this : DOMTextScanner) : nat :=
  if forward then (List.length nodeValue - _offset this)%nat else _offset this.

(* ------------------------------------------------------------------ *)
(** ** What a seek emits *)

(** One character of the scan: one code unit, or a surrogate pair. *)
Definition isCharacter (s : jsstring) : Prop :=
  List.length s = 1%nat \/
  exists hi lo, s = [hi; lo] /\ isHighSurrogate hi = true /\ isLowSurrogate lo = true.

(** [content] grown by the characters [es], at the end when scanning forward
    and at the front when scanning backward; [es] is in document order. *)
Definition extend (forward : bool) (content : jsstring) (es : list jsstring)
  : jsstring :=
  if forward then content ++ List.concat es else List.concat es ++ content.

(** From [this] to [this'] the characters [es] were emitted, each counted
    once against the remainder. *)
Definition Emits (forward : bool) (this this' : DOMTextScanner)
    (es : list jsstring) : Prop :=
  Forall isCharacter es /\
  _content this' = extend forward (_content this) es /\
  _remainder this' = _remainder this - Z.of_nat (List.length es).

(** The fields no step of a seek assigns before its end. *)
Definition sameSettings (this this' : DOMTextScanner) : Prop :=
  _node this' = _node this /\
  _resetOffset this' = _resetOffset this /\
  _forcePreserveWhitespace this' = _forcePreserveWhitespace this /\
  _generateLayoutContent this' = _generateLayoutContent this.

(** A step from [this] to [this'] that emitted characters, left the settings
    alone, and either used up the remainder ([stop]) or left some. *)
Definition StepOk (forward : bool) (this this' : DOMTextScanner) (stop : bool)
  : Prop :=
  (exists es, Emits forward this this' es) /\
  (if stop then _remainder this' = 0 else 1 <= _remainder this') /\
  sameSettings this this'.

(** A step that emits nothing: content and remainder are kept, as are the
    settings. *)
Definition Quiet (this this' : DOMTextScanner) : Prop :=
  _content this' = _content this /\
  _remainder this' = _remainder this /\
  sameSettings this this'.

(** The scanner with [extra] more characters to go. *)
Definition shift (extra : Z) (this : DOMTextScanner) : DOMTextScanner :=
  set_remainder (_remainder this + extra) this.

(* ------------------------------------------------------------------ *)
(** ** Positions and measures on the document *)

Definition sizes (cs : list Node) : nat := list_sum (map size cs).

Definition subtreeSize (doc : Node) (ref : NodeRef) : nat :=
  match getNode doc ref with
  | Some n => size n
  | None => O
  end.

(** The number of nodes that lie, in document order, after the subtree of
    [ref]: the subtrees of the later siblings of [ref] and of its ancestors. *)
Fixpoint following (doc : Node) (ref : NodeRef) : nat :=
  match ref with
  | [] => O
  | i :: parent =>
    (match getNode doc parent with
     | Some n => sizes (skipn (S i) (children n))
     | None => O
     end + following doc parent)%nat
  end.

(** The mirror image: the subtrees of the earlier siblings of [ref] and of
    its ancestors. *)
Fixpoint preceding (doc : Node) (ref : NodeRef) : nat :=
  match ref with
  | [] => O
  | i :: parent =>
    (match getNode doc parent with
     | Some n => sizes (firstn i (children n))
     | None => O
     end + preceding doc parent)%nat
  end.

Definition beyond (doc : Node) (forward : bool) (ref : NodeRef) : nat :=
  if forward then following doc ref else preceding doc ref.

(** An upper bound on the rounds the loop of [seek] can still make when it is
    at [ref]: the nodes of the subtree of [ref] and those beyond it. *)
Definition rounds (doc : Node) (forward : bool) (ref : NodeRef) : nat :=
  (subtreeSize doc ref + beyond doc forward ref)%nat.

(** [e] is a proper ancestor of [v]. *)
Definition strictAncestor (e v : NodeRef) : Prop :=
  exists below : list nat, below <> [] /\ v = below ++ e.

(** The position a scanner starts from is one of the document: its node
    exists, and its offset is an index into the text of the node, when that
    is a text node whose offset is not about to be reset. *)
Definition validStart (doc : Node) (this : DOMTextScanner) : Prop :=
  isNode doc (_node this) = true /\
  (nodeType doc (_node this) = TEXT_NODE ->
   _resetOffset this = false ->
   (_offset this <= List.length (nodeValueOf doc (_node this)))%nat).

(** The last text or element node of [nodes], or [lastNode] when there is
    none: the value of the variable [lastNode] of [seek] after the rounds on
    [nodes]. *)
Definition lastRealNode (doc : Node) (lastNode : NodeRef) (nodes : list NodeRef)
  : NodeRef :=
  fold_left (fun acc v =>
               match nodeType doc v with
               | OTHER_NODE => acc
               | _ => v
               end) nodes lastNode.

(** [getNextNode] finds nothing after [node]: the document is used up. *)
Definition exhaustedAt (doc : Node) (forward : bool) (node : NodeRef) : Prop :=
  exists visitChildren exitedNodes,
    getNextNode doc node forward visitChildren [] = (None, exitedNodes).

(* ------------------------------------------------------------------ *)
(** ** Elements that are never entered *)

(** Tag names of the elements that never contribute text: document head,
    ruby annotation text, script and style. *)
Definition neverEntered (nodeName : string) : bool :=
  memString (toUpperCase nodeName) ["HEAD"; "RT"; "SCRIPT"; "STYLE"].

(** [e] is an element of the document that is never entered. *)
Definition skippedElement (doc : Node) (e : NodeRef) : Prop :=
  exists name style cs,
    getNode doc e = Some (Element name style cs) /\ neverEntered name = true.

(** Two documents that are the same but for what their head, rt, script and
    style elements contain. *)
#[warnings="-register-all"]
Inductive SameOutside : Node -> Node -> Prop :=
| SameText : forall v, SameOutside (Text v) (Text v)
| SameSkipped : forall name style cs cs',
    neverEntered name = true ->
    SameOutside (Element name style cs) (Element name style cs')
| SameElement : forall name style cs cs',
    Forall2 SameOutside cs cs' ->
    SameOutside (Element name style cs) (Element name style cs')
| SameOther : forall cs cs',
    Forall2 SameOutside cs cs' ->
    SameOutside (Other cs) (Other cs').

(** [ref] lies inside no head, rt, script or style element of [doc]. *)
Definition outsideSkipped (doc : Node) (ref : NodeRef) : Prop :=
  forall e, skippedElement doc e -> ~ strictAncestor e ref.

(* ------------------------------------------------------------------ *)
(** ** Ordinary text *)

(** A code unit that is neither whitespace, nor zero-width, nor half of a
    surrogate pair. *)
Definition ordinaryUnit (u : Z) : bool :=
  negb (memZ u [tab; lineFeed; formFeed; carriageReturn; space;
                zeroWidthSpace; zeroWidthNonJoiner]) &&
  negb (isHighSurrogate u) && negb (isLowSurrogate u).

(** An ordinary character: one ordinary code unit, or a surrogate pair. *)
Definition ordinaryCharacter (c : jsstring) : bool :=
  match c with
  | [u] => ordinaryUnit u
  | [hi; lo] => isHighSurrogate hi && isLowSurrogate lo
  | _ => false
  end.

(** The offset of the [i]-th character in the text made of the characters
    [cs]. *)
Definition offsetOf (cs : list jsstring) (i : nat) : nat :=
  List.length (List.concat (firstn i cs)).

(** Neither a layout newline nor a run of whitespace is pending. *)
Definition nothingPending (this : DOMTextScanner) : Prop :=
  _newlines this <= 0 /\ _lineHasWhitespace this = false.

(* ------------------------------------------------------------------ *)
(** ** Example documents *)

Definition blockStyle : CSSStyleDeclaration := withDisplay defaultStyle "block".

(** The text node ["a   b"] on its own. *)
Definition docSpaces : Node := Text (js "a   b").

(** The same text in a paragraph of a document. *)
Definition docSpacesInP : Node :=
  Other [Element "HTML" blockStyle
           [Element "BODY" blockStyle
              [Element "P" blockStyle [Text (js "a   b")]]]].

(** [<div>foo</div><div>bar</div>] in a document body, the two containers
    having the display value [cssDisplay]. *)
Definition docTwoContainers (cssDisplay : string) : Node :=
  Other [Element "HTML" blockStyle
           [Element "BODY" blockStyle
              [Element "DIV" (withDisplay defaultStyle cssDisplay) [Text (js "foo")];
               Element "DIV" (withDisplay defaultStyle cssDisplay) [Text (js "bar")]]]].

Definition docTwoDivs : Node := docTwoContainers "block".

(** The display values of block-level containers. *)
Definition blockDisplays : list string :=
  ["block"; "flex"; "grid"; "list-item"; "table"; "block flow"; "block flex"].

(** The text node ["foo"] of [docTwoDivs]. *)
Definition fooText : NodeRef := [0; 0; 0; 0]%nat.

(** A scanner at the start of ["foo"] in [docTwoDivs]. *)
Definition scannerAtFoo : DOMTextScanner := constructor docTwoDivs fooText 0 false true.

(** [<p>a</p><script>x</script><p>b</p>] in a document body. *)
Definition docScript : Node :=
  Other [Element "HTML" blockStyle
           [Element "BODY" blockStyle
              [Element "P" blockStyle [Text (js "a")];
               Element "SCRIPT" blockStyle [Text (js "x")];
               Element "P" blockStyle [Text (js "b")]]]].

(** The script element of [docScript], its text, and the text ["a"]. *)
Definition scriptElement : NodeRef := [1; 0; 0]%nat.
Definition scriptText : NodeRef := [0; 1; 0; 0]%nat.
Definition aText : NodeRef := [0; 0; 0; 0]%nat.
Definition bText : NodeRef := [0; 2; 0; 0]%nat.

(** [docScript] with another script. *)
Definition docScript' : Node :=
  Other [Element "HTML" blockStyle
           [Element "BODY" blockStyle
              [Element "P" blockStyle [Text (js "a")];
               Element "SCRIPT" blockStyle
                 [Text (js "let y = 0;"); Element "P" blockStyle [Text (js "z")]];
               Element "P" blockStyle [Text (js "b")]]]].

(** The text node ["ab"] on its own. *)
Definition docAB : Node := Text (js "ab").

(** Two adjacent text nodes, ["ab"] and ["cd"], in a paragraph. *)
Definition docTwoTexts : Node :=
  Other [Element "P" blockStyle [Text (js "ab"); Text (js "cd")]].

(** The characters of ["h", U+1F600, "i", U+3042], and a paragraph whose text
    they make. *)
Definition helloChars : list jsstring :=
  [[0x68]; [0xd83d; 0xde00]; [0x69]; [0x3042]].

Definition docHello : Node :=
  Other [Element "P" blockStyle [Text (List.concat helloChars)]].

Definition helloText : NodeRef := [0; 0]%nat.

(** [<p><ruby>AB<rt>xy</rt></ruby>cd</p>] in a document. *)
Definition docRuby : Node :=
  Other [Element "P" blockStyle
           [Element "RUBY" (withDisplay defaultStyle "ruby")
              [Text (js "AB");
               Element "RT" (withDisplay defaultStyle "ruby-text") [Text (js "xy")]];
            Text (js "cd")]].

(** The ruby element of [docRuby], its base text and its annotation text. *)
Definition rubyElement : NodeRef := [0; 0]%nat.
Definition rubyBaseText : NodeRef := [0; 0; 0]%nat.
Definition rubyAnnotationText : NodeRef := [0; 1; 0; 0]%nat.

(** [e] is [v] or an ancestor of [v]. *)
Definition ancestorOrSelf (e v : NodeRef) : Prop :=
  exists below : list nat, v = below ++ e.

(** [e] is an element of the document that [getElementSeekInfo] lets the
    scan enter. *)
Definition enterableElement (doc : Node) (e : NodeRef) : Prop :=
  nodeType doc e = ELEMENT_NODE /\ fst (elementSeekInfo doc e) = true.

(** The tag names [getElementSeekInfo] never lets the scan enter. *)
Definition closedTag (nodeName : string) : bool :=
  memString (toUpperCase nodeName)
            ["HEAD"; "RT"; "SCRIPT"; "STYLE"; "BR"; "TEXTAREA"; "INPUT"; "BUTTON"].

(** [docScript] with an input-like element, an invisible element and a
    comment with (impossible) children in its body. *)
Definition docClosed : Node :=
  Other [Element "HTML" blockStyle
           [Element "BODY" blockStyle
              [Element "P" blockStyle [Text (js "a")];
               Element "BUTTON" blockStyle [Text (js "press")];
               Element "DIV" (withDisplay defaultStyle "none") [Text (js "hidden")];
               Other [Text (js "comment")];
               Element "P" blockStyle [Text (js "b")]]]].

(** [node] and its first [n] ancestors, from [node] upward. *)
Definition upwardChain (node : NodeRef) (n : nat) : list NodeRef :=
  map (fun j => skipn j node) (seq 0 (S n)).

(** The newline counts of the elements among [nodes]. *)
Definition elementNewlines (doc : Node) (nodes : list NodeRef) : list Z :=
  map (fun e => snd (elementSeekInfo doc e))
      (filter (fun e => match nodeType doc e with
                        | ELEMENT_NODE => true
                        | _ => false
                        end) nodes).

(** A text whose code units are all ignorable or collapsible whitespace
    under the whitespace settings [preserveNewlines], [preserveWhitespace]. *)
Definition blankText (preserveNewlines preserveWhitespace : bool)
    (nodeValue : jsstring) : Prop :=
  Forall (fun u => getCharacterAttributes [u] preserveNewlines preserveWhitespace
                   <= 1) nodeValue.

(** [<p>a</p>], blank text, [<p>b</p>] in a document body. *)
Definition docBlank : Node :=
  Other [Element "HTML" blockStyle
           [Element "BODY" blockStyle
              [Element "P" blockStyle [Text (js "a")];
               Text [0x0a; 0x20; 0x20; 0x200b; 0x09];
               Element "P" blockStyle [Text (js "b")]]]].

Definition blankNode : NodeRef := [1; 0; 0]%nat.

(** The scanner [scannerAtFoo] after [seek(2)]: it has read ["fo"]. *)
Definition scannerAfterFo : DOMTextScanner :=
  set_remainder 0
    (set_offset 2
       (set_lineHasContent true (set_content (js "fo") scannerAtFoo))).

(* ------------------------------------------------------------------ *)
(** ** Numbers *)

(** The numbers of the code are IEEE doubles; a length is an integer-valued
    double.  On the integers up to [Number.MAX_SAFE_INTEGER] the arithmetic of
    the code on [_remainder] (negation, [Math.min], subtraction, decrement,
    comparison with 0) is exact, and there the integers of this development are
    the numbers of the code.  Statements that give the exact value of a
    remainder are made for lengths within this range. *)
Definition maxSafeInteger : Z := 2 ^ 53 - 1.

Definition safeLength (length : Z) : Prop := Z.abs length <= maxSafeInteger.

(* ------------------------------------------------------------------ *)
(** ** What a seek writes, piece by piece *)

(** One thing [seek] writes into the content, counted once against the
    remainder: a newline for a layout break, the space that stands for a run
    of collapsible whitespace, or a character read from a text node. *)
Inductive Piece : Type :=
| LayoutNewline
| CollapsedSpace
| Character (char : jsstring).

Definition pieceText (p : Piece) : jsstring :=
  match p with
  | LayoutNewline => [newline]
  | CollapsedSpace => [space]
  | Character char => char
  end.

Definition written (ps : list Piece) : jsstring := List.concat (map pieceText ps).

(** [content] after the pieces [ps] were written, in this order: each at the
    end when seeking forward, each at the front when seeking backward. *)
Definition render (forward : bool) (content : jsstring) (ps : list Piece)
  : jsstring :=
  if forward then content ++ written ps else written (rev ps) ++ content.

(** The characters read from text among the pieces. *)
Fixpoint charactersOf (ps : list Piece) : list jsstring :=
  match ps with
  | [] => []
  | Character char :: rest => char :: charactersOf rest
  | _ :: rest => charactersOf rest
  end.

(** From [this] to [this'] the pieces [ps] were written, each counted once
    against the remainder. *)
Definition Renders (forward : bool) (this this' : DOMTextScanner)
    (ps : list Piece) : Prop :=
  _content this' = render forward (_content this) ps /\
  _remainder this' = _remainder this - Z.of_nat (List.length ps).

(* ------------------------------------------------------------------ *)
(** ** The text of the document, in the words of the specification *)

(** A string cut into Unicode code points, from its start: a high surrogate
    followed by a low surrogate is one code point, every other code unit is
    one. *)
Fixpoint codePoints (s : jsstring) : list jsstring :=
  match s with
  | [] => []
  | c :: rest =>
    match rest with
    | c2 :: rest' =>
      if isHighSurrogate c && isLowSurrogate c2
      then [c; c2] :: codePoints rest'
      else [c] :: codePoints rest
    | [] => [[c]]
    end
  end.

(** The same from the end of a string: [r] is the string with its last code
    unit first; the code points come last one first, each in its own order. *)
Fixpoint codePointsBackward (r : jsstring) : list jsstring :=
  match r with
  | [] => []
  | c :: rest =>
    match rest with
    | c2 :: rest' =>
      if isLowSurrogate c && isHighSurrogate c2
      then [c2; c] :: codePointsBackward rest'
      else [c] :: codePointsBackward rest
    | [] => [[c]]
    end
  end.

(** The code points of the text [nodeValue] that lie ahead of [offset], in
    the order a scan in the direction [forward] meets them. *)
Definition charactersAhead (forward : bool) (nodeValue : jsstring) (offset : nat)
  : list jsstring :=
  if forward then codePoints (skipn offset nodeValue)
  else codePointsBackward (rev (firstn offset nodeValue)).

(** The offset a scan enters a text by: its start forward, its end
    backward. *)
Definition edge (forward : bool) (nodeValue : jsstring) : nat :=
  if forward then O else List.length nodeValue.

(** A significant character (section 4.4): an ordinary character or a
    preserved newline; it is classified by its first code unit. *)
Definition isSignificant (preserveNewlines preserveWhitespace : bool)
    (char : jsstring) : bool :=
  match char with
  | u :: _ =>
    memZ (classifySpec u preserveNewlines preserveWhitespace)
         [significant; significantNewline]
  | [] => false
  end.

(** The significant characters of the text node [textNode] ahead of
    [offset]. *)
Definition textAhead (doc : Node) (forward : bool) (this : DOMTextScanner)
    (textNode : NodeRef) (offset : nat) : list jsstring :=
  let (preserveNewlines, preserveWhitespace) :=
    _getWhitespaceSettings doc this textNode in
  filter (isSignificant preserveNewlines preserveWhitespace)
         (charactersAhead forward (nodeValueOf doc textNode) offset).

(** All the significant characters of a text node, in the order of the
    scan. *)
Definition textOf (doc : Node) (forward : bool) (this : DOMTextScanner)
    (textNode : NodeRef) : list jsstring :=
  textAhead doc forward this textNode (edge forward (nodeValueOf doc textNode)).

(** The visible text nodes of the tree [n] placed at [ref], in document
    order: the text nodes that are not inside an element closed by its tag
    (section 4.5) or not shown (section 4.6), nor inside a node that is
    neither text nor element. *)
Fixpoint visibleTexts (n : Node) (ref : NodeRef) : list NodeRef :=
  match n with
  | Text _ => [ref]
  | Element nodeName style childNodes =>
    if negb (closedTag nodeName) && styleShown style
    then
      (fix inChildren (cs : list Node) (i : nat) : list NodeRef :=
         match cs with
         | [] => []
         | c :: cs' => visibleTexts c (i :: ref) ++ inChildren cs' (S i)
         end) childNodes O
    else []
  | Other _ => []
  end.

Definition visibleTextsAt (doc : Node) (ref : NodeRef) : list NodeRef :=
  match getNode doc ref with
  | Some n => visibleTexts n ref
  | None => []
  end.

(** A list in the order of the scan. *)
Definition inOrder {A : Type} (forward : bool) (l : list A) : list A :=
  if forward then l else rev l.

(** The children of [parent] that lie beyond its child [i], in the order of
    the scan. *)
Definition siblingsBeyond (doc : Node) (forward : bool) (i : nat)
    (parent : NodeRef) : list NodeRef :=
  match getNode doc parent with
  | Some n =>
    map (fun j => j :: parent)
        (if forward then seq (S i) (List.length (children n) - S i)
         else rev (seq O i))
  | None => []
  end.

(** The visible text nodes that lie beyond the subtree of [ref], in the
    order of the scan: those of the later (backward: earlier) siblings of
    [ref] and of its ancestors. *)
Fixpoint textsBeyond (doc : Node) (forward : bool) (ref : NodeRef)
  : list NodeRef :=
  match ref with
  | [] => []
  | i :: parent =>
    List.concat (map (fun s => inOrder forward (visibleTextsAt doc s))
                     (siblingsBeyond doc forward i parent))
    ++ textsBeyond doc forward parent
  end.

(** The visible text that lies ahead of a position, in the order of the scan:
    the significant characters of the text node [node] ahead of [offset] (of
    the visible text nodes of [node] when it is not a text node), then those
    of the visible text nodes beyond [node]. *)
Definition visibleTextAhead (doc : Node) (forward : bool) (this : DOMTextScanner)
    (node : NodeRef) (offset : nat) : list jsstring :=
  match nodeType doc node with
  | TEXT_NODE => textAhead doc forward this node offset
  | _ => List.concat (map (textOf doc forward this)
                          (inOrder forward (visibleTextsAt doc node)))
  end
  ++ List.concat (map (textOf doc forward this) (textsBeyond doc forward node)).

(** The offset a seek starts from, in a text node. *)
Definition startOffset (doc : Node) (forward : bool) (this : DOMTextScanner)
  : nat :=
  if _resetOffset this then edge forward (nodeValueOf doc (_node this))
  else _offset this.

(** Whether the loop of [seek] goes down into a node. *)
Definition entered (doc : Node) (node : NodeRef) : bool :=
  match nodeType doc node with
  | ELEMENT_NODE => fst (elementSeekInfo doc node)
  | _ => false
  end.

(* ================================================================== *)
(** * Properties *)

(** C5: for every character (a string whose first code unit is [code]) and
    every pair of flags, [getCharacterAttributes] is the classification of the
    specification: tab, form feed, carriage return and space are collapsible
    whitespace unless whitespace is preserved (then significant); line feed is
    collapsible whitespace unless newlines are preserved (then a significant
    preserved newline); zero-width space and zero-width non-joiner are
    ignorable; every other character is significant. *)
Theorem getCharacterAttributes_classification :
  forall (code : Z) (rest : jsstring) (preserveNewlines preserveWhitespace : bool),
    getCharacterAttributes (code :: rest) preserveNewlines preserveWhitespace
    = classifySpec code preserveNewlines preserveWhitespace.
Proof.
  intros code rest pn pw.
  unfold getCharacterAttributes, classifySpec, memZ, charCodeAt0; simpl.
  unfold tab, formFeed, carriageReturn, space, lineFeed, zeroWidthSpace,
    zeroWidthNonJoiner.
  rewrite !orb_false_r.
  destruct (code =? 9) eqn:E9; simpl.
  { destruct pw; reflexivity. }
  destruct (code =? 12) eqn:E12; simpl.
  { destruct pw; reflexivity. }
  destruct (code =? 13) eqn:E13; simpl.
  { destruct pw; reflexivity. }
  destruct (code =? 32) eqn:E32; simpl.
  { destruct pw; reflexivity. }
  destruct (code =? 10) eqn:E10; simpl.
  { destruct pn; reflexivity. }
  destruct (code =? 8203) eqn:E1; simpl; [reflexivity|].
  destruct (code =? 8204) eqn:E2; simpl; reflexivity.
Qed.

(* ------------------------------------------------------------------ *)
(** ** seek(0) *)

(** C7: [seek(0)] returns at once: no node is handled, [_remainder] is set to
    0, and the node, the offset, the content and the whitespace and newline
    bookkeeping of the scanner are what they were. *)
Theorem seek_zero_noop :
  forall (doc : Node) (this : DOMTextScanner),
    seek doc this 0 = Some (set_remainder 0 this) /\
    visited doc this 0 = [] /\
    _remainder (set_remainder 0 this) = 0 /\
    _node (set_remainder 0 this) = _node this /\
    _offset (set_remainder 0 this) = _offset this /\
    _content (set_remainder 0 this) = _content this /\
    _resetOffset (set_remainder 0 this) = _resetOffset this /\
    _newlines (set_remainder 0 this) = _newlines this /\
    _lineHasWhitespace (set_remainder 0 this) = _lineHasWhitespace this /\
    _lineHasContent (set_remainder 0 this) = _lineHasContent this /\
    _forcePreserveWhitespace (set_remainder 0 this) = _forcePreserveWhitespace this /\
    _generateLayoutContent (set_remainder 0 this) = _generateLayoutContent this.
Proof.
  intros doc this. unfold seek, visited. simpl. repeat split; reflexivity.
Qed.

(* ------------------------------------------------------------------ *)
(** ** Element seek information *)

Lemma indexOf_nonneg_contains :
  forall (ch : ascii) (s : string), (indexOf s ch >=? 0) = contains ch s.
Proof.
  intros ch s. induction s as [|c rest IH]; simpl; [reflexivity|].
  destruct (Ascii.eqb c ch); simpl; [reflexivity|].
  rewrite <- IH. rewrite !Z.geb_leb.
  destruct (indexOf rest ch <? 0) eqn:E.
  - apply Z.ltb_lt in E. symmetry. apply Z.leb_gt. assumption.
  - apply Z.ltb_ge in E.
    transitivity true; [|symmetry]; apply Z.leb_le; lia.
Qed.

Lemma indexOf_lower_bound :
  forall (ch : ascii) (s : string), -1 <= indexOf s ch.
Proof.
  intros ch s. induction s as [|c rest IH]; simpl; [lia|].
  destruct (Ascii.eqb c ch); [lia|].
  destruct (indexOf rest ch <? 0); lia.
Qed.

Lemma substring0_String :
  forall (c : ascii) (s : string) (n : Z),
    0 <= n -> substring0 (String c s) (n + 1) = String c (substring0 s n).
Proof.
  intros c s n Hn. unfold substring0.
  replace (Z.to_nat (n + 1)) with (S (Z.to_nat n)) by lia.
  reflexivity.
Qed.

Lemma truncate_takeUntil :
  forall (ch : ascii) (s : string),
    (if indexOf s ch >=? 0 then substring0 s (indexOf s ch) else s)
    = takeUntil ch s.
Proof.
  intros ch s. induction s as [|c rest IH]; simpl; [reflexivity|].
  destruct (Ascii.eqb c ch) eqn:Ec; simpl; [reflexivity|].
  pose proof (indexOf_lower_bound ch rest) as Hlb.
  destruct (indexOf rest ch <? 0) eqn:E.
  - apply Z.ltb_lt in E.
    replace (indexOf rest ch) with (-1) in IH by lia. simpl in IH.
    simpl. rewrite <- IH. reflexivity.
  - apply Z.ltb_ge in E.
    assert (G1 : (indexOf rest ch + 1 >=? 0) = true)
      by (rewrite Z.geb_leb; apply Z.leb_le; lia).
    assert (G2 : (indexOf rest ch >=? 0) = true)
      by (rewrite Z.geb_leb; apply Z.leb_le; lia).
    rewrite G1. rewrite G2 in IH.
    rewrite substring0_String by assumption. rewrite IH. reflexivity.
Qed.

Lemma doesCSSDisplayChangeLayout_spec :
  forall cssDisplay : string,
    doesCSSDisplayChangeLayout cssDisplay = breaksFlowSpec cssDisplay.
Proof.
  intros d. unfold doesCSSDisplayChangeLayout, breaksFlowSpec, memString.
  cbv zeta. rewrite (truncate_takeUntil " " d).
  rewrite (truncate_takeUntil "-" (takeUntil " " d)).
  rewrite indexOf_nonneg_contains. simpl existsb.
  rewrite orb_false_r.
  set (h := takeUntil "-" (takeUntil " " d)).
  destruct (String.eqb h "block") eqn:E1; [reflexivity|].
  destruct (String.eqb h "flex") eqn:E2; [reflexivity|].
  destruct (String.eqb h "grid") eqn:E3; [reflexivity|].
  destruct (String.eqb h "list") eqn:E4; [reflexivity|].
  destruct (String.eqb h "table") eqn:E5; [reflexivity|].
  simpl. destruct (String.eqb h "ruby"); reflexivity.
Qed.

(** C3 as it is stated fails: an element whose display is exactly [ruby] gets
    0 newlines, and one whose display is [ruby-text] gets 1. *)
Lemma ruby_display_counterexample :
  getElementSeekInfo "RUBY" (withDisplay defaultStyle "ruby") = (true, 0) /\
  getElementSeekInfo "SPAN" (withDisplay defaultStyle "ruby-text") = (true, 1).
Proof. split; vm_compute; reflexivity. Qed.

(** C3, amended: for an element that is not settled by its tag name and is
    visible, the newline count is 2 when its position is absolute, fixed or
    sticky; otherwise 1 exactly when the first keyword of its display value,
    cut at its first hyphen, is block, flex, grid, list or table, or is ruby
    followed by a hyphenated suffix (ruby-base, ruby-text, ...); otherwise 0.
    In particular block, flex, grid, list-item, table, the table parts,
    ruby-base and ruby-text give 1, and inline, inline-block and the plain
    value ruby give 0. *)
Theorem getElementSeekInfo_newlines :
  forall (nodeName : string) (style : CSSStyleDeclaration),
    settledByTag nodeName = false ->
    styleShown style = true ->
    snd (getElementSeekInfo nodeName style)
    = (if outOfFlow style then 2
       else if breaksFlowSpec (display style) then 1 else 0) /\
    map breaksFlowSpec
        ["block"; "flex"; "grid"; "list-item"; "table"; "table-row";
         "table-cell"; "table-caption"; "block flow"; "ruby-base"; "ruby-text"]
    = repeat true 11 /\
    map breaksFlowSpec ["inline"; "inline-block"; "inline flow"; "ruby"; "contents"]
    = repeat false 5.
Proof.
  intros name style Htag Hshown.
  split; [|split; vm_compute; reflexivity].
  unfold settledByTag, memString in Htag. simpl in Htag.
  repeat match goal with
         | H : (_ || _) = false |- _ =>
           apply orb_false_iff in H; destruct H as [? H]
         end.
  unfold getElementSeekInfo. cbv zeta.
  repeat match goal with
         | H : String.eqb (toUpperCase name) _ = false |- _ =>
           rewrite H; clear H
         end.
  simpl orb. cbv iota.
  unfold styleShown in Hshown. rewrite Hshown. simpl negb. cbv iota.
  unfold outOfFlow, memString. simpl existsb. rewrite orb_false_r.
  rewrite doesCSSDisplayChangeLayout_spec.
  destruct (String.eqb (position style) "absolute");
    destruct (String.eqb (position style) "fixed");
    destruct (String.eqb (position style) "sticky");
    destruct (breaksFlowSpec (display style)); reflexivity.
Qed.

Lemma getElementSeekInfo_newlines_witness :
  settledByTag "DIV" = false /\
  styleShown (withDisplay defaultStyle "table-cell") = true /\
  snd (getElementSeekInfo "DIV" (withDisplay defaultStyle "table-cell")) = 1.
Proof.
  split; [reflexivity|]. split; [reflexivity|].
  exact (proj1 (getElementSeekInfo_newlines
                  "DIV" (withDisplay defaultStyle "table-cell")
                  eq_refl eq_refl)).
Defined.

(* ------------------------------------------------------------------ *)
(** ** Two worked documents *)

(** C2 as it is stated fails: on the text ["a   b"], [seek(5)] from offset 0
    does not end with content ["a b"] and remainder 0. *)
Lemma collapsed_spaces_counterexample :
  ~ (exists this : DOMTextScanner,
        seek docSpaces (constructor docSpaces [] 0 false true) 5 = Some this /\
        _content this = js "a b" /\ _remainder this = 0).
Proof.
  intros [this [Hseek [_ Hrem]]].
  vm_compute in Hseek. injection Hseek as <-. discriminate Hrem.
Qed.

(** C2, amended: on the text ["a   b"] under default whitespace handling, a
    scanner constructed at offset 0 and sought by 5 ends with content ["a b"]
    and remainder 2: three characters were emitted (the run of spaces as one)
    and two of the five requested could not be supplied.  [seek(3)] gives the
    same content with remainder 0.  This holds for the text node on its own
    and inside a paragraph, with or without layout content. *)
Theorem collapsed_spaces_seek :
  forall generateLayoutContent : bool,
    (exists this,
        seek docSpaces (constructor docSpaces [] 0 false generateLayoutContent) 5
        = Some this /\
        _content this = js "a b" /\ _remainder this = 2) /\
    (exists this,
        seek docSpaces (constructor docSpaces [] 0 false generateLayoutContent) 3
        = Some this /\
        _content this = js "a b" /\ _remainder this = 0) /\
    (exists this,
        seek docSpacesInP
             (constructor docSpacesInP [0; 0; 0; 0]%nat 0 false generateLayoutContent) 5
        = Some this /\
        _content this = js "a b" /\ _remainder this = 2) /\
    (exists this,
        seek docSpacesInP
             (constructor docSpacesInP [0; 0; 0; 0]%nat 0 false generateLayoutContent) 3
        = Some this /\
        _content this = js "a b" /\ _remainder this = 0).
Proof.
  intros [|]; repeat split; eexists; (split; [vm_compute; reflexivity|]);
    split; reflexivity.
Qed.

(** C4: in [<div>foo</div><div>bar</div>], scanning forward from the start of
    ["foo"] across the boundary of the two blocks gives ["foo\nbar"] (exactly
    one newline between the texts) when layout content is generated, and
    ["foobar"] (no newline) when it is not; the same holds for the other
    display values of block-level containers. *)
Theorem block_boundary_newline :
  (exists this,
      seek docTwoDivs (constructor docTwoDivs fooText 0 false true) 7 = Some this /\
      _content this = js "foo" ++ [newline] ++ js "bar" /\
      _remainder this = 0 /\
      count_occ Z.eq_dec (_content this) newline = 1%nat) /\
  (exists this,
      seek docTwoDivs (constructor docTwoDivs fooText 0 false false) 6 = Some this /\
      _content this = js "foobar" /\
      _remainder this = 0 /\
      count_occ Z.eq_dec (_content this) newline = 0%nat) /\
  (exists this,
      seek docTwoDivs (constructor docTwoDivs fooText 0 false false) 7 = Some this /\
      _content this = js "foobar" /\
      _remainder this = 1) /\
  Forall (fun d =>
            option_map _content
              (seek (docTwoContainers d)
                    (constructor (docTwoContainers d) fooText 0 false true) 7)
            = Some (js "foo" ++ [newline] ++ js "bar") /\
            option_map _content
              (seek (docTwoContainers d)
                    (constructor (docTwoContainers d) fooText 0 false false) 7)
            = Some (js "foobar"))
         blockDisplays.
Proof.
  split; [eexists; split; [vm_compute; reflexivity|repeat split; reflexivity]|].
  split; [eexists; split; [vm_compute; reflexivity|repeat split; reflexivity]|].
  split; [eexists; split; [vm_compute; reflexivity|repeat split; reflexivity]|].
  unfold blockDisplays.
  repeat (constructor; [split; vm_compute; reflexivity|]).
  constructor.
Qed.

(* ------------------------------------------------------------------ *)
(** ** The document tree *)

Lemma size_children : forall n : Node, size n = S (sizes (children n)).
Proof. intros [v|name style cs|cs]; reflexivity. Qed.

Lemma sizes_app : forall l1 l2 : list Node, sizes (l1 ++ l2) = (sizes l1 + sizes l2)%nat.
Proof.
  intros l1 l2. unfold sizes. rewrite map_app, list_sum_app. reflexivity.
Qed.

Lemma sizes_cons : forall (c : Node) (l : list Node), sizes (c :: l) = (size c + sizes l)%nat.
Proof. reflexivity. Qed.

Lemma sizes_nil : sizes [] = O.
Proof. reflexivity. Qed.

Lemma skipn_nth_error :
  forall (A : Type) (l : list A) (i : nat) (x : A),
    nth_error l i = Some x -> skipn i l = x :: skipn (S i) l.
Proof.
  intros A l. induction l as [|a l IH]; intros [|i] x H; simpl in *;
    try discriminate.
  - injection H as ->. reflexivity.
  - apply IH. assumption.
Qed.

Lemma firstn_nth_error :
  forall (A : Type) (l : list A) (i : nat) (x : A),
    nth_error l i = Some x -> firstn (S i) l = firstn i l ++ [x].
Proof.
  intros A l. induction l as [|a l IH]; intros [|i] x H; simpl in *;
    try discriminate.
  - injection H as ->. reflexivity.
  - f_equal. apply IH. assumption.
Qed.

Lemma isNode_getNode :
  forall doc ref, isNode doc ref = true -> exists n, getNode doc ref = Some n.
Proof.
  intros doc ref H. unfold isNode in H.
  destruct (getNode doc ref) as [n|]; [eauto|discriminate].
Qed.

Lemma isNode_parent :
  forall doc i parent, isNode doc (i :: parent) = true -> isNode doc parent = true.
Proof.
  intros doc i parent H. unfold isNode in *. simpl in H.
  destruct (getNode doc parent); [reflexivity|discriminate].
Qed.

Lemma isNode_previous :
  forall doc i parent,
    isNode doc (S i :: parent) = true -> isNode doc (i :: parent) = true.
Proof.
  intros doc i parent H. unfold isNode in *. cbn [getNode] in *.
  destruct (getNode doc parent) as [n|]; [|discriminate].
  destruct (nth_error (children n) (S i)) eqn:E; [|discriminate].
  assert (Hlt : (S i < List.length (children n))%nat)
    by (apply nth_error_Some; congruence).
  destruct (nth_error (children n) i) eqn:E'; [reflexivity|].
  apply nth_error_None in E'. lia.
Qed.

Lemma subtreeSize_pos :
  forall doc ref, isNode doc ref = true -> (1 <= subtreeSize doc ref)%nat.
Proof.
  intros doc ref H. apply isNode_getNode in H as [n Hn].
  unfold subtreeSize. rewrite Hn, size_children. lia.
Qed.

(** A child and what lies beyond it fit inside what the parent covers. *)
Lemma rounds_child :
  forall doc forward i parent,
    isNode doc (i :: parent) = true ->
    (rounds doc forward (i :: parent) < rounds doc forward parent)%nat.
Proof.
  intros doc forward i parent H. unfold rounds, subtreeSize, isNode in *.
  cbn [getNode] in *. destruct (getNode doc parent) as [n|] eqn:Hn; [|discriminate].
  destruct (nth_error (children n) i) as [c|] eqn:E; [|discriminate].
  rewrite (size_children n).
  pose proof (firstn_skipn i (children n)) as Hsplit.
  rewrite (skipn_nth_error _ _ _ _ E) in Hsplit.
  assert (Hs : sizes (children n)
               = (sizes (firstn i (children n)) + size c
                  + sizes (skipn (S i) (children n)))%nat).
  { rewrite <- Hsplit at 1. rewrite sizes_app, sizes_cons. lia. }
  destruct forward; cbn [beyond following preceding]; rewrite Hn; lia.
Qed.

Lemma rounds_le_size :
  forall doc forward ref,
    isNode doc ref = true -> (rounds doc forward ref <= size doc)%nat.
Proof.
  intros doc forward ref. induction ref as [|i parent IH]; intros H.
  - unfold rounds, subtreeSize, beyond. simpl. destruct forward; simpl; lia.
  - pose proof (rounds_child doc forward i parent H).
    specialize (IH (isNode_parent _ _ _ H)). lia.
Qed.

(** The upward loop of [getNextNode] ends on a node of the document, and what
    the loop of [seek] can still make from there is what lay beyond [node]. *)
Lemma exitNodes_next :
  forall doc forward node exited next exited',
    isNode doc node = true ->
    exitNodes doc forward node exited = (Some next, exited') ->
    isNode doc next = true /\
    rounds doc forward next = beyond doc forward node.
Proof.
  intros doc forward node. induction node as [|i parent IH];
    intros exited next exited' Hnode H.
  - simpl in H. destruct forward; simpl in H; discriminate.
  - cbn [exitNodes] in H. destruct forward.
    + cbn [nextSibling] in H. destruct (isNode doc (S i :: parent)) eqn:Hsib.
      * injection H as <- <-. split; [assumption|].
        unfold rounds, subtreeSize, beyond, isNode in *.
        cbn [getNode following preceding] in *.
        destruct (getNode doc parent) as [n|]; [|discriminate].
        destruct (nth_error (children n) (S i)) as [c|] eqn:E; [|discriminate].
        rewrite (skipn_nth_error _ _ _ _ E), sizes_cons. lia.
      * apply IH in H; [|eapply isNode_parent; eassumption].
        destruct H as [Hv Hr]. split; [assumption|]. rewrite Hr.
        unfold beyond, isNode in *. cbn [getNode following preceding] in *.
        destruct (getNode doc parent) as [n|]; [|reflexivity].
        destruct (nth_error (children n) (S i)) eqn:E; [discriminate|].
        apply nth_error_None in E. rewrite skipn_all2 by assumption.
        reflexivity.
    + destruct i as [|i]; cbn [previousSibling] in H.
      * apply IH in H; [|eapply isNode_parent; eassumption].
        destruct H as [Hv Hr]. split; [assumption|]. rewrite Hr.
        unfold beyond. cbn [preceding]. destruct (getNode doc parent); reflexivity.
      * injection H as <- <-. pose proof (isNode_previous _ _ _ Hnode) as Hprev.
        split; [assumption|].
        unfold rounds, subtreeSize, beyond, isNode in *.
        cbn [getNode following preceding] in *.
        destruct (getNode doc parent) as [n|]; [|discriminate].
        destruct (nth_error (children n) i) as [c|] eqn:E; [|discriminate].
        rewrite (firstn_nth_error _ _ _ _ E), sizes_app, sizes_cons, sizes_nil.
        lia.
Qed.

(** [getNextNode] yields a node of the document from which the loop of [seek]
    has strictly fewer rounds left. *)
Lemma getNextNode_decreases :
  forall doc forward visitChildren node next exited,
    isNode doc node = true ->
    getNextNode doc node forward visitChildren [] = (Some next, exited) ->
    isNode doc next = true /\
    (rounds doc forward next < rounds doc forward node)%nat.
Proof.
  intros doc forward visitChildren node next exited Hnode H.
  unfold getNextNode in H.
  assert (Hexit : forall ex,
             exitNodes doc forward node [] = (Some next, ex) ->
             isNode doc next = true /\
             (rounds doc forward next < rounds doc forward node)%nat).
  { intros ex Hex. apply exitNodes_next in Hex as [Hv Hr]; [|assumption].
    split; [assumption|]. rewrite Hr.
    pose proof (subtreeSize_pos _ _ Hnode). unfold rounds. lia. }
  destruct visitChildren; [|eapply Hexit; eassumption].
  destruct forward.
  - unfold firstChild in H. destruct (isNode doc (O :: node)) eqn:Hc.
    + injection H as <- <-. split; [assumption|].
      apply rounds_child. assumption.
    + eapply Hexit; eassumption.
  - unfold lastChild in H.
    destruct (isNode_getNode _ _ Hnode) as [n Hn]. rewrite Hn in H.
    destruct (List.length (children n)) as [|k] eqn:Hlen.
    + eapply Hexit; eassumption.
    + injection H as <- <-.
      assert (Hc : isNode doc (k :: node) = true).
      { unfold isNode. simpl. rewrite Hn.
        destruct (nth_error (children n) k) eqn:E; [reflexivity|].
        apply nth_error_None in E. lia. }
      split; [assumption|]. apply rounds_child. assumption.
Qed.

(* ------------------------------------------------------------------ *)
(** ** The character state machine *)

Lemma checkCharacter_forward :
  forall this char charAttributes,
    _checkCharacterForward this char charAttributes
    = checkCharacter true this char charAttributes.
Proof. reflexivity. Qed.

Lemma checkCharacter_backward :
  forall this char charAttributes,
    _checkCharacterBackward this char charAttributes
    = checkCharacter false this char charAttributes.
Proof. reflexivity. Qed.

Lemma seekTextNodeForwardLoop_eq :
  forall fuel nodeValue pn pw this,
    seekTextNodeForwardLoop fuel nodeValue pn pw this
    = seekTextNodeLoop true fuel nodeValue pn pw this.
Proof.
  induction fuel as [|fuel IH]; intros nodeValue pn pw this; [reflexivity|].
  cbn [seekTextNodeForwardLoop seekTextNodeLoop]. unfold textPending, textRound.
  destruct (_offset this <? List.length nodeValue)%nat; [|reflexivity].
  cbv zeta. rewrite checkCharacter_forward.
  unfold readCharacter, moveOffset.
  destruct (checkCharacter true _ _ _) as [this' [|]]; [reflexivity|].
  apply IH.
Qed.

Lemma seekTextNodeBackwardLoop_eq :
  forall fuel nodeValue pn pw this,
    seekTextNodeBackwardLoop fuel nodeValue pn pw this
    = seekTextNodeLoop false fuel nodeValue pn pw this.
Proof.
  induction fuel as [|fuel IH]; intros nodeValue pn pw this; [reflexivity|].
  cbn [seekTextNodeBackwardLoop seekTextNodeLoop]. unfold textPending, textRound.
  destruct (0 <? _offset this)%nat; [|reflexivity].
  cbv zeta. rewrite checkCharacter_backward.
  unfold readCharacter, moveOffset.
  destruct (checkCharacter false _ _ _) as [this' [|]]; [reflexivity|].
  apply IH.
Qed.

Lemma Emits_refl : forall forward this, Emits forward this this [].
Proof.
  intros forward this. unfold Emits, extend. split; [constructor|].
  destruct forward; simpl; rewrite ?app_nil_r; split; try reflexivity; lia.
Qed.

Lemma Emits_trans :
  forall forward a b c es1 es2,
    Emits forward a b es1 -> Emits forward b c es2 ->
    Emits forward a c (if forward then es1 ++ es2 else es2 ++ es1).
Proof.
  intros forward a b c es1 es2 [F1 [Hc1 Hr1]] [F2 [Hc2 Hr2]]. unfold Emits, extend in *.
  destruct forward.
  - split; [apply Forall_app; split; assumption|].
    rewrite Hc2, Hc1, Hr2, Hr1, concat_app, length_app, app_assoc.
    split; [reflexivity|lia].
  - split; [apply Forall_app; split; assumption|].
    rewrite Hc2, Hc1, Hr2, Hr1, concat_app, length_app, app_assoc.
    split; [reflexivity|lia].
Qed.

Lemma sameSettings_refl : forall this, sameSettings this this.
Proof. intros this. unfold sameSettings. repeat split. Qed.

Lemma sameSettings_trans :
  forall a b c, sameSettings a b -> sameSettings b c -> sameSettings a c.
Proof.
  unfold sameSettings. intros a b c [? [? [? ?]]] [? [? [? ?]]].
  repeat split; congruence.
Qed.

Lemma StepOk_trans :
  forall forward a b c stop,
    StepOk forward a b false -> StepOk forward b c stop -> StepOk forward a c stop.
Proof.
  intros forward a b c stop [[es1 E1] [_ S1]] [[es2 E2] [R2 S2]].
  split; [|split].
  - eexists. eapply Emits_trans; eassumption.
  - assumption.
  - eapply sameSettings_trans; eassumption.
Qed.

Lemma isCharacter_unit : forall x : Z, isCharacter [x].
Proof. intros x. left. reflexivity. Qed.

Lemma concat_repeat_unit :
  forall (x : Z) (k : nat), List.concat (repeat [x] k) = repeat x k.
Proof.
  intros x k. induction k as [|k IH]; simpl; [reflexivity|].
  rewrite IH. reflexivity.
Qed.

Lemma Forall_repeat_unit :
  forall (x : Z) (k : nat), Forall isCharacter (repeat [x] k).
Proof.
  intros x k. induction k as [|k IH]; simpl; constructor;
    [apply isCharacter_unit|assumption].
Qed.

(** [s] emitted as [k] characters. *)
Lemma Emits_emit :
  forall forward this s es,
    Forall isCharacter es -> List.concat es = s ->
    Emits forward this
          (set_remainder (_remainder this - Z.of_nat (List.length es))
                         (emit forward s this)) es.
Proof.
  intros forward this s es F <-. unfold Emits, extend, emit.
  split; [assumption|]. destruct forward; simpl; split; reflexivity.
Qed.

Lemma pendingNewlines_ok :
  forall forward this char this' stop,
    1 <= _remainder this ->
    pendingNewlines forward this char = (this', stop) ->
    StepOk forward this this' stop.
Proof.
  intros forward this char this' stop Hrem H. unfold pendingNewlines in H.
  destruct (0 <? _newlines this) eqn:Hnl.
  2:{ injection H as <- <-. split; [exists []; apply Emits_refl|].
      split; [assumption|apply sameSettings_refl]. }
  apply Z.ltb_lt in Hnl.
  destruct (0 <? Z.of_nat (List.length (_content this))) eqn:Hc.
  - cbv zeta in H.
    set (k := Z.min (_remainder this) (_newlines this)) in *.
    assert (Hk : 1 <= k <= _remainder this) by (unfold k; lia).
    assert (He : Emits forward this
                   (set_remainder (_remainder this - k)
                      (emit forward (repeat newline (Z.to_nat k)) this))
                   (repeat [newline] (Z.to_nat k))).
    { replace k with (Z.of_nat (List.length (repeat [newline] (Z.to_nat k)))) at 1
        by (rewrite repeat_length; lia).
      apply Emits_emit; [apply Forall_repeat_unit|apply concat_repeat_unit]. }
    destruct He as [F [C R]]. simpl in C, R.
    simpl in H.
    destruct (_remainder this - k <=? 0) eqn:Hz; injection H as <- <-.
    + apply Z.leb_le in Hz. split; [|split].
      * eexists. split; [exact F|]. split; simpl; [exact C|exact R].
      * simpl. lia.
      * unfold sameSettings. simpl. repeat split.
    + apply Z.leb_gt in Hz. split; [|split].
      * eexists. split; [exact F|]. split; simpl; [exact C|exact R].
      * simpl. lia.
      * unfold sameSettings. simpl. repeat split.
  - simpl in H.
    destruct (_remainder this <=? 0) eqn:Hz;
      [apply Z.leb_le in Hz; lia|].
    injection H as <- <-. split; [|split].
    + exists []. destruct (Emits_refl forward this) as [F [C R]].
      split; [exact F|]. split; simpl; [exact C|exact R].
    + simpl. assumption.
    + unfold sameSettings. simpl. repeat split.
Qed.

Lemma pendingWhitespace_ok :
  forall forward this char this' stop,
    1 <= _remainder this ->
    pendingWhitespace forward this char = (this', stop) ->
    StepOk forward this this' stop.
Proof.
  intros forward this char this' stop Hrem H. unfold pendingWhitespace in H.
  destruct (_lineHasWhitespace this);
    [destruct (_lineHasContent this)|].
  - pose proof (Emits_emit forward this [space] [[space]]
                  (Forall_cons _ (isCharacter_unit space) (Forall_nil _))
                  eq_refl) as [F [C R]].
    simpl in C, R, H.
    destruct (_remainder this - 1 <=? 0) eqn:Hz; injection H as <- <-.
    + apply Z.leb_le in Hz. split; [|split].
      * eexists. split; [exact F|]. split; simpl; [exact C|exact R].
      * simpl. lia.
      * unfold sameSettings. simpl. repeat split.
    + apply Z.leb_gt in Hz. split; [|split].
      * eexists. split; [exact F|]. split; simpl; [exact C|exact R].
      * simpl. lia.
      * unfold sameSettings. simpl. repeat split.
  - injection H as <- <-. split; [|split].
    + exists []. destruct (Emits_refl forward this) as [F [C R]].
      split; [exact F|]. split; simpl; [exact C|exact R].
    + simpl. assumption.
    + unfold sameSettings. simpl. repeat split.
  - injection H as <- <-. split; [exists []; apply Emits_refl|].
    split; [assumption|apply sameSettings_refl].
Qed.

Lemma emitCharacter_ok :
  forall forward this char this' stop,
    1 <= _remainder this -> isCharacter char ->
    emitCharacter forward this char = (this', stop) ->
    StepOk forward this this' stop.
Proof.
  intros forward this char this' stop Hrem Hchar H. unfold emitCharacter in H.
  pose proof (Emits_emit forward this char [char]
                (Forall_cons _ Hchar (Forall_nil _)) (app_nil_r char))
    as [F [C R]].
  simpl in C, R, H. injection H as <- <-.
  split; [|split].
  - eexists. split; [exact F|]. split; simpl; [exact C|exact R].
  - simpl. destruct (_remainder this - 1 <=? 0) eqn:Hz;
      [apply Z.leb_le in Hz|apply Z.leb_gt in Hz]; lia.
  - unfold sameSettings. simpl. repeat split.
Qed.

Lemma checkCharacter_ok :
  forall forward this char charAttributes this' stop,
    1 <= _remainder this -> isCharacter char ->
    checkCharacter forward this char charAttributes = (this', stop) ->
    StepOk forward this this' stop.
Proof.
  intros forward this char a this' stop Hrem Hchar H. unfold checkCharacter in H.
  destruct (a =? 1).
  { injection H as <- <-. split; [|split].
    - exists []. destruct (Emits_refl forward this) as [F [C R]].
      split; [exact F|]. split; simpl; [exact C|exact R].
    - simpl. assumption.
    - unfold sameSettings. simpl. repeat split. }
  destruct ((a =? 2) || (a =? 3)).
  2:{ injection H as <- <-. split; [exists []; apply Emits_refl|].
      split; [assumption|apply sameSettings_refl]. }
  destruct (pendingNewlines forward this char) as [c1 s1] eqn:H1.
  apply pendingNewlines_ok in H1; [|assumption].
  destruct s1; [injection H as <- <-; assumption|].
  set (c1' := set_lineHasContent (a =? 2) c1) in *.
  assert (H1' : StepOk forward this c1' false).
  { destruct H1 as [[es [F [C R]]] [R1 S1]]. split; [|split].
    - exists es. split; [exact F|]. split; simpl; [exact C|exact R].
    - simpl. assumption.
    - unfold sameSettings in *. simpl. exact S1. }
  destruct (pendingWhitespace forward c1' char) as [c2 s2] eqn:H2.
  apply pendingWhitespace_ok in H2; [|destruct H1' as [_ [R1 _]]; exact R1].
  destruct s2.
  { injection H as <- <-. eapply StepOk_trans; eassumption. }
  apply emitCharacter_ok in H;
    [|destruct H2 as [_ [R2 _]]; exact R2|assumption].
  eapply StepOk_trans; [|eassumption].
  eapply StepOk_trans; eassumption.
Qed.

(** A check leaves the offset where the round put it, unless it stops on a
    character it did not emit and puts the offset back. *)
Lemma checkCharacter_offset :
  forall forward this char charAttributes this' stop,
    checkCharacter forward this char charAttributes = (this', stop) ->
    _offset this' = _offset this \/
    (stop = true /\ _offset this' = _offset (revertOffset forward char this)).
Proof.
  intros forward this char a this' stop H.
  unfold checkCharacter, pendingNewlines, pendingWhitespace, emitCharacter in H.
  repeat match type of H with
         | context [if ?b then _ else _] => destruct b
         | (let (_, _) := ?p in _) = _ => simpl in H
         end;
    simpl in H; injection H as <- <-; simpl; auto.
Qed.

Lemma checkCharacter_offset_continue :
  forall forward this char charAttributes this',
    checkCharacter forward this char charAttributes = (this', false) ->
    _offset this' = _offset this.
Proof.
  intros forward this char a this' H.
  apply checkCharacter_offset in H as [H|[H _]]; [assumption|discriminate].
Qed.

(** Reading one code point. *)
Lemma readCodePointsForward_one :
  forall (text : jsstring) (position : nat),
    StringUtil.readCodePointsForward text position 1
    = match nth_error text position with
      | None => []
      | Some char =>
        match nth_error text (S position) with
        | Some char2 =>
          if isHighSurrogate char && isLowSurrogate char2
          then [char; char2] else [char]
        | None => [char]
        end
      end.
Proof. reflexivity. Qed.

Lemma readCodePointsBackward_one :
  forall (text : jsstring) (position : nat),
    StringUtil.readCodePointsBackward text position 1
    = match nth_error text position with
      | None => []
      | Some char =>
        match position with
        | O => [char]
        | S position' =>
          match nth_error text position' with
          | Some char2 =>
            if isLowSurrogate char && isHighSurrogate char2
            then [char2; char] else [char]
          | None => [char]
          end
        end
      end.
Proof.
  intros text position. cbn [StringUtil.readCodePointsBackward].
  destruct (nth_error text position); [|reflexivity].
  destruct position as [|p]; [reflexivity|].
  destruct (nth_error text p); [|reflexivity].
  destruct (isLowSurrogate z && isHighSurrogate z0); [|reflexivity].
  destruct p; reflexivity.
Qed.

Lemma readForward_character :
  forall (text : jsstring) (position : nat),
    (position < List.length text)%nat ->
    let char := StringUtil.readCodePointsForward text position 1 in
    isCharacter char /\
    (1 <= List.length char)%nat /\
    (position + List.length char <= List.length text)%nat.
Proof.
  intros text position Hlt. rewrite readCodePointsForward_one.
  destruct (nth_error text position) as [c|] eqn:E;
    [|apply nth_error_None in E; lia].
  destruct (nth_error text (S position)) as [c2|] eqn:E2.
  - assert (S position < List.length text)%nat
      by (apply nth_error_Some; congruence).
    destruct (isHighSurrogate c && isLowSurrogate c2) eqn:Hs; simpl.
    + apply andb_true_iff in Hs as [Hh Hl].
      split; [right; exists c, c2; auto|lia].
    + split; [left; reflexivity|lia].
  - simpl. split; [left; reflexivity|lia].
Qed.

Lemma readBackward_character :
  forall (text : jsstring) (offset : nat),
    (0 < offset <= List.length text)%nat ->
    let char := StringUtil.readCodePointsBackward text (offset - 1) 1 in
    isCharacter char /\
    (1 <= List.length char <= offset)%nat.
Proof.
  intros text offset Hoff.
  assert (Hp : exists p, (offset - 1)%nat = p /\ offset = S p)
    by (exists (offset - 1)%nat; lia).
  destruct Hp as [p [-> ->]].
  rewrite readCodePointsBackward_one.
  destruct (nth_error text p) as [c|] eqn:E;
    [|apply nth_error_None in E; lia].
  destruct p as [|p].
  - simpl. split; [left; reflexivity|lia].
  - destruct (nth_error text p) as [c2|] eqn:E2.
    + destruct (isLowSurrogate c && isHighSurrogate c2) eqn:Hs.
      * apply andb_true_iff in Hs as [Hl Hh].
        split; [right; exists c2, c; auto|simpl; lia].
      * simpl. split; [left; reflexivity|lia].
    + simpl. split; [left; reflexivity|lia].
Qed.

(** One round of a text loop: characters are emitted, the offset stays in
    the text, and a round that does not stop has less left to read. *)
Lemma textRound_ok :
  forall forward nodeValue pn pw this this' stop,
    textPending forward nodeValue this = true ->
    (_offset this <= List.length nodeValue)%nat ->
    1 <= _remainder this ->
    textRound forward nodeValue pn pw this = (this', stop) ->
    StepOk forward this this' stop /\
    (_offset this' <= List.length nodeValue)%nat /\
    (stop = false ->
     (textLeft forward nodeValue this' < textLeft forward nodeValue this)%nat).
Proof.
  intros forward nodeValue pn pw this this' stop Hpend Hoff Hrem H.
  unfold textRound in H.
  set (char := readCharacter forward nodeValue (_offset this)) in *.
  assert (Hchar : isCharacter char /\ (1 <= List.length char)%nat /\
                  (if forward
                   then (_offset this + List.length char <= List.length nodeValue)%nat
                   else (List.length char <= _offset this)%nat)).
  { unfold char, readCharacter, textPending in *. destruct forward.
    - apply Nat.ltb_lt in Hpend.
      apply (readForward_character nodeValue (_offset this) Hpend).
    - apply Nat.ltb_lt in Hpend.
      destruct (readBackward_character nodeValue (_offset this)) as [? ?];
        [lia|]. split; [assumption|lia]. }
  destruct Hchar as [Hc [Hlen Hfit]].
  pose proof (checkCharacter_offset _ _ _ _ _ _ H) as Hoffset.
  pose proof (checkCharacter_ok forward (moveOffset forward char this) char _
                _ _ Hrem Hc H) as Hok.
  split; [|split].
  - destruct Hok as [[es [F [C R]]] [R1 S1]]. split; [|split].
    + exists es. split; [exact F|]. split; [exact C|exact R].
    + assumption.
    + exact S1.
  - unfold revertOffset, moveOffset in Hoffset. simpl in Hoffset.
    destruct forward; destruct Hoffset as [->|[_ ->]]; lia.
  - intros ->. unfold textLeft.
    rewrite (checkCharacter_offset_continue _ _ _ _ _ H).
    unfold moveOffset. simpl. destruct forward; lia.
Qed.

(* ------------------------------------------------------------------ *)
(** ** Text nodes *)

(** A text loop with fuel for what is left to read comes to its end: it has
    emitted characters, and when it leaves a remainder the text is read up. *)
Lemma seekTextNodeLoop_ok :
  forall forward nodeValue pn pw fuel this,
    (textLeft forward nodeValue this <= fuel)%nat ->
    (_offset this <= List.length nodeValue)%nat ->
    1 <= _remainder this ->
    exists this',
      seekTextNodeLoop forward fuel nodeValue pn pw this = Some this' /\
      (exists es, Emits forward this this' es) /\
      0 <= _remainder this' /\
      sameSettings this this' /\
      (_offset this' <= List.length nodeValue)%nat /\
      (1 <= _remainder this' -> textPending forward nodeValue this' = false).
Proof.
  intros forward nodeValue pn pw fuel.
  induction fuel as [|fuel IH]; intros this Hfuel Hoff Hrem.
  - exists this. cbn [seekTextNodeLoop].
    assert (Hp : textPending forward nodeValue this = false).
    { unfold textPending, textLeft in *. destruct forward.
      - apply Nat.ltb_ge. lia.
      - apply Nat.ltb_ge. lia. }
    rewrite Hp. split; [reflexivity|]. split; [exists []; apply Emits_refl|].
    split; [lia|]. split; [apply sameSettings_refl|]. split; auto.
  - cbn [seekTextNodeLoop].
    destruct (textPending forward nodeValue this) eqn:Hp.
    2:{ exists this. split; [reflexivity|].
        split; [exists []; apply Emits_refl|].
        split; [lia|]. split; [apply sameSettings_refl|]. split; auto. }
    destruct (textRound forward nodeValue pn pw this) as [this1 stop] eqn:Hr.
    destruct (textRound_ok _ _ _ _ _ _ _ Hp Hoff Hrem Hr)
      as [[[es1 E1] [R1 S1]] [Hoff1 Hleft]].
    destruct stop.
    + exists this1. split; [reflexivity|]. split; [eauto|].
      split; [lia|]. split; [assumption|]. split; [assumption|]. lia.
    + specialize (Hleft eq_refl).
      destruct (IH this1) as [this' [Hl [[es2 E2] [R2 [S2 [Hoff2 Hex]]]]]];
        [lia|assumption|assumption|].
      exists this'. split; [assumption|].
      split; [eexists; eapply Emits_trans; eassumption|].
      split; [assumption|].
      split; [eapply sameSettings_trans; eassumption|]. split; assumption.
Qed.

(** The two text methods, by direction. *)
Lemma seekTextNode_eq :
  forall forward doc this textNode resetOffset,
    seekTextNode forward doc this textNode resetOffset
    = let nodeValue := nodeValueOf doc textNode in
      let (pn, pw) := _getWhitespaceSettings doc this textNode in
      let this0 :=
        if resetOffset
        then set_offset (if forward then O else List.length nodeValue) this
        else this in
      match seekTextNodeLoop forward
              (if forward then List.length nodeValue else _offset this0)
              nodeValue pn pw this0 with
      | Some this' => Some (this', 0 <? _remainder this')
      | None => None
      end.
Proof.
  intros forward doc this textNode resetOffset.
  unfold seekTextNode, _seekTextNodeForward, _seekTextNodeBackward. cbv zeta.
  destruct (_getWhitespaceSettings doc this textNode) as [pn pw].
  destruct forward.
  - rewrite seekTextNodeForwardLoop_eq. reflexivity.
  - rewrite seekTextNodeBackwardLoop_eq. reflexivity.
Qed.

Lemma seekTextNode_ok :
  forall forward doc this textNode resetOffset,
    (resetOffset = false ->
     (_offset this <= List.length (nodeValueOf doc textNode))%nat) ->
    1 <= _remainder this ->
    exists this',
      seekTextNode forward doc this textNode resetOffset
      = Some (this', 0 <? _remainder this') /\
      (exists es, Emits forward this this' es) /\
      0 <= _remainder this' /\
      sameSettings this this' /\
      (_offset this' <= List.length (nodeValueOf doc textNode))%nat /\
      (1 <= _remainder this' ->
       textPending forward (nodeValueOf doc textNode) this' = false).
Proof.
  intros forward doc this textNode resetOffset Hoff Hrem.
  rewrite seekTextNode_eq. cbv zeta.
  destruct (_getWhitespaceSettings doc this textNode) as [pn pw].
  set (nodeValue := nodeValueOf doc textNode) in *.
  set (this0 := if resetOffset
                then set_offset (if forward then O else List.length nodeValue) this
                else this).
  assert (H0 : (_offset this0 <= List.length nodeValue)%nat /\
               _remainder this0 = _remainder this /\
               _content this0 = _content this /\
               sameSettings this this0).
  { unfold this0. destruct resetOffset.
    - simpl. split; [destruct forward; lia|].
      unfold sameSettings. simpl. repeat split.
    - split; [auto|]. split; [reflexivity|]. split; [reflexivity|].
      apply sameSettings_refl. }
  destruct H0 as [Hoff0 [Hrem0 [Hc0 Hs0]]].
  destruct (seekTextNodeLoop_ok forward nodeValue pn pw
              (if forward then List.length nodeValue else _offset this0) this0)
    as [this' [Hl [[es [F [C R]]] [R' [S' [Hoff' Hex]]]]]].
  - unfold textLeft. destruct forward; lia.
  - assumption.
  - lia.
  - exists this'. rewrite Hl. split; [reflexivity|].
    split; [exists es; split; [exact F|]; rewrite <- Hc0, <- Hrem0; auto|].
    split; [assumption|].
    split; [eapply sameSettings_trans; eassumption|]. split; assumption.
Qed.

(* ------------------------------------------------------------------ *)
(** ** Rounds of the seek loop *)

Lemma Quiet_refl : forall this, Quiet this this.
Proof.
  intros this. split; [reflexivity|]. split; [reflexivity|apply sameSettings_refl].
Qed.

Lemma Quiet_trans : forall a b c, Quiet a b -> Quiet b c -> Quiet a c.
Proof.
  intros a b c [Hc1 [Hr1 Hs1]] [Hc2 [Hr2 Hs2]].
  split; [congruence|]. split; [congruence|eapply sameSettings_trans; eassumption].
Qed.

Lemma Quiet_Emits : forall forward a b, Quiet a b -> Emits forward a b [].
Proof.
  intros forward a b [C [R _]].
  destruct (Emits_refl forward a) as [F [C' R']].
  split; [exact F|]. split; [rewrite C; exact C'|rewrite R; exact R'].
Qed.

Lemma raiseNewlines_quiet :
  forall newlines this,
    Quiet this (raiseNewlines newlines this) /\
    _offset (raiseNewlines newlines this) = _offset this.
Proof.
  intros newlines this. unfold raiseNewlines.
  destruct ((newlines >? _newlines this) && _generateLayoutContent this).
  - unfold Quiet, sameSettings. simpl. repeat split.
  - split; [apply Quiet_refl|reflexivity].
Qed.

Lemma exitedNodesLoop_quiet :
  forall doc exitedNodes this,
    Quiet this (exitedNodesLoop doc exitedNodes this) /\
    _offset (exitedNodesLoop doc exitedNodes this) = _offset this.
Proof.
  intros doc exitedNodes.
  induction exitedNodes as [|e rest IH]; intros this; cbn [exitedNodesLoop].
  - split; [apply Quiet_refl|reflexivity].
  - destruct (nodeType doc e); try apply IH.
    destruct (elementSeekInfo doc e) as [en nl].
    destruct (raiseNewlines_quiet nl this) as [Q1 O1].
    destruct (IH (raiseNewlines nl this)) as [Q2 O2].
    split; [eapply Quiet_trans; eassumption|congruence].
Qed.

(** What [advance] leaves: no character is emitted, and the next node is the
    one [getNextNode] gives. *)
Lemma advance_ok :
  forall doc forward this node lastNode enterable,
    exists next exited,
      getNextNode doc node forward enterable [] = (next, exited) /\
      advance doc forward this node lastNode enterable
      = Next (exitedNodesLoop doc exited this) next lastNode.
Proof.
  intros doc forward this node lastNode enterable. unfold advance.
  destruct (getNextNode doc node forward enterable []) as [next exited].
  exists next, exited. split; reflexivity.
Qed.

(** The node a round moves to comes from [getNextNode], which is let into
    the children of an element only when the element is enterable. *)
Lemma seekRound_next :
  forall doc forward this node lastNode resetOffset this' next lastNode',
    seekRound doc forward this node lastNode resetOffset
    = Some (Next this' next lastNode') ->
    (exists visitChildren exited,
        getNextNode doc node forward visitChildren [] = (next, exited) /\
        (visitChildren = true ->
         nodeType doc node = ELEMENT_NODE /\
         fst (elementSeekInfo doc node) = true)) /\
    lastNode' = match nodeType doc node with
                | OTHER_NODE => lastNode
                | _ => node
                end.
Proof.
  intros doc forward this node lastNode resetOffset this' next lastNode' H.
  unfold seekRound in H. destruct (nodeType doc node) eqn:Ht.
  - destruct (if forward then _ else _) as [[t [|]]|]; try discriminate.
    destruct (advance_ok doc forward t node node false) as [nx [ex [Hg Ha]]].
    rewrite Ha in H. injection H as <- <- <-.
    split; [|reflexivity]. exists false, ex. split; [assumption|discriminate].
  - destruct (elementSeekInfo doc node) as [en nl] eqn:Hinfo.
    destruct (advance_ok doc forward (raiseNewlines nl (set_offset O this))
                         node node en) as [nx [ex [Hg Ha]]].
    rewrite Ha in H. injection H as <- <- <-.
    split; [|reflexivity]. exists en, ex. split; [assumption|].
    intros ->. split; reflexivity.
  - destruct (advance_ok doc forward this node lastNode false)
      as [nx [ex [Hg Ha]]].
    rewrite Ha in H. injection H as <- <- <-.
    split; [|reflexivity]. exists false, ex. split; [assumption|discriminate].
Qed.

(** A round entered with a remainder gives a result: either the remainder
    was used up inside a text node ([Break]), or some is left and the loop
    moves on ([Next]). *)
Lemma seekRound_ok :
  forall doc forward this node lastNode resetOffset,
    1 <= _remainder this ->
    (nodeType doc node = TEXT_NODE -> resetOffset = false ->
     (_offset this <= List.length (nodeValueOf doc node))%nat) ->
    exists r,
      seekRound doc forward this node lastNode resetOffset = Some r /\
      match r with
      | Break this' lastNode' =>
        lastNode' = node /\ nodeType doc node = TEXT_NODE /\
        _remainder this' = 0 /\
        (exists es, Emits forward this this' es) /\
        sameSettings this this'
      | Next this' next lastNode' =>
        1 <= _remainder this' /\
        (exists es, Emits forward this this' es) /\
        sameSettings this this'
      end.
Proof.
  intros doc forward this node lastNode resetOffset Hrem Hoff.
  unfold seekRound. destruct (nodeType doc node) eqn:Ht.
  - fold (seekTextNode forward doc this node resetOffset).
    destruct (seekTextNode_ok forward doc this node resetOffset (Hoff eq_refl) Hrem)
      as [t [Hs [[es E] [R [S [Ho Hex]]]]]].
    rewrite Hs. destruct (0 <? _remainder t) eqn:Hz.
    + apply Z.ltb_lt in Hz.
      destruct (advance_ok doc forward t node node false) as [nx [ex [Hg Ha]]].
      rewrite Ha. eexists. split; [reflexivity|].
      destruct (exitedNodesLoop_quiet doc ex t) as [[Qc [Qr Qs]] _].
      split; [lia|]. split.
      * exists es. destruct E as [F [C R']].
        split; [exact F|]. split; congruence.
      * eapply sameSettings_trans; eassumption.
    + apply Z.ltb_ge in Hz. eexists. split; [reflexivity|].
      split; [reflexivity|]. split; [reflexivity|]. split; [lia|].
      split; [eauto|assumption].
  - destruct (elementSeekInfo doc node) as [en nl].
    destruct (advance_ok doc forward (raiseNewlines nl (set_offset O this))
                         node node en) as [nx [ex [Hg Ha]]].
    rewrite Ha. eexists. split; [reflexivity|].
    destruct (raiseNewlines_quiet nl (set_offset O this)) as [Q1 _].
    destruct (exitedNodesLoop_quiet doc ex (raiseNewlines nl (set_offset O this)))
      as [Q2 _].
    pose proof (Quiet_trans _ _ _ Q1 Q2) as [Qc [Qr Qs]].
    simpl in Qc, Qr. split; [lia|]. split.
    + exists []. apply Quiet_Emits. split; [exact Qc|]. split; [exact Qr|].
      exact Qs.
    + exact Qs.
  - destruct (advance_ok doc forward this node lastNode false)
      as [nx [ex [Hg Ha]]].
    rewrite Ha. eexists. split; [reflexivity|].
    destruct (exitedNodesLoop_quiet doc ex this) as [[Qc [Qr Qs]] _].
    split; [lia|]. split.
    + exists []. apply Quiet_Emits. split; [exact Qc|]. split; [exact Qr|].
      exact Qs.
    + exact Qs.
Qed.

(* ------------------------------------------------------------------ *)
(** ** The seek loop *)

Lemma rounds_pos :
  forall doc forward node, isNode doc node = true -> (1 <= rounds doc forward node)%nat.
Proof.
  intros doc forward node H. pose proof (subtreeSize_pos _ _ H).
  unfold rounds. lia.
Qed.

Lemma lastRealNode_cons :
  forall doc lastNode node nodes,
    lastRealNode doc lastNode (node :: nodes)
    = lastRealNode doc (match nodeType doc node with
                        | OTHER_NODE => lastNode
                        | _ => node
                        end) nodes.
Proof. reflexivity. Qed.

(** The loop of [seek], given a round for every node that can still come,
    ends with a result: the remainder is not negative, what was taken from it
    was emitted, the node is the last text or element node the loop handled,
    and a remainder is left only when the document is used up. *)
Lemma seekLoop_ok :
  forall doc forward fuel this node lastNode resetOffset,
    isNode doc node = true ->
    (rounds doc forward node <= fuel)%nat ->
    1 <= _remainder this ->
    (nodeType doc node = TEXT_NODE -> resetOffset = false ->
     (_offset this <= List.length (nodeValueOf doc node))%nat) ->
    exists r,
      seekLoop fuel doc forward this node lastNode resetOffset = Some r /\
      0 <= _remainder r /\
      (exists es, Emits forward this r es) /\
      _forcePreserveWhitespace r = _forcePreserveWhitespace this /\
      _generateLayoutContent r = _generateLayoutContent this /\
      _node r = lastRealNode doc lastNode
                  (seekVisited fuel doc forward this node lastNode resetOffset) /\
      (1 <= _remainder r ->
       exists front lv,
         seekVisited fuel doc forward this node lastNode resetOffset
         = front ++ [lv] /\
         exhaustedAt doc forward lv).
Proof.
  intros doc forward fuel.
  induction fuel as [|fuel IH];
    intros this node lastNode resetOffset Hnode Hfuel Hrem Hoff.
  { pose proof (rounds_pos doc forward node Hnode). lia. }
  cbn [seekLoop seekVisited].
  destruct (seekRound_ok doc forward this node lastNode resetOffset Hrem Hoff)
    as [r [Hr Hok]].
  rewrite Hr. destruct r as [this' lastNode'|this' next lastNode'].
  - destruct Hok as [-> [Ht [R0 [[es E] [_ [_ [Sf Sg]]]]]]].
    eexists. split; [reflexivity|]. simpl.
    split; [lia|]. split.
    { exists es. destruct E as [F [C R]]. split; [exact F|]. split; assumption. }
    split; [assumption|]. split; [assumption|].
    split; [unfold lastRealNode; simpl; rewrite Ht; reflexivity|].
    intros. lia.
  - destruct Hok as [R1 [[es E] [_ [_ [Sf Sg]]]]].
    destruct (seekRound_next _ _ _ _ _ _ _ _ _ Hr) as [[vc [ex [Hg Hvc]]] Hlast].
    destruct next as [node'|].
    + destruct (getNextNode_decreases _ _ _ _ _ _ Hnode Hg) as [Hnode' Hdec].
      destruct (IH this' node' lastNode' true Hnode') as
          [r [Hl [R' [[es' E'] [Sf' [Sg' [Hn' Hex']]]]]]];
        [lia|assumption|discriminate|].
      exists r. split; [assumption|]. split; [assumption|].
      split; [eexists; eapply Emits_trans; eassumption|].
      split; [congruence|]. split; [congruence|].
      split.
      * rewrite lastRealNode_cons, <- Hlast. assumption.
      * intros Hr1. destruct (Hex' Hr1) as [front [lv [Hv Hx]]].
        exists (node :: front), lv. rewrite Hv. split; [reflexivity|assumption].
    + eexists. split; [reflexivity|]. simpl.
      split; [lia|]. split.
      { exists es. destruct E as [F [C R]]. split; [exact F|]. split; assumption. }
      split; [assumption|]. split; [assumption|].
      split; [unfold lastRealNode; simpl; rewrite <- Hlast; reflexivity|].
      intros _. exists [], node. split; [reflexivity|].
      exists vc, ex. assumption.
Qed.

(** The nodes the loop handles are nodes of the document, each with fewer
    rounds left than the one before: no node is handled twice. *)
Lemma seekVisited_ok :
  forall doc forward fuel this node lastNode resetOffset,
    isNode doc node = true ->
    Forall (fun v => isNode doc v = true /\
                     (rounds doc forward v <= rounds doc forward node)%nat)
           (seekVisited fuel doc forward this node lastNode resetOffset) /\
    NoDup (seekVisited fuel doc forward this node lastNode resetOffset).
Proof.
  intros doc forward fuel.
  induction fuel as [|fuel IH]; intros this node lastNode resetOffset Hnode;
    cbn [seekVisited].
  { split; constructor. }
  assert (Hbase : Forall (fun v => isNode doc v = true /\
                     (rounds doc forward v <= rounds doc forward node)%nat)
                         [node] /\ NoDup [node]).
  { split; [constructor; [split; [assumption|lia]|constructor]|].
    constructor; [intros []|constructor]. }
  destruct (seekRound doc forward this node lastNode resetOffset)
    as [[this' lastNode'|this' [node'|] lastNode']|] eqn:Hr;
    try exact Hbase.
  destruct (seekRound_next _ _ _ _ _ _ _ _ _ Hr) as [[vc [ex [Hg _]]] _].
  destruct (getNextNode_decreases _ _ _ _ _ _ Hnode Hg) as [Hnode' Hdec].
  destruct (IH this' node' lastNode' true Hnode') as [Hall Hnd].
  split.
  - constructor; [split; [assumption|lia]|].
    eapply Forall_impl; [|exact Hall]. intros v [? ?]. split; [assumption|lia].
  - constructor; [|assumption].
    intros Hin. rewrite Forall_forall in Hall.
    destruct (Hall _ Hin) as [_ Hle]. lia.
Qed.

(* ------------------------------------------------------------------ *)
(** ** Seeking further than the document goes *)

(** A check stops only when the remainder is used up. *)
Lemma checkCharacter_stop :
  forall forward this char charAttributes this',
    checkCharacter forward this char charAttributes = (this', true) ->
    _remainder this' <= 0.
Proof.
  intros forward this char a this' H.
  unfold checkCharacter, pendingNewlines, pendingWhitespace, emitCharacter in H.
  repeat match type of H with
         | context [if ?b then _ else _] => destruct b eqn:?
         | (let (_, _) := ?p in _) = _ => simpl in H
         end;
    simpl in H; try discriminate;
    injection H as <-; simpl in *;
    repeat match goal with
           | E : (_ <=? _) = true |- _ => apply Z.leb_le in E
           end; try lia.
Qed.

(** Two scanners written field by field are equal when their fields are. *)
Ltac scanner_eq :=
  unfold shift, emit, revertOffset, set_node, set_offset, set_content,
    set_remainder, set_resetOffset, set_newlines, set_lineHasWhitespace,
    set_lineHasContent;
  simpl;
  match goal with
  | |- (_, _) = (_, _) => apply f_equal2; [|reflexivity]
  | _ => idtac
  end;
  f_equal; try reflexivity; try lia.

Lemma pendingNewlines_shift :
  forall forward this char this' extra,
    pendingNewlines forward this char = (this', false) ->
    1 <= _remainder this -> 0 <= extra ->
    pendingNewlines forward (shift extra this) char = (shift extra this', false).
Proof.
  intros forward this char this' k H Hrem Hk.
  unfold pendingNewlines in *. simpl.
  destruct (0 <? _newlines this) eqn:Hnl;
    [|injection H as <-; reflexivity].
  apply Z.ltb_lt in Hnl.
  destruct (0 <? Z.of_nat (List.length (_content this))) eqn:Hc.
  - simpl in *.
    destruct (_remainder this - Z.min (_remainder this) (_newlines this) <=? 0)
      eqn:Hz; [discriminate|].
    apply Z.leb_gt in Hz. injection H as <-.
    assert (Hmin : Z.min (_remainder this + k) (_newlines this)
                   = Z.min (_remainder this) (_newlines this)) by lia.
    rewrite Hmin.
    assert (Hz' : (_remainder this + k
                   - Z.min (_remainder this) (_newlines this) <=? 0) = false)
      by (apply Z.leb_gt; lia).
    rewrite Hz'. scanner_eq.
  - simpl in *.
    destruct (_remainder this <=? 0) eqn:Hz; [discriminate|].
    apply Z.leb_gt in Hz. injection H as <-.
    assert (Hz' : (_remainder this + k <=? 0) = false) by (apply Z.leb_gt; lia).
    rewrite Hz'. reflexivity.
Qed.

Lemma pendingWhitespace_shift :
  forall forward this char this' extra,
    pendingWhitespace forward this char = (this', false) ->
    1 <= _remainder this -> 0 <= extra ->
    pendingWhitespace forward (shift extra this) char = (shift extra this', false).
Proof.
  intros forward this char this' k H Hrem Hk.
  unfold pendingWhitespace in *. simpl.
  destruct (_lineHasWhitespace this);
    [destruct (_lineHasContent this)|];
    try (injection H as <-; reflexivity).
  simpl in *.
  destruct (_remainder this - 1 <=? 0) eqn:Hz; [discriminate|].
  apply Z.leb_gt in Hz. injection H as <-.
  assert (Hz' : (_remainder this + k - 1 <=? 0) = false) by (apply Z.leb_gt; lia).
  rewrite Hz'. scanner_eq.
Qed.

Lemma emitCharacter_shift :
  forall forward this char this' extra,
    emitCharacter forward this char = (this', false) ->
    1 <= _remainder this -> 0 <= extra ->
    emitCharacter forward (shift extra this) char = (shift extra this', false).
Proof.
  intros forward this char this' k H Hrem Hk.
  unfold emitCharacter in *. simpl in *.
  destruct (_remainder this - 1 <=? 0) eqn:Hz; [discriminate|].
  apply Z.leb_gt in Hz. injection H as <-.
  assert (Hz' : (_remainder this + k - 1 <=? 0) = false) by (apply Z.leb_gt; lia).
  rewrite Hz'. scanner_eq.
Qed.

Lemma pendingNewlines_continue :
  forall forward this char this',
    pendingNewlines forward this char = (this', false) ->
    1 <= _remainder this -> 1 <= _remainder this'.
Proof.
  intros forward this char this' H Hrem. unfold pendingNewlines in H.
  repeat match type of H with
         | context [if ?b then _ else _] => destruct b eqn:?
         end;
    simpl in *; try discriminate; injection H as <-; simpl in *;
    repeat match goal with
           | E : (_ <=? _) = false |- _ => apply Z.leb_gt in E
           end; simpl in *; lia.
Qed.

Lemma pendingWhitespace_continue :
  forall forward this char this',
    pendingWhitespace forward this char = (this', false) ->
    1 <= _remainder this -> 1 <= _remainder this'.
Proof.
  intros forward this char this' H Hrem. unfold pendingWhitespace in H.
  repeat match type of H with
         | context [if ?b then _ else _] => destruct b eqn:?
         end;
    simpl in *; try discriminate; injection H as <-; simpl in *;
    repeat match goal with
           | E : (_ <=? _) = false |- _ => apply Z.leb_gt in E
           end; simpl in *; lia.
Qed.

(** A check that does not stop goes the same way with more to go. *)
Lemma checkCharacter_shift :
  forall forward this char charAttributes this' extra,
    checkCharacter forward this char charAttributes = (this', false) ->
    1 <= _remainder this -> 0 <= extra ->
    checkCharacter forward (shift extra this) char charAttributes
    = (shift extra this', false).
Proof.
  intros forward this char a this' k H Hrem Hk. unfold checkCharacter in *.
  destruct (a =? 1); [injection H as <-; reflexivity|].
  destruct ((a =? 2) || (a =? 3)); [|injection H as <-; reflexivity].
  destruct (pendingNewlines forward this char) as [c1 s1] eqn:H1.
  destruct s1; [discriminate|].
  rewrite (pendingNewlines_shift _ _ _ _ k H1 Hrem Hk).
  pose proof (pendingNewlines_continue _ _ _ _ H1 Hrem) as Hrem1.
  change (set_lineHasContent (a =? 2) (shift k c1))
    with (shift k (set_lineHasContent (a =? 2) c1)).
  set (c1' := set_lineHasContent (a =? 2) c1) in *.
  assert (Hrem1' : 1 <= _remainder c1') by exact Hrem1.
  destruct (pendingWhitespace forward c1' char) as [c2 s2] eqn:H2.
  destruct s2; [discriminate|].
  rewrite (pendingWhitespace_shift _ _ _ _ k H2 Hrem1' Hk).
  pose proof (pendingWhitespace_continue _ _ _ _ H2 Hrem1') as Hrem2.
  apply emitCharacter_shift; assumption.
Qed.

Lemma checkCharacter_continue :
  forall forward this char charAttributes this',
    checkCharacter forward this char charAttributes = (this', false) ->
    1 <= _remainder this -> 1 <= _remainder this'.
Proof.
  intros forward this char a this' H Hrem. unfold checkCharacter in H.
  destruct (a =? 1); [injection H as <-; exact Hrem|].
  destruct ((a =? 2) || (a =? 3)); [|injection H as <-; exact Hrem].
  destruct (pendingNewlines forward this char) as [c1 s1] eqn:H1.
  destruct s1; [discriminate|].
  pose proof (pendingNewlines_continue _ _ _ _ H1 Hrem) as Hrem1.
  set (c1' := set_lineHasContent (a =? 2) c1) in *.
  assert (Hrem1' : 1 <= _remainder c1') by exact Hrem1.
  destruct (pendingWhitespace forward c1' char) as [c2 s2] eqn:H2.
  destruct s2; [discriminate|].
  pose proof (pendingWhitespace_continue _ _ _ _ H2 Hrem1') as Hrem2.
  unfold emitCharacter in H. simpl in H.
  destruct (_remainder c2 - 1 <=? 0) eqn:Hz; [discriminate|].
  apply Z.leb_gt in Hz. injection H as <-. simpl. lia.
Qed.

Lemma textRound_shift :
  forall forward nodeValue pn pw this this' extra,
    textRound forward nodeValue pn pw this = (this', false) ->
    1 <= _remainder this -> 0 <= extra ->
    textRound forward nodeValue pn pw (shift extra this)
    = (shift extra this', false).
Proof.
  intros forward nodeValue pn pw this this' k H Hrem Hk.
  unfold textRound in *.
  apply (checkCharacter_shift _ _ _ _ _ k) in H; [exact H|exact Hrem|exact Hk].
Qed.

Lemma textRound_continue :
  forall forward nodeValue pn pw this this',
    textRound forward nodeValue pn pw this = (this', false) ->
    1 <= _remainder this -> 1 <= _remainder this'.
Proof.
  intros forward nodeValue pn pw this this' H Hrem. unfold textRound in H.
  apply checkCharacter_continue in H; [exact H|exact Hrem].
Qed.

Lemma textRound_stop :
  forall forward nodeValue pn pw this this',
    textRound forward nodeValue pn pw this = (this', true) ->
    _remainder this' <= 0.
Proof.
  intros forward nodeValue pn pw this this' H. unfold textRound in H.
  apply checkCharacter_stop in H. exact H.
Qed.

Lemma seekTextNodeLoop_shift :
  forall forward nodeValue pn pw fuel this this' extra,
    seekTextNodeLoop forward fuel nodeValue pn pw this = Some this' ->
    1 <= _remainder this -> 1 <= _remainder this' -> 0 <= extra ->
    seekTextNodeLoop forward fuel nodeValue pn pw (shift extra this)
    = Some (shift extra this').
Proof.
  intros forward nodeValue pn pw fuel.
  induction fuel as [|fuel IH]; intros this this' k H Hrem Hrem' Hk;
    cbn [seekTextNodeLoop] in *;
    change (textPending forward nodeValue (shift k this))
      with (textPending forward nodeValue this);
    destruct (textPending forward nodeValue this);
    try discriminate; try (injection H as <-; reflexivity).
  destruct (textRound forward nodeValue pn pw this) as [this1 stop] eqn:Hr.
  destruct stop.
  - injection H as <-. apply textRound_stop in Hr. lia.
  - rewrite (textRound_shift _ _ _ _ _ _ k Hr Hrem Hk).
    apply IH; try assumption.
    eapply textRound_continue; eassumption.
Qed.

Lemma seekTextNode_shift :
  forall forward doc this textNode resetOffset this' extra,
    seekTextNode forward doc this textNode resetOffset = Some (this', true) ->
    1 <= _remainder this -> 0 <= extra ->
    seekTextNode forward doc (shift extra this) textNode resetOffset
    = Some (shift extra this', true).
Proof.
  intros forward doc this textNode resetOffset this' k H Hrem Hk.
  rewrite seekTextNode_eq in *. cbv zeta in *.
  change (_getWhitespaceSettings doc (shift k this) textNode)
    with (_getWhitespaceSettings doc this textNode).
  destruct (_getWhitespaceSettings doc this textNode) as [pn pw].
  set (nodeValue := nodeValueOf doc textNode) in *.
  set (this0 := if resetOffset
                then set_offset (if forward then O else List.length nodeValue) this
                else this) in *.
  assert (H0 : (if resetOffset
                then set_offset (if forward then O else List.length nodeValue)
                                (shift k this)
                else shift k this) = shift k this0)
    by (unfold this0; destruct resetOffset; reflexivity).
  rewrite H0.
  change (_offset (shift k this0)) with (_offset this0).
  destruct (seekTextNodeLoop forward _ nodeValue pn pw this0) as [t|] eqn:Hl;
    [|discriminate].
  injection H as -> Hz. apply Z.ltb_lt in Hz.
  assert (Hrem0 : 1 <= _remainder this0)
    by (unfold this0; destruct resetOffset; exact Hrem).
  rewrite (seekTextNodeLoop_shift _ _ _ _ _ _ _ k Hl Hrem0); [|lia|exact Hk].
  f_equal. f_equal. simpl. apply Z.ltb_lt. lia.
Qed.

Lemma raiseNewlines_shift :
  forall newlines this extra,
    raiseNewlines newlines (shift extra this)
    = shift extra (raiseNewlines newlines this).
Proof.
  intros newlines this k. unfold raiseNewlines. simpl.
  destruct ((newlines >? _newlines this) && _generateLayoutContent this);
    reflexivity.
Qed.

Lemma exitedNodesLoop_shift :
  forall doc exitedNodes this extra,
    exitedNodesLoop doc exitedNodes (shift extra this)
    = shift extra (exitedNodesLoop doc exitedNodes this).
Proof.
  intros doc exitedNodes.
  induction exitedNodes as [|e rest IH]; intros this k; cbn [exitedNodesLoop];
    [reflexivity|].
  destruct (nodeType doc e); try apply IH.
  destruct (elementSeekInfo doc e) as [en nl].
  rewrite raiseNewlines_shift. apply IH.
Qed.

Lemma advance_shift :
  forall doc forward this node lastNode enterable extra,
    advance doc forward (shift extra this) node lastNode enterable
    = match advance doc forward this node lastNode enterable with
      | Next this' next lastNode' => Next (shift extra this') next lastNode'
      | Break this' lastNode' => Break (shift extra this') lastNode'
      end.
Proof.
  intros doc forward this node lastNode enterable k. unfold advance.
  destruct (getNextNode doc node forward enterable []) as [next exited].
  rewrite exitedNodesLoop_shift. reflexivity.
Qed.

(** A round that leaves a remainder goes the same way with more to go. *)
Lemma seekRound_shift :
  forall doc forward this node lastNode resetOffset this' next lastNode' extra,
    seekRound doc forward this node lastNode resetOffset
    = Some (Next this' next lastNode') ->
    1 <= _remainder this -> 0 <= extra ->
    seekRound doc forward (shift extra this) node lastNode resetOffset
    = Some (Next (shift extra this') next lastNode').
Proof.
  intros doc forward this node lastNode resetOffset this' next lastNode' k
         H Hrem Hk.
  unfold seekRound in *. destruct (nodeType doc node).
  - fold (seekTextNode forward doc this node resetOffset) in H.
    fold (seekTextNode forward doc (shift k this) node resetOffset).
    destruct (seekTextNode forward doc this node resetOffset)
      as [[t [|]]|] eqn:Hs; try discriminate.
    rewrite (seekTextNode_shift _ _ _ _ _ _ k Hs Hrem Hk).
    rewrite advance_shift. injection H as ->. reflexivity.
  - destruct (elementSeekInfo doc node) as [en nl].
    change (set_offset O (shift k this)) with (shift k (set_offset O this)).
    rewrite raiseNewlines_shift, advance_shift.
    injection H as ->. reflexivity.
  - rewrite advance_shift. injection H as ->. reflexivity.
Qed.

Lemma seekRound_continue :
  forall doc forward this node lastNode resetOffset this' next lastNode',
    seekRound doc forward this node lastNode resetOffset
    = Some (Next this' next lastNode') ->
    1 <= _remainder this -> 1 <= _remainder this'.
Proof.
  intros doc forward this node lastNode resetOffset this' next lastNode' H Hrem.
  unfold seekRound in H. destruct (nodeType doc node).
  - fold (seekTextNode forward doc this node resetOffset) in H.
    rewrite seekTextNode_eq in H. cbv zeta in H.
    destruct (_getWhitespaceSettings doc this node) as [pn pw].
    destruct (seekTextNodeLoop forward _ _ pn pw _) as [t|]; [|discriminate].
    destruct (0 <? _remainder t) eqn:Hz; [|discriminate].
    apply Z.ltb_lt in Hz.
    destruct (advance_ok doc forward t node node false) as [nx [ex [_ Ha]]].
    rewrite Ha in H. injection H as <- _ _.
    destruct (exitedNodesLoop_quiet doc ex t) as [[_ [Qr _]] _]. lia.
  - destruct (elementSeekInfo doc node) as [en nl].
    destruct (advance_ok doc forward (raiseNewlines nl (set_offset O this))
                         node node en) as [nx [ex [_ Ha]]].
    rewrite Ha in H. injection H as <- _ _.
    destruct (raiseNewlines_quiet nl (set_offset O this)) as [[_ [Q1 _]] _].
    destruct (exitedNodesLoop_quiet doc ex (raiseNewlines nl (set_offset O this)))
      as [[_ [Q2 _]] _].
    simpl in Q1. lia.
  - destruct (advance_ok doc forward this node lastNode false)
      as [nx [ex [_ Ha]]].
    rewrite Ha in H. injection H as <- _ _.
    destruct (exitedNodesLoop_quiet doc ex this) as [[_ [Qr _]] _]. lia.
Qed.

Lemma seekRound_break :
  forall doc forward this node lastNode resetOffset this' lastNode',
    seekRound doc forward this node lastNode resetOffset
    = Some (Break this' lastNode') ->
    _remainder this' <= 0.
Proof.
  intros doc forward this node lastNode resetOffset this' lastNode' H.
  unfold seekRound in H. destruct (nodeType doc node).
  - fold (seekTextNode forward doc this node resetOffset) in H.
    rewrite seekTextNode_eq in H. cbv zeta in H.
    destruct (_getWhitespaceSettings doc this node) as [pn pw].
    destruct (seekTextNodeLoop forward _ _ pn pw _) as [t|]; [|discriminate].
    destruct (0 <? _remainder t) eqn:Hz.
    + unfold advance in H. destruct (getNextNode _ _ _ _ _). discriminate.
    + injection H as <- _. apply Z.ltb_ge in Hz. exact Hz.
  - destruct (elementSeekInfo doc node) as [en nl].
    unfold advance in H. destruct (getNextNode _ _ _ _ _). discriminate.
  - unfold advance in H. destruct (getNextNode _ _ _ _ _). discriminate.
Qed.

(** A seek loop that ends with a remainder gives, with [extra] more to go,
    the same result with [extra] more left. *)
Lemma seekLoop_shift :
  forall doc forward fuel this node lastNode resetOffset r extra,
    seekLoop fuel doc forward this node lastNode resetOffset = Some r ->
    1 <= _remainder this -> 1 <= _remainder r -> 0 <= extra ->
    seekLoop fuel doc forward (shift extra this) node lastNode resetOffset
    = Some (shift extra r) /\
    seekVisited fuel doc forward (shift extra this) node lastNode resetOffset
    = seekVisited fuel doc forward this node lastNode resetOffset.
Proof.
  intros doc forward fuel.
  induction fuel as [|fuel IH];
    intros this node lastNode resetOffset r k H Hrem Hr Hk;
    cbn [seekLoop seekVisited] in *; [discriminate|].
  destruct (seekRound doc forward this node lastNode resetOffset)
    as [[this' lastNode'|this' next lastNode']|] eqn:Hround; [| |discriminate].
  - injection H as <-. apply seekRound_break in Hround. simpl in Hr. lia.
  - rewrite (seekRound_shift _ _ _ _ _ _ _ _ _ k Hround Hrem Hk).
    pose proof (seekRound_continue _ _ _ _ _ _ _ _ _ Hround Hrem) as Hrem'.
    destruct next as [node'|].
    + destruct (IH _ _ _ _ _ k H Hrem' Hr Hk) as [Hl Hv].
      split; [exact Hl|]. rewrite Hv. reflexivity.
    + injection H as <-. split; reflexivity.
Qed.

(* ------------------------------------------------------------------ *)
(** ** seek: termination and accounting *)

Lemma seekVisited_length :
  forall doc forward fuel this node lastNode resetOffset,
    (List.length (seekVisited fuel doc forward this node lastNode resetOffset)
     <= fuel)%nat.
Proof.
  intros doc forward fuel.
  induction fuel as [|fuel IH]; intros this node lastNode resetOffset;
    cbn [seekVisited]; [simpl; lia|].
  destruct (seekRound doc forward this node lastNode resetOffset)
    as [[this' lastNode'|this' [node'|] lastNode']|]; simpl; try lia.
  specialize (IH this' node' lastNode' true). lia.
Qed.

Lemma seek_nonzero :
  forall doc this length,
    length <> 0 ->
    seek doc this length
    = seekLoop (size doc) doc (length >=? 0)
               (set_remainder (Z.abs length) this)
               (_node this) (_node this) (_resetOffset this) /\
    visited doc this length
    = seekVisited (size doc) doc (length >=? 0)
                  (set_remainder (Z.abs length) this)
                  (_node this) (_node this) (_resetOffset this).
Proof.
  intros doc this length Hnz. unfold seek, visited.
  assert (Hz : (length =? 0) = false) by (apply Z.eqb_neq; exact Hnz).
  rewrite Hz.
  assert (Habs : (if length >=? 0 then length else - length) = Z.abs length).
  { rewrite Z.geb_leb. destruct (0 <=? length) eqn:E;
      [apply Z.leb_le in E|apply Z.leb_gt in E]; lia. }
  rewrite Habs. split; reflexivity.
Qed.

(** C9: on every document tree and for every integer length, [seek] comes
    to its end.  From a position of the document, the loop, given one round
    per node of the document, returns a result: it handles nodes of the
    document only, none of them twice, and so makes at most as many rounds as
    the document has nodes; it ends with the remainder at 0 or with
    [getNextNode] finding no node after the last one handled. *)
Theorem seek_terminates :
  forall (doc : Node) (this : DOMTextScanner) (length : Z),
    validStart doc this ->
    exists r,
      seek doc this length = Some r /\
      NoDup (visited doc this length) /\
      Forall (fun v => isNode doc v = true) (visited doc this length) /\
      (List.length (visited doc this length) <= size doc)%nat /\
      (_remainder r = 0 \/
       exists front lv,
         visited doc this length = front ++ [lv] /\
         exhaustedAt doc (length >=? 0) lv).
Proof.
  intros doc this length [Hnode Hoff].
  destruct (Z.eq_dec length 0) as [->|Hnz].
  { exists (set_remainder 0 this). split; [reflexivity|].
    split; [constructor|]. split; [constructor|]. split; [simpl; lia|].
    left. reflexivity. }
  destruct (seek_nonzero doc this length Hnz) as [-> ->].
  destruct (seekLoop_ok doc (length >=? 0) (size doc)
              (set_remainder (Z.abs length) this) (_node this) (_node this)
              (_resetOffset this) Hnode)
    as [r [Hl [R [_ [_ [_ [_ Hex]]]]]]].
  - apply rounds_le_size. exact Hnode.
  - simpl. lia.
  - exact Hoff.
  - exists r. split; [exact Hl|].
    destruct (seekVisited_ok doc (length >=? 0) (size doc)
                (set_remainder (Z.abs length) this) (_node this) (_node this)
                (_resetOffset this) Hnode) as [Hall Hnd].
    split; [exact Hnd|]. split.
    { eapply Forall_impl; [|exact Hall]. intros v [Hv _]. exact Hv. }
    split; [apply seekVisited_length|].
    destruct (Z.eq_dec (_remainder r) 0) as [Hz|Hz]; [left; exact Hz|].
    right. apply Hex. lia.
Qed.

Lemma seek_terminates_witness :
  exists r,
    seek docTwoDivs scannerAtFoo 7 = Some r /\
    NoDup (visited docTwoDivs scannerAtFoo 7) /\
    Forall (fun v => isNode docTwoDivs v = true) (visited docTwoDivs scannerAtFoo 7) /\
    (List.length (visited docTwoDivs scannerAtFoo 7) <= size docTwoDivs)%nat /\
    (_remainder r = 0 \/
     exists front lv,
       visited docTwoDivs scannerAtFoo 7 = front ++ [lv] /\
       exhaustedAt docTwoDivs (7 >=? 0) lv).
Proof.
  apply (seek_terminates docTwoDivs scannerAtFoo 7).
  split; [reflexivity|]. intros _ _. simpl. lia.
Defined.

(* ------------------------------------------------------------------ *)
(** ** Elements that are never entered *)

Lemma strictAncestor_cons :
  forall e k p, strictAncestor e (k :: p) -> e = p \/ strictAncestor e p.
Proof.
  intros e k p [below [Hne Heq]].
  destruct below as [|b below]; [contradiction|].
  simpl in Heq. injection Heq as _ ->.
  destruct below as [|b' below]; [left; reflexivity|].
  right. exists (b' :: below). split; [discriminate|reflexivity].
Qed.

Lemma strictAncestor_below :
  forall e q pre i,
    e = q \/ strictAncestor e q -> strictAncestor e (pre ++ i :: q).
Proof.
  intros e q pre i [->|[below [Hne ->]]].
  - exists (pre ++ [i]). split; [destruct pre; discriminate|].
    rewrite <- app_assoc. reflexivity.
  - exists (pre ++ i :: below). split; [destruct pre; discriminate|].
    rewrite <- app_assoc. reflexivity.
Qed.

(** The upward loop of [getNextNode] ends on a sibling of [node] or of one of
    its ancestors. *)
Lemma exitNodes_shape :
  forall doc forward node exited next exited',
    exitNodes doc forward node exited = (Some next, exited') ->
    exists pre i j q, node = pre ++ i :: q /\ next = j :: q.
Proof.
  intros doc forward node. induction node as [|i parent IH];
    intros exited next exited' H; cbn [exitNodes] in H.
  - destruct forward; simpl in H; discriminate.
  - destruct (if forward then nextSibling doc (i :: parent)
              else previousSibling (i :: parent)) as [sib|] eqn:Hsib.
    + injection H as <- _. exists [], i.
      destruct forward.
      * cbn [nextSibling] in Hsib.
        destruct (isNode doc (S i :: parent)); [|discriminate].
        injection Hsib as <-. exists (S i), parent. split; reflexivity.
      * destruct i as [|i]; cbn [previousSibling] in Hsib; [discriminate|].
        injection Hsib as <-. exists i, parent. split; reflexivity.
    + apply IH in H as [pre [i' [j [q [-> ->]]]]].
      exists (i :: pre), i', j, q. split; reflexivity.
Qed.

Lemma getNextNode_shape :
  forall doc forward visitChildren node exited next exited',
    getNextNode doc node forward visitChildren exited = (Some next, exited') ->
    (visitChildren = true /\ exists k, next = k :: node) \/
    (exists pre i j q, node = pre ++ i :: q /\ next = j :: q).
Proof.
  intros doc forward visitChildren node exited next exited' H.
  unfold getNextNode in H.
  destruct visitChildren; [|right; eapply exitNodes_shape; eassumption].
  destruct forward.
  - unfold firstChild in H. destruct (isNode doc (O :: node)).
    + injection H as <- _. left. split; [reflexivity|]. exists O. reflexivity.
    + right. eapply exitNodes_shape; eassumption.
  - unfold lastChild in H. destruct (getNode doc node) as [n|];
      [|right; eapply exitNodes_shape; eassumption].
    destruct (List.length (children n)) as [|k].
    + right. eapply exitNodes_shape; eassumption.
    + injection H as <- _. left. split; [reflexivity|]. exists k. reflexivity.
Qed.

Lemma neverEntered_seekInfo :
  forall (nodeName : string) (style : CSSStyleDeclaration),
    neverEntered nodeName = true ->
    getElementSeekInfo nodeName style = (false, 0).
Proof.
  intros name style H. unfold neverEntered, memString in H. simpl in H.
  unfold getElementSeekInfo. cbv zeta.
  destruct (String.eqb (toUpperCase name) "HEAD"); [reflexivity|].
  destruct (String.eqb (toUpperCase name) "RT"); [reflexivity|].
  destruct (String.eqb (toUpperCase name) "SCRIPT"); [reflexivity|].
  destruct (String.eqb (toUpperCase name) "STYLE"); [reflexivity|].
  discriminate.
Qed.

Lemma skippedElement_not_enterable :
  forall doc e, skippedElement doc e -> elementSeekInfo doc e = (false, 0).
Proof.
  intros doc e [name [style [cs [Hn Hskip]]]]. unfold elementSeekInfo.
  rewrite Hn. apply neverEntered_seekInfo. exact Hskip.
Qed.

(** Every node the loop handles lies inside those skipped elements only in
    which the loop started. *)
Lemma seekVisited_skipped :
  forall doc forward start fuel this node lastNode resetOffset,
    (forall e, skippedElement doc e -> strictAncestor e node ->
               strictAncestor e start) ->
    forall v e,
      In v (seekVisited fuel doc forward this node lastNode resetOffset) ->
      skippedElement doc e -> strictAncestor e v -> strictAncestor e start.
Proof.
  intros doc forward start fuel.
  induction fuel as [|fuel IH]; intros this node lastNode resetOffset Hinv v e Hin;
    cbn [seekVisited] in Hin; [contradiction|].
  destruct Hin as [<-|Hin]; [apply Hinv|].
  destruct (seekRound doc forward this node lastNode resetOffset)
    as [[this' lastNode'|this' [node'|] lastNode']|] eqn:Hr;
    try contradiction.
  revert v e Hin. apply IH.
  intros e He Hanc.
  destruct (seekRound_next _ _ _ _ _ _ _ _ _ Hr) as [[vc [ex [Hg Hvc]]] _].
  apply getNextNode_shape in Hg as [[-> [k ->]]|[pre [i [j [q [-> ->]]]]]].
  - apply strictAncestor_cons in Hanc as [->|Hanc]; [|apply Hinv; assumption].
    destruct (Hvc eq_refl) as [_ Hen].
    rewrite (skippedElement_not_enterable _ _ He) in Hen. discriminate.
  - apply Hinv; [assumption|].
    apply strictAncestor_below. apply strictAncestor_cons in Hanc. exact Hanc.
Qed.

(* ------------------------------------------------------------------ *)
(** ** The text node a scan starts in *)

Lemma nodeType_text_isNode :
  forall doc node, nodeType doc node = TEXT_NODE -> isNode doc node = true.
Proof.
  intros doc node H. unfold nodeType, isNode in *.
  destruct (getNode doc node); [reflexivity|discriminate].
Qed.

Lemma constructor_plain :
  forall doc node offset fpw glc,
    getParentRubyElement doc node = None ->
    constructor doc node offset fpw glc
    = {| _node := node; _offset := offset; _content := []; _remainder := 0;
         _resetOffset := false; _newlines := 0;
         _lineHasWhitespace := false; _lineHasContent := false;
         _forcePreserveWhitespace := fpw; _generateLayoutContent := glc |}.
Proof.
  intros doc node offset fpw glc H. unfold constructor. rewrite H. reflexivity.
Qed.

(** The first round of the loop on a text node scans that node, whatever the
    elements around it are. *)
Lemma seekLoop_first_text :
  forall doc forward fuel this node lastNode resetOffset,
    nodeType doc node = TEXT_NODE ->
    (rounds doc forward node <= fuel)%nat ->
    1 <= _remainder this ->
    (resetOffset = false ->
     (_offset this <= List.length (nodeValueOf doc node))%nat) ->
    exists scanned,
      seekTextNode forward doc this node resetOffset
      = Some (scanned, 0 <? _remainder scanned) /\
      (_remainder scanned = 0 ->
       seekLoop fuel doc forward this node lastNode resetOffset
       = Some (finish node resetOffset scanned)) /\
      exists r rest,
        seekLoop fuel doc forward this node lastNode resetOffset = Some r /\
        Forall isCharacter rest /\
        _content r = extend forward (_content scanned) rest.
Proof.
  intros doc forward fuel this node lastNode resetOffset Ht Hfuel Hrem Hoff.
  pose proof (nodeType_text_isNode _ _ Ht) as Hnode.
  destruct (seekTextNode_ok forward doc this node resetOffset Hoff Hrem)
    as [scanned [Hs [_ [R [_ [_ _]]]]]].
  exists scanned. split; [exact Hs|].
  destruct fuel as [|fuel];
    [pose proof (rounds_pos doc forward node Hnode); lia|].
  cbn [seekLoop]. unfold seekRound. rewrite Ht.
  fold (seekTextNode forward doc this node resetOffset). rewrite Hs.
  destruct (0 <? _remainder scanned) eqn:Hz.
  - apply Z.ltb_lt in Hz. split; [intros; lia|].
    destruct (advance_ok doc forward scanned node node false)
      as [next [ex [Hg Ha]]].
    rewrite Ha.
    destruct (exitedNodesLoop_quiet doc ex scanned) as [[Qc [Qr _]] _].
    destruct next as [node'|].
    + destruct (getNextNode_decreases _ _ _ _ _ _ Hnode Hg) as [Hnode' Hdec].
      destruct (seekLoop_ok doc forward fuel (exitedNodesLoop doc ex scanned)
                  node' node true Hnode')
        as [r [Hl [_ [[es [F [C _]]] _]]]];
        [lia|lia|discriminate|].
      exists r, es. split; [exact Hl|]. split; [exact F|].
      rewrite C, Qc. reflexivity.
    + eexists. exists []. split; [reflexivity|]. split; [constructor|].
      simpl. rewrite Qc. unfold extend. destruct forward; simpl;
        rewrite ?app_nil_r; reflexivity.
  - apply Z.ltb_ge in Hz. split; [reflexivity|].
    eexists. exists []. split; [reflexivity|]. split; [constructor|].
    simpl. unfold extend. destruct forward; simpl; rewrite ?app_nil_r;
      reflexivity.
Qed.

(** A scan started in the text of the script of [docScript] reads it. *)
Lemma script_text_read_from_inside :
  exists r,
    seek docScript (constructor docScript scriptText 0 false true) 1 = Some r /\
    _content r = js "x" /\ _remainder r = 0 /\ _node r = scriptText.
Proof.
  eexists. split; [vm_compute; reflexivity|]. repeat split; reflexivity.
Qed.

(* ------------------------------------------------------------------ *)
(** ** Round trips over ordinary text *)

Lemma nth_error_middle :
  forall (A : Type) (p q : list A) (x : A),
    nth_error (p ++ x :: q) (List.length p) = Some x.
Proof.
  intros A p q x. rewrite nth_error_app2 by lia.
  rewrite Nat.sub_diag. reflexivity.
Qed.

Lemma ordinaryUnit_not_surrogate :
  forall u, ordinaryUnit u = true ->
            isHighSurrogate u = false /\ isLowSurrogate u = false.
Proof.
  intros u H. unfold ordinaryUnit in H.
  apply andb_true_iff in H as [H Hl]. apply andb_true_iff in H as [_ Hh].
  split; apply negb_true_iff; assumption.
Qed.

Lemma read_forward_ordinary :
  forall (p q c : jsstring),
    ordinaryCharacter c = true ->
    StringUtil.readCodePointsForward (p ++ c ++ q) (List.length p) 1 = c.
Proof.
  intros p q c Hc. rewrite readCodePointsForward_one.
  destruct c as [|u [|lo [|x c]]]; try discriminate; cbn [ordinaryCharacter] in Hc.
  - simpl app. rewrite nth_error_middle.
    destruct (ordinaryUnit_not_surrogate u Hc) as [Hh _]. rewrite Hh.
    cbn [andb].
    destruct (nth_error (p ++ u :: q) (S (List.length p))); reflexivity.
  - simpl app. rewrite nth_error_middle.
    replace (p ++ u :: lo :: q) with ((p ++ [u]) ++ lo :: q)
      by (rewrite <- app_assoc; reflexivity).
    replace (S (List.length p)) with (List.length (p ++ [u]))
      by (rewrite length_app; simpl; lia).
    rewrite nth_error_middle, Hc. reflexivity.
Qed.

Lemma read_backward_ordinary :
  forall (p q c : jsstring),
    ordinaryCharacter c = true ->
    StringUtil.readCodePointsBackward (p ++ c ++ q)
                                      (List.length p + List.length c - 1) 1
    = c.
Proof.
  intros p q c Hc. rewrite readCodePointsBackward_one.
  destruct c as [|u [|lo [|x c]]]; try discriminate; cbn [ordinaryCharacter] in Hc.
  - simpl app. replace (List.length p + List.length [u] - 1)%nat
      with (List.length p) by (simpl; lia).
    rewrite nth_error_middle.
    destruct (ordinaryUnit_not_surrogate u Hc) as [_ Hl]. rewrite Hl.
    cbn [andb].
    destruct (List.length p) as [|n]; [reflexivity|].
    destruct (nth_error (p ++ u :: q) n); reflexivity.
  - simpl app. replace (List.length p + List.length [u; lo] - 1)%nat
      with (S (List.length p)) by (simpl; lia).
    replace (p ++ u :: lo :: q) with ((p ++ [u]) ++ lo :: q)
      by (rewrite <- app_assoc; reflexivity).
    replace (S (List.length p)) with (List.length (p ++ [u])) at 1
      by (rewrite length_app; simpl; lia).
    rewrite nth_error_middle.
    rewrite <- app_assoc. simpl app. rewrite nth_error_middle.
    apply andb_true_iff in Hc as [Hh Hl]. rewrite Hh, Hl. reflexivity.
Qed.

Lemma ordinaryCharacter_attributes :
  forall c pn pw,
    ordinaryCharacter c = true -> getCharacterAttributes c pn pw = 2.
Proof.
  intros c pn pw Hc. destruct c as [|u rest]; [discriminate|].
  assert (Hu : memZ u [tab; lineFeed; formFeed; carriageReturn; space;
                       zeroWidthSpace; zeroWidthNonJoiner] = false).
  { destruct rest as [|lo [|x rest]]; cbn [ordinaryCharacter] in Hc.
    - unfold ordinaryUnit in Hc. apply andb_true_iff in Hc as [Hc _].
      apply andb_true_iff in Hc as [Hc _]. apply negb_true_iff. exact Hc.
    - apply andb_true_iff in Hc as [Hh _]. unfold isHighSurrogate in Hh.
      apply andb_true_iff in Hh as [H1 H2].
      apply Z.leb_le in H1. apply Z.ltb_lt in H2.
      unfold memZ, tab, lineFeed, formFeed, carriageReturn, space,
        zeroWidthSpace, zeroWidthNonJoiner. simpl.
      repeat match goal with
             | |- context [u =? ?k] =>
               replace (u =? k) with false by (symmetry; apply Z.eqb_neq; lia)
             end.
      reflexivity.
    - discriminate. }
  unfold memZ, tab, lineFeed, formFeed, carriageReturn, space,
    zeroWidthSpace, zeroWidthNonJoiner in Hu. simpl in Hu.
  repeat match goal with
         | H : (_ || _) = false |- _ =>
           apply orb_false_iff in H; destruct H as [? H]
         end.
  unfold getCharacterAttributes, charCodeAt0. simpl.
  repeat match goal with
         | H : (u =? _) = false |- _ => rewrite H; clear H
         end.
  reflexivity.
Qed.

Lemma ordinaryCharacter_length :
  forall c, ordinaryCharacter c = true -> (1 <= List.length c)%nat.
Proof.
  intros [|u rest] H; [discriminate|simpl; lia].
Qed.

(** The check of an ordinary character when nothing is pending. *)
Lemma checkCharacter_plain :
  forall forward this char,
    nothingPending this ->
    checkCharacter forward this char 2
    = (set_remainder (_remainder this - 1)
         (emit forward char (set_lineHasContent true this)),
       _remainder this - 1 <=? 0).
Proof.
  intros forward this char [Hnl Hws].
  unfold checkCharacter, pendingNewlines, pendingWhitespace, emitCharacter.
  simpl.
  assert (H0 : (0 <? _newlines this) = false) by (apply Z.ltb_ge; exact Hnl).
  rewrite H0. simpl. rewrite Hws. reflexivity.
Qed.

Lemma offsetOf_S :
  forall cs i c,
    nth_error cs i = Some c ->
    offsetOf cs (S i) = (offsetOf cs i + List.length c)%nat.
Proof.
  intros cs i c H. unfold offsetOf.
  rewrite (firstn_nth_error _ _ _ _ H), concat_app, length_app. simpl.
  rewrite app_nil_r. reflexivity.
Qed.

Lemma concat_split_at :
  forall (cs : list jsstring) i c,
    nth_error cs i = Some c ->
    List.concat cs
    = List.concat (firstn i cs) ++ c ++ List.concat (skipn (S i) cs).
Proof.
  intros cs i c H.
  rewrite <- (firstn_skipn i cs) at 1.
  rewrite (skipn_nth_error _ _ _ _ H), concat_app. reflexivity.
Qed.

Lemma forallb_nth_error :
  forall (A : Type) (f : A -> bool) (l : list A) i x,
    forallb f l = true -> nth_error l i = Some x -> f x = true.
Proof.
  intros A f l i x Hall Hn. rewrite forallb_forall in Hall.
  apply Hall. eapply nth_error_In. exact Hn.
Qed.

Lemma offsetOf_le :
  forall cs i, (offsetOf cs i <= List.length (List.concat cs))%nat.
Proof.
  intros cs i. unfold offsetOf.
  rewrite <- (firstn_skipn i cs) at 2. rewrite concat_app, length_app. lia.
Qed.

Lemma offsetOf_lower :
  forall cs i,
    forallb ordinaryCharacter cs = true -> (i <= List.length cs)%nat ->
    (i <= offsetOf cs i)%nat.
Proof.
  intros cs i Hall. induction i as [|i IH]; intros Hi; [lia|].
  destruct (nth_error cs i) as [c|] eqn:E;
    [|apply nth_error_None in E; lia].
  rewrite (offsetOf_S _ _ _ E).
  pose proof (ordinaryCharacter_length c
                (forallb_nth_error _ _ _ _ _ Hall E)).
  assert (Hi' : (i <= List.length cs)%nat) by lia.
  specialize (IH Hi'). lia.
Qed.

(** A round of a text loop on an ordinary character: the character is
    emitted and the offset moves over it. *)
Lemma ordinary_round :
  forall (forward : bool) (cs : list jsstring) (pn pw : bool)
         (this : DOMTextScanner) (i : nat) (c : jsstring),
    forallb ordinaryCharacter cs = true ->
    nothingPending this ->
    nth_error cs (if forward then i else pred i) = Some c ->
    (forward = false -> (1 <= i)%nat) ->
    _offset this = offsetOf cs i ->
    textPending forward (List.concat cs) this = true /\
    textRound forward (List.concat cs) pn pw this
    = (set_remainder (_remainder this - 1)
         (emit forward c
            (set_lineHasContent true
               (set_offset (offsetOf cs (if forward then S i else pred i)) this))),
       _remainder this - 1 <=? 0).
Proof.
  intros forward cs pn pw this i c Hall Hplain Hc Hi Hoff.
  pose proof (forallb_nth_error _ _ _ _ _ Hall Hc) as Hord.
  pose proof (ordinaryCharacter_length c Hord) as Hlen.
  pose proof (concat_split_at _ _ _ Hc) as Hsplit.
  pose proof (offsetOf_S _ _ _ Hc) as HS.
  assert (Hread : readCharacter forward (List.concat cs) (_offset this) = c).
  { unfold readCharacter. rewrite Hoff, Hsplit. destruct forward.
    - apply read_forward_ordinary. exact Hord.
    - specialize (Hi eq_refl). replace (S (pred i)) with i in HS by lia.
      rewrite HS. apply read_backward_ordinary. exact Hord. }
  split.
  - unfold textPending. rewrite Hoff. destruct forward.
    + apply Nat.ltb_lt. pose proof (offsetOf_le cs (S i)). lia.
    + specialize (Hi eq_refl). replace (S (pred i)) with i in HS by lia.
      apply Nat.ltb_lt. lia.
  - unfold textRound. rewrite Hread.
    rewrite (ordinaryCharacter_attributes c pn pw Hord).
    rewrite checkCharacter_plain by exact Hplain.
    f_equal. unfold moveOffset. rewrite Hoff.
    replace (if forward then (offsetOf cs i + List.length c)%nat
             else (offsetOf cs i - List.length c)%nat)
      with (offsetOf cs (if forward then S i else pred i)); [reflexivity|].
    destruct forward; [exact HS|].
    specialize (Hi eq_refl). replace (S (pred i)) with i in HS by lia. lia.
Qed.

(** A text loop that has only ordinary characters to read, and at least as
    many as the remainder asks for, reads exactly that many. *)
Lemma ordinary_loop :
  forall (forward : bool) (cs : list jsstring) (pn pw : bool) (k fuel : nat)
         (this : DOMTextScanner) (i : nat),
    forallb ordinaryCharacter cs = true ->
    nothingPending this ->
    _offset this = offsetOf cs i ->
    _remainder this = Z.of_nat (S k) ->
    (S k <= fuel)%nat ->
    (i <= List.length cs)%nat ->
    (if forward then (i + S k <= List.length cs)%nat else (S k <= i)%nat) ->
    exists r,
      seekTextNodeLoop forward fuel (List.concat cs) pn pw this = Some r /\
      _remainder r = 0 /\
      _offset r = offsetOf cs (if forward then i + S k else i - S k)%nat /\
      _content r
      = extend forward (_content this)
               (firstn (S k) (skipn (if forward then i else i - S k)%nat cs)) /\
      nothingPending r /\
      sameSettings this r.
Proof.
  intros forward cs pn pw k.
  induction k as [|k IH]; intros fuel this i Hall Hplain Hoff Hrem Hfuel Hle Hfit.
  - destruct fuel as [|fuel]; [lia|].
    assert (Hc : exists c, nth_error cs (if forward then i else pred i) = Some c).
    { destruct (nth_error cs (if forward then i else pred i)) eqn:E; [eauto|].
      apply nth_error_None in E. destruct forward; lia. }
    destruct Hc as [c Hc].
    assert (Hi : forward = false -> (1 <= i)%nat) by (intros ->; lia).
    destruct (ordinary_round forward cs pn pw this i c Hall Hplain Hc Hi Hoff)
      as [Hp Hr].
    cbn [seekTextNodeLoop]. rewrite Hp, Hr, Hrem.
    change (Z.of_nat 1 - 1 <=? 0) with true. cbv iota.
    eexists. split; [reflexivity|]. simpl.
    split; [reflexivity|]. split.
    { destruct forward; f_equal; lia. }
    split.
    { unfold extend. destruct forward.
      - rewrite (skipn_nth_error _ _ _ _ Hc). simpl. rewrite app_nil_r.
        reflexivity.
      - replace (i - 1)%nat with (pred i) by lia.
        rewrite (skipn_nth_error _ _ _ _ Hc). simpl. rewrite app_nil_r.
        reflexivity. }
    split; [exact Hplain|]. unfold sameSettings. simpl. repeat split.
  - destruct fuel as [|fuel]; [lia|].
    assert (Hc : exists c, nth_error cs (if forward then i else pred i) = Some c).
    { destruct (nth_error cs (if forward then i else pred i)) eqn:E; [eauto|].
      apply nth_error_None in E. destruct forward; lia. }
    destruct Hc as [c Hc].
    assert (Hi : forward = false -> (1 <= i)%nat) by (intros ->; lia).
    destruct (ordinary_round forward cs pn pw this i c Hall Hplain Hc Hi Hoff)
      as [Hp Hr].
    cbn [seekTextNodeLoop]. rewrite Hp, Hr, Hrem.
    assert (Hgo : (Z.of_nat (S (S k)) - 1 <=? 0) = false)
      by (apply Z.leb_gt; lia).
    rewrite Hgo.
    set (this1 := set_remainder (Z.of_nat (S (S k)) - 1)
                    (emit forward c
                       (set_lineHasContent true
                          (set_offset
                             (offsetOf cs (if forward then S i else pred i))
                             this)))).
    destruct (IH fuel this1 (if forward then S i else pred i) Hall)
      as [r [Hl [R [O [C [P St]]]]]].
    + exact Hplain.
    + reflexivity.
    + unfold this1. cbn [_remainder set_remainder]. lia.
    + lia.
    + destruct forward; lia.
    + destruct forward; lia.
    + exists r. split; [exact Hl|]. split; [exact R|]. split.
      { rewrite O. destruct forward; f_equal; lia. }
      split.
      { assert (Hc1 : _content this1
                     = if forward then _content this ++ c else c ++ _content this)
          by reflexivity.
        rewrite C, Hc1. unfold extend. destruct forward.
        - rewrite (skipn_nth_error _ _ _ _ Hc).
          change (firstn (S (S k)) (c :: skipn (S i) cs))
            with (c :: firstn (S k) (skipn (S i) cs)).
          cbn [List.concat]. rewrite !app_assoc. reflexivity.
        - replace (pred i - S k)%nat with (i - S (S k))%nat by lia.
          assert (Hn : nth_error (skipn (i - S (S k)) cs) (S k) = Some c).
          { rewrite nth_error_skipn.
            replace (i - S (S k) + S k)%nat with (pred i) by lia. exact Hc. }
          rewrite (firstn_nth_error _ _ _ _ Hn), concat_app.
          cbn [List.concat]. rewrite app_nil_r, <- app_assoc. reflexivity. }
      split; [exact P|].
      eapply sameSettings_trans; [|exact St].
      unfold sameSettings, this1. simpl. repeat split.
Qed.

Lemma size_S : forall doc : Node, exists m, size doc = S m.
Proof. intros doc. rewrite size_children. eauto. Qed.

(** [seek] inside a text node of ordinary characters, by no more than the
    characters there are in its direction: the length is satisfied inside the
    node. *)
Lemma ordinary_seek :
  forall (doc : Node) (textNode : NodeRef) (cs : list jsstring)
         (this : DOMTextScanner) (i : nat) (n : Z),
    getNode doc textNode = Some (Text (List.concat cs)) ->
    forallb ordinaryCharacter cs = true ->
    _node this = textNode ->
    _resetOffset this = false ->
    nothingPending this ->
    _offset this = offsetOf cs i ->
    (i <= List.length cs)%nat ->
    n <> 0 ->
    - Z.of_nat i <= n <= Z.of_nat (List.length cs) - Z.of_nat i ->
    exists r,
      seek doc this n = Some r /\
      _remainder r = 0 /\
      _node r = textNode /\
      _resetOffset r = false /\
      nothingPending r /\
      _offset r = offsetOf cs (Z.to_nat (Z.of_nat i + n)) /\
      _content r
      = extend (n >=? 0) (_content this)
               (firstn (Z.abs_nat n)
                       (skipn (Z.to_nat (Z.min (Z.of_nat i) (Z.of_nat i + n))) cs)).
Proof.
  intros doc textNode cs this i n Hnode Hall Hn Hro Hplain Hoff Hi Hnz Hrange.
  destruct (seek_nonzero doc this n Hnz) as [-> _].
  destruct (size_S doc) as [m ->].
  cbn [seekLoop]. unfold seekRound.
  assert (Ht : nodeType doc (_node this) = TEXT_NODE)
    by (unfold nodeType; rewrite Hn, Hnode; reflexivity).
  rewrite Ht.
  fold (seekTextNode (n >=? 0) doc (set_remainder (Z.abs n) this) (_node this)
                     (_resetOffset this)).
  rewrite seekTextNode_eq. cbv zeta.
  destruct (_getWhitespaceSettings doc (set_remainder (Z.abs n) this) (_node this))
    as [pn pw].
  assert (Hv : nodeValueOf doc (_node this) = List.concat cs)
    by (unfold nodeValueOf; rewrite Hn, Hnode; reflexivity).
  rewrite Hv, Hro.
  assert (Hk : exists k, Z.abs_nat n = S k /\ Z.abs n = Z.of_nat (S k)).
  { exists (pred (Z.abs_nat n)). lia. }
  destruct Hk as [k [Hk1 Hk2]].
  assert (Hdir : (n >=? 0) = true /\ 0 < n \/ (n >=? 0) = false /\ n < 0).
  { rewrite Z.geb_leb. destruct (0 <=? n) eqn:E;
      [apply Z.leb_le in E; left|apply Z.leb_gt in E; right]; split;
        try reflexivity; lia. }
  pose proof (offsetOf_le cs i) as Hle1.
  pose proof (offsetOf_lower cs i Hall Hi) as Hlow.
  destruct (ordinary_loop (n >=? 0) cs pn pw k
              (if n >=? 0 then List.length (List.concat cs)
               else _offset (set_remainder (Z.abs n) this))
              (set_remainder (Z.abs n) this) i Hall)
    as [r [Hl [R [O [C [P St]]]]]].
  - exact Hplain.
  - exact Hoff.
  - exact Hk2.
  - destruct Hdir as [[-> Hpos]|[-> Hneg]].
    + pose proof (offsetOf_lower cs (List.length cs) Hall (Nat.le_refl _)).
      pose proof (offsetOf_le cs (List.length cs)). lia.
    + cbn [_offset set_remainder]. lia.
  - exact Hi.
  - destruct Hdir as [[-> Hpos]|[-> Hneg]]; lia.
  - rewrite Hl.
    assert (Hz : (0 <? _remainder r) = false) by (rewrite R; reflexivity).
    rewrite Hz. eexists. split; [reflexivity|].
    unfold finish. cbn [_remainder _node _resetOffset _offset _content
                          set_resetOffset set_node _newlines _lineHasWhitespace].
    split; [exact R|]. split; [exact Hn|]. split; [reflexivity|].
    split; [exact P|]. split.
    + rewrite O. f_equal. destruct Hdir as [[-> Hpos]|[-> Hneg]]; lia.
    + rewrite C. cbn [_content set_remainder]. rewrite Hk1.
      f_equal. f_equal. f_equal.
      destruct Hdir as [[-> Hpos]|[-> Hneg]]; lia.
Qed.

(** A seek for more than the text holds: on the text ["ab"], [seek(5)] from
    offset 1 runs out of text, so the remainder is not 0 after either call,
    and [seek(-5)] then starts afresh from the end of the node and stops at
    offset 0. *)
Lemma round_trip_needs_text :
  ~ (exists r1 r2,
        seek docAB (constructor docAB [] 1 false true) 5 = Some r1 /\
        _remainder r1 = 0 /\
        seek docAB r1 (-5) = Some r2 /\
        _remainder r2 = 0 /\
        _offset r2 = 1%nat).
Proof.
  intros [r1 [r2 [H1 [R1 _]]]].
  vm_compute in H1. injection H1 as <-. discriminate R1.
Qed.

(** What the two calls do there. *)
Lemma round_trip_past_the_end :
  exists r1 r2,
    seek docAB (constructor docAB [] 1 false true) 5 = Some r1 /\
    _remainder r1 = 4 /\ _offset r1 = 2%nat /\ _resetOffset r1 = true /\
    seek docAB r1 (-5) = Some r2 /\
    _remainder r2 = 3 /\ _offset r2 = 0%nat.
Proof.
  eexists. eexists. split; [vm_compute; reflexivity|].
  split; [reflexivity|]. split; [reflexivity|]. split; [reflexivity|].
  split; [vm_compute; reflexivity|]. split; reflexivity.
Qed.

(** Inside one text node the round trip holds, and this is the path the
    seek across text nodes misses: take a text node made of ordinary
    characters only
    (significant, not whitespace, not zero-width; single code units that are
    not surrogates, or surrogate pairs), a scanner constructed on a character
    boundary of it, not under rt in ruby, and a length [n] that stays inside
    the node: at most as many characters as the node has after the start when
    [n] is positive, before it when [n] is negative.  Then [seek(n)] ends with
    remainder 0 on the same node, [|n|] characters further, and [seek(-n)]
    from there ends with remainder 0 on the same node at the starting
    offset. *)
Theorem ordinary_round_trip :
  forall (doc : Node) (textNode : NodeRef) (cs : list jsstring) (i : nat) (n : Z)
         (forcePreserveWhitespace generateLayoutContent : bool),
    getNode doc textNode = Some (Text (List.concat cs)) ->
    forallb ordinaryCharacter cs = true ->
    getParentRubyElement doc textNode = None ->
    (i <= List.length cs)%nat ->
    - Z.of_nat i <= n <= Z.of_nat (List.length cs) - Z.of_nat i ->
    exists r1 r2,
      seek doc (constructor doc textNode (offsetOf cs i) forcePreserveWhitespace
                            generateLayoutContent) n = Some r1 /\
      _remainder r1 = 0 /\
      _node r1 = textNode /\
      _offset r1 = offsetOf cs (Z.to_nat (Z.of_nat i + n)) /\
      seek doc r1 (- n) = Some r2 /\
      _remainder r2 = 0 /\
      _node r2 = textNode /\
      _offset r2 = offsetOf cs i.
Proof.
  intros doc textNode cs i n fpw glc Hnode Hall Hruby Hi Hrange.
  rewrite (constructor_plain _ _ _ _ _ Hruby).
  set (start := {| _node := textNode; _offset := offsetOf cs i; _content := [];
                   _remainder := 0; _resetOffset := false; _newlines := 0;
                   _lineHasWhitespace := false; _lineHasContent := false;
                   _forcePreserveWhitespace := fpw;
                   _generateLayoutContent := glc |}).
  destruct (Z.eq_dec n 0) as [->|Hnz].
  { exists (set_remainder 0 start), (set_remainder 0 (set_remainder 0 start)).
    simpl. rewrite Z.add_0_r, Nat2Z.id. repeat split; reflexivity. }
  destruct (ordinary_seek doc textNode cs start i n Hnode Hall)
    as [r1 [H1 [R1 [N1 [Ro1 [P1 [O1 _]]]]]]];
    try reflexivity; try assumption.
  { split; [simpl; lia|reflexivity]. }
  destruct (ordinary_seek doc textNode cs r1 (Z.to_nat (Z.of_nat i + n)) (- n)
              Hnode Hall)
    as [r2 [H2 [R2 [N2 [_ [_ [O2 _]]]]]]];
    try assumption; try lia.
  exists r1, r2. split; [exact H1|]. split; [exact R1|]. split; [exact N1|].
  split; [exact O1|]. split; [exact H2|]. split; [exact R2|].
  split; [exact N2|]. rewrite O2. f_equal. lia.
Qed.

Lemma ordinary_round_trip_witness :
  exists r1 r2,
    seek docHello (constructor docHello helloText (offsetOf helloChars 1) false true) 2
    = Some r1 /\
    _remainder r1 = 0 /\
    _node r1 = helloText /\
    _offset r1 = offsetOf helloChars (Z.to_nat (Z.of_nat 1 + 2)) /\
    seek docHello r1 (- (2)) = Some r2 /\
    _remainder r2 = 0 /\
    _node r2 = helloText /\
    _offset r2 = offsetOf helloChars 1.
Proof.
  apply (ordinary_round_trip docHello helloText helloChars 1 2 false true).
  - reflexivity.
  - reflexivity.
  - reflexivity.
  - simpl. lia.
  - simpl. lia.
Defined.

(* ------------------------------------------------------------------ *)
(** ** What skipped elements contain does not matter *)

Lemma Forall2_nth_error :
  forall (A : Type) (R : A -> A -> Prop) (l l' : list A) (i : nat),
    Forall2 R l l' ->
    match nth_error l i, nth_error l' i with
    | Some x, Some y => R x y
    | None, None => True
    | _, _ => False
    end.
Proof.
  intros A R l l' i H. revert i.
  induction H as [|x y l l' Hxy H IH]; intros [|i]; simpl; auto.
  apply IH.
Qed.

(** The nodes at a position outside the skipped elements correspond. *)
Lemma getNode_same :
  forall doc doc' ref,
    SameOutside doc doc' ->
    outsideSkipped doc ref ->
    match getNode doc ref, getNode doc' ref with
    | Some n, Some n' => SameOutside n n'
    | None, None => True
    | _, _ => False
    end.
Proof.
  intros doc doc' ref Hsame. induction ref as [|i parent IH]; intros Hout.
  - exact Hsame.
  - assert (Hparent : outsideSkipped doc parent).
    { intros e He Hanc. apply (Hout e He).
      apply (strictAncestor_below e parent [] i). right. exact Hanc. }
    specialize (IH Hparent). cbn [getNode].
    destruct (getNode doc parent) as [m|] eqn:Hm;
      destruct (getNode doc' parent) as [m'|] eqn:Hm'; try contradiction;
        [|exact I].
    inversion IH as [v|name style cs cs' Hskip|name style cs cs' Hcs|cs cs' Hcs];
      subst; cbn [children].
    + destruct i; exact I.
    + exfalso. apply (Hout parent).
      * exists name, style, cs. split; [exact Hm|exact Hskip].
      * exists [i]. split; [discriminate|reflexivity].
    + apply Forall2_nth_error. exact Hcs.
    + apply Forall2_nth_error. exact Hcs.
Qed.

Lemma SameOutside_shallow :
  forall n n',
    SameOutside n n' ->
    nodeTypeOf n = nodeTypeOf n' /\
    match n, n' with
    | Text v, Text v' => v = v'
    | Element name style _, Element name' style' _ =>
      name = name' /\ style = style'
    | Other _, Other _ => True
    | _, _ => False
    end.
Proof.
  intros n n' H. inversion H; subst; simpl; auto.
Qed.

Lemma nodeType_same :
  forall doc doc' ref,
    SameOutside doc doc' -> outsideSkipped doc ref ->
    nodeType doc' ref = nodeType doc ref.
Proof.
  intros doc doc' ref Hsame Hout.
  pose proof (getNode_same doc doc' ref Hsame Hout) as H. unfold nodeType.
  destruct (getNode doc ref) as [n|]; destruct (getNode doc' ref) as [n'|];
    try contradiction; [|reflexivity].
  symmetry. apply SameOutside_shallow. exact H.
Qed.

Lemma isNode_same :
  forall doc doc' ref,
    SameOutside doc doc' -> outsideSkipped doc ref ->
    isNode doc' ref = isNode doc ref.
Proof.
  intros doc doc' ref Hsame Hout.
  pose proof (getNode_same doc doc' ref Hsame Hout) as H. unfold isNode.
  destruct (getNode doc ref) as [n|]; destruct (getNode doc' ref) as [n'|];
    try contradiction; reflexivity.
Qed.

Lemma nodeValueOf_same :
  forall doc doc' ref,
    SameOutside doc doc' -> outsideSkipped doc ref ->
    nodeValueOf doc' ref = nodeValueOf doc ref.
Proof.
  intros doc doc' ref Hsame Hout.
  pose proof (getNode_same doc doc' ref Hsame Hout) as H. unfold nodeValueOf.
  destruct (getNode doc ref) as [n|]; destruct (getNode doc' ref) as [n'|];
    try contradiction; [|reflexivity].
  inversion H; subst; reflexivity.
Qed.

Lemma elementSeekInfo_same :
  forall doc doc' ref,
    SameOutside doc doc' -> outsideSkipped doc ref ->
    elementSeekInfo doc' ref = elementSeekInfo doc ref.
Proof.
  intros doc doc' ref Hsame Hout.
  pose proof (getNode_same doc doc' ref Hsame Hout) as H. unfold elementSeekInfo.
  destruct (getNode doc ref) as [n|]; destruct (getNode doc' ref) as [n'|];
    try contradiction; [|reflexivity].
  inversion H; subst; reflexivity.
Qed.

Lemma outsideSkipped_parent :
  forall doc i parent, outsideSkipped doc (i :: parent) -> outsideSkipped doc parent.
Proof.
  intros doc i parent Hout e He Hanc. apply (Hout e He).
  apply (strictAncestor_below e parent [] i). right. exact Hanc.
Qed.

Lemma outsideSkipped_sibling :
  forall doc i j parent,
    outsideSkipped doc (i :: parent) -> outsideSkipped doc (j :: parent).
Proof.
  intros doc i j parent Hout e He Hanc. apply (Hout e He).
  apply (strictAncestor_below e parent [] i).
  apply strictAncestor_cons in Hanc. exact Hanc.
Qed.

(** A child of an enterable element lies outside the skipped elements when
    the element does. *)
Lemma outsideSkipped_child :
  forall doc k node,
    outsideSkipped doc node ->
    fst (elementSeekInfo doc node) = true ->
    outsideSkipped doc (k :: node).
Proof.
  intros doc k node Hout Hen e He Hanc.
  apply strictAncestor_cons in Hanc as [->|Hanc]; [|exact (Hout e He Hanc)].
  rewrite (skippedElement_not_enterable _ _ He) in Hen. discriminate.
Qed.

Lemma getParentElement_same :
  forall doc doc' node,
    SameOutside doc doc' -> outsideSkipped doc node ->
    getParentElement doc' node = getParentElement doc node /\
    forall q, getParentElement doc node = Some q -> outsideSkipped doc q.
Proof.
  intros doc doc' node Hsame. induction node as [|i parent IH]; intros Hout;
    cbn [getParentElement]; rewrite (nodeType_same _ _ _ Hsame Hout).
  - split; [reflexivity|].
    destruct (nodeType doc []); intros q Hq; try discriminate.
    injection Hq as <-. exact Hout.
  - destruct (IH (outsideSkipped_parent _ _ _ Hout)) as [IH1 IH2].
    destruct (nodeType doc (i :: parent)); try (split; assumption).
    split; [reflexivity|]. intros q Hq. injection Hq as <-. exact Hout.
Qed.

Lemma getWhitespaceSettings_same :
  forall doc doc' this textNode,
    SameOutside doc doc' -> outsideSkipped doc textNode ->
    _getWhitespaceSettings doc' this textNode
    = _getWhitespaceSettings doc this textNode.
Proof.
  intros doc doc' this textNode Hsame Hout. unfold _getWhitespaceSettings.
  destruct (_forcePreserveWhitespace this); [reflexivity|].
  destruct (getParentElement_same doc doc' textNode Hsame Hout) as [-> Hq].
  destruct (getParentElement doc textNode) as [q|]; [|reflexivity].
  pose proof (getNode_same doc doc' q Hsame (Hq q eq_refl)) as H.
  destruct (getNode doc q) as [n|]; destruct (getNode doc' q) as [n'|];
    try contradiction; [|reflexivity].
  inversion H; subst; reflexivity.
Qed.

Lemma seekTextNode_same :
  forall forward doc doc' this textNode resetOffset,
    SameOutside doc doc' -> outsideSkipped doc textNode ->
    seekTextNode forward doc' this textNode resetOffset
    = seekTextNode forward doc this textNode resetOffset.
Proof.
  intros forward doc doc' this textNode resetOffset Hsame Hout.
  rewrite !seekTextNode_eq.
  rewrite (nodeValueOf_same _ _ _ Hsame Hout).
  rewrite (getWhitespaceSettings_same _ _ _ _ Hsame Hout). reflexivity.
Qed.

(** The upward loop of [getNextNode] exits [node] and ancestors of it, and
    goes the same way in both documents. *)
Lemma exitNodes_same :
  forall doc doc' forward node exited,
    SameOutside doc doc' -> outsideSkipped doc node ->
    Forall (outsideSkipped doc) exited ->
    exitNodes doc' forward node exited = exitNodes doc forward node exited /\
    Forall (outsideSkipped doc) (snd (exitNodes doc forward node exited)).
Proof.
  intros doc doc' forward node exited Hsame. revert exited.
  induction node as [|i parent IH]; intros exited Hout Hex; cbn [exitNodes].
  - assert (Hex' : Forall (outsideSkipped doc) (exited ++ [[]]))
      by (apply Forall_app; split; [exact Hex|constructor; [exact Hout|constructor]]).
    destruct forward; cbn [nextSibling previousSibling]; split;
      try reflexivity; exact Hex'.
  - assert (Hex' : Forall (outsideSkipped doc) (exited ++ [i :: parent]))
      by (apply Forall_app; split; [exact Hex|constructor; [exact Hout|constructor]]).
    assert (Hsib : (if forward then nextSibling doc' (i :: parent)
                    else previousSibling (i :: parent))
                   = (if forward then nextSibling doc (i :: parent)
                      else previousSibling (i :: parent))).
    { destruct forward; [|reflexivity]. cbn [nextSibling].
      rewrite (isNode_same _ _ _ Hsame
                 (outsideSkipped_sibling _ _ (S i) _ Hout)).
      reflexivity. }
    rewrite Hsib.
    destruct (if forward then nextSibling doc (i :: parent)
              else previousSibling (i :: parent)).
    + split; [reflexivity|exact Hex'].
    + apply IH; [exact (outsideSkipped_parent _ _ _ Hout)|exact Hex'].
Qed.

Lemma lastChild_same :
  forall doc doc' node,
    SameOutside doc doc' -> outsideSkipped doc node ->
    fst (elementSeekInfo doc node) = true ->
    lastChild doc' node = lastChild doc node.
Proof.
  intros doc doc' node Hsame Hout Hen.
  pose proof (getNode_same doc doc' node Hsame Hout) as H.
  unfold lastChild. unfold elementSeekInfo in Hen.
  destruct (getNode doc node) as [n|]; destruct (getNode doc' node) as [n'|];
    try contradiction; [|reflexivity].
  inversion H as [v|name style cs cs' Hskip|name style cs cs' Hcs|cs cs' Hcs];
    subst; cbn [children].
  - reflexivity.
  - rewrite (neverEntered_seekInfo name style Hskip) in Hen. discriminate.
  - rewrite (Forall2_length Hcs). reflexivity.
  - rewrite (Forall2_length Hcs). reflexivity.
Qed.

Lemma getNextNode_same :
  forall doc doc' forward visitChildren node,
    SameOutside doc doc' -> outsideSkipped doc node ->
    (visitChildren = true -> fst (elementSeekInfo doc node) = true) ->
    getNextNode doc' node forward visitChildren []
    = getNextNode doc node forward visitChildren [] /\
    Forall (outsideSkipped doc)
           (snd (getNextNode doc node forward visitChildren [])).
Proof.
  intros doc doc' forward visitChildren node Hsame Hout Hen.
  unfold getNextNode.
  destruct (exitNodes_same doc doc' forward node [] Hsame Hout (Forall_nil _))
    as [Hexit Hall].
  destruct visitChildren.
  - specialize (Hen eq_refl).
    assert (Hchild : (if forward then firstChild doc' node else lastChild doc' node)
                     = (if forward then firstChild doc node else lastChild doc node)).
    { destruct forward.
      - unfold firstChild.
        rewrite (isNode_same _ _ _ Hsame (outsideSkipped_child _ O _ Hout Hen)).
        reflexivity.
      - apply lastChild_same; assumption. }
    rewrite Hchild.
    destruct (if forward then firstChild doc node else lastChild doc node).
    + split; [reflexivity|constructor].
    + split; assumption.
  - split; assumption.
Qed.

Lemma exitedNodesLoop_same :
  forall doc doc' exitedNodes this,
    SameOutside doc doc' ->
    Forall (outsideSkipped doc) exitedNodes ->
    exitedNodesLoop doc' exitedNodes this = exitedNodesLoop doc exitedNodes this.
Proof.
  intros doc doc' exitedNodes this Hsame Hall. revert this.
  induction Hall as [|e rest He Hall IH]; intros this; cbn [exitedNodesLoop];
    [reflexivity|].
  rewrite (nodeType_same _ _ _ Hsame He), (elementSeekInfo_same _ _ _ Hsame He).
  destruct (nodeType doc e); try apply IH.
  destruct (elementSeekInfo doc e) as [en nl]. apply IH.
Qed.

Lemma advance_same :
  forall doc doc' forward this node lastNode enterable,
    SameOutside doc doc' -> outsideSkipped doc node ->
    (enterable = true -> fst (elementSeekInfo doc node) = true) ->
    advance doc' forward this node lastNode enterable
    = advance doc forward this node lastNode enterable.
Proof.
  intros doc doc' forward this node lastNode enterable Hsame Hout Hen.
  unfold advance.
  destruct (getNextNode_same doc doc' forward enterable node Hsame Hout Hen)
    as [-> Hall].
  destruct (getNextNode doc node forward enterable []) as [next exited].
  rewrite (exitedNodesLoop_same _ _ _ _ Hsame Hall). reflexivity.
Qed.

(** A round on a node outside the skipped elements is the same round in both
    documents. *)
Lemma seekRound_same :
  forall doc doc' forward this node lastNode resetOffset,
    SameOutside doc doc' -> outsideSkipped doc node ->
    seekRound doc' forward this node lastNode resetOffset
    = seekRound doc forward this node lastNode resetOffset.
Proof.
  intros doc doc' forward this node lastNode resetOffset Hsame Hout.
  unfold seekRound. rewrite (nodeType_same _ _ _ Hsame Hout).
  destruct (nodeType doc node).
  - fold (seekTextNode forward doc' this node resetOffset).
    fold (seekTextNode forward doc this node resetOffset).
    rewrite (seekTextNode_same _ _ _ _ _ _ Hsame Hout).
    destruct (seekTextNode forward doc this node resetOffset)
      as [[t [|]]|]; try reflexivity.
    rewrite (advance_same doc doc'); [reflexivity|assumption|assumption|].
    discriminate.
  - rewrite (elementSeekInfo_same _ _ _ Hsame Hout).
    destruct (elementSeekInfo doc node) as [en nl] eqn:Hinfo.
    rewrite (advance_same doc doc'); [reflexivity|assumption|assumption|].
    intros ->. rewrite Hinfo. reflexivity.
  - rewrite (advance_same doc doc'); [reflexivity|assumption|assumption|].
    discriminate.
Qed.

(** The node a round moves to lies outside the skipped elements when the
    node it leaves does. *)
Lemma seekRound_outside :
  forall doc forward this node lastNode resetOffset this' node' lastNode',
    outsideSkipped doc node ->
    seekRound doc forward this node lastNode resetOffset
    = Some (Next this' (Some node') lastNode') ->
    outsideSkipped doc node'.
Proof.
  intros doc forward this node lastNode resetOffset this' node' lastNode'
         Hout Hr.
  destruct (seekRound_next _ _ _ _ _ _ _ _ _ Hr) as [[vc [ex [Hg Hvc]]] _].
  apply getNextNode_shape in Hg as [[-> [k ->]]|[pre [i [j [q [-> ->]]]]]].
  - apply outsideSkipped_child; [exact Hout|]. apply Hvc. reflexivity.
  - intros e He Hanc. apply (Hout e He).
    apply strictAncestor_below. apply strictAncestor_cons in Hanc. exact Hanc.
Qed.

Lemma seekLoop_same :
  forall doc doc' forward fuel this node lastNode resetOffset,
    SameOutside doc doc' -> outsideSkipped doc node ->
    seekLoop fuel doc' forward this node lastNode resetOffset
    = seekLoop fuel doc forward this node lastNode resetOffset.
Proof.
  intros doc doc' forward fuel. induction fuel as [|fuel IH];
    intros this node lastNode resetOffset Hsame Hout; cbn [seekLoop];
    [reflexivity|].
  rewrite (seekRound_same _ _ _ _ _ _ _ Hsame Hout).
  destruct (seekRound doc forward this node lastNode resetOffset)
    as [[this' lastNode'|this' [node'|] lastNode']|] eqn:Hr; try reflexivity.
  apply IH; [exact Hsame|].
  eapply seekRound_outside; eassumption.
Qed.

(** More fuel does not change the result of the loop. *)
Lemma seekLoop_fuel :
  forall doc forward fuel fuel' this node lastNode resetOffset r,
    seekLoop fuel doc forward this node lastNode resetOffset = Some r ->
    (fuel <= fuel')%nat ->
    seekLoop fuel' doc forward this node lastNode resetOffset = Some r.
Proof.
  intros doc forward fuel. induction fuel as [|fuel IH];
    intros fuel' this node lastNode resetOffset r H Hle; cbn [seekLoop] in H;
    [discriminate|].
  destruct fuel' as [|fuel']; [lia|]. cbn [seekLoop].
  destruct (seekRound doc forward this node lastNode resetOffset)
    as [[this' lastNode'|this' [node'|] lastNode']|]; try exact H.
  apply IH; [exact H|lia].
Qed.

(** Seeking from outside the skipped elements gives the same result in two
    documents that differ only inside them. *)
Lemma seek_same :
  forall doc doc' this length,
    SameOutside doc doc' ->
    outsideSkipped doc (_node this) ->
    validStart doc this ->
    seek doc' this length = seek doc this length.
Proof.
  intros doc doc' this length Hsame Hout [Hnode Hoff].
  destruct (Z.eq_dec length 0) as [->|Hnz]; [reflexivity|].
  destruct (seek_nonzero doc this length Hnz) as [-> _].
  destruct (seek_nonzero doc' this length Hnz) as [-> _].
  set (forward := length >=? 0).
  set (this0 := set_remainder (Z.abs length) this).
  assert (Hrem : 1 <= _remainder this0) by (unfold this0; simpl; lia).
  destruct (seekLoop_ok doc forward (size doc) this0 (_node this) (_node this)
              (_resetOffset this) Hnode (rounds_le_size _ _ _ Hnode) Hrem Hoff)
    as [r [Hr _]].
  assert (Hnode' : isNode doc' (_node this) = true)
    by (rewrite (isNode_same _ _ _ Hsame Hout); exact Hnode).
  assert (Hoff' : nodeType doc' (_node this) = TEXT_NODE ->
                  _resetOffset this = false ->
                  (_offset this0 <= List.length (nodeValueOf doc' (_node this)))%nat).
  { rewrite (nodeType_same _ _ _ Hsame Hout), (nodeValueOf_same _ _ _ Hsame Hout).
    exact Hoff. }
  destruct (seekLoop_ok doc' forward (size doc') this0 (_node this) (_node this)
              (_resetOffset this) Hnode' (rounds_le_size _ _ _ Hnode') Hrem Hoff')
    as [r' [Hr' _]].
  rewrite Hr, Hr'. f_equal.
  pose proof (seekLoop_fuel _ _ _ (Nat.max (size doc) (size doc')) _ _ _ _ _ Hr'
                (Nat.le_max_r _ _)) as H1.
  rewrite (seekLoop_same _ _ _ _ _ _ _ _ Hsame Hout) in H1.
  pose proof (seekLoop_fuel _ _ _ (Nat.max (size doc) (size doc')) _ _ _ _ _ Hr
                (Nat.le_max_l _ _)) as H2.
  congruence.
Qed.

(** C8: a head, rt, script or style element [e] of the document is never
    entered, in either direction.  Its seek information is not enterable with
    0 newlines.  A node inside [e] is handled by [seek] only when the scan
    started inside [e].  And what such elements contain does not reach the
    result: from a start outside them, [seek] gives the same scanner, content
    included, in every document that differs only inside its head, rt,
    script and style elements. *)
Theorem skipped_elements_never_entered :
  forall (doc : Node) (this : DOMTextScanner) (length : Z) (e : NodeRef),
    skippedElement doc e ->
    elementSeekInfo doc e = (false, 0) /\
    (forall v,
        In v (visited doc this length) ->
        strictAncestor e v -> strictAncestor e (_node this)) /\
    (forall doc',
        SameOutside doc doc' ->
        outsideSkipped doc (_node this) ->
        validStart doc this ->
        seek doc' this length = seek doc this length).
Proof.
  intros doc this length e He.
  split; [apply skippedElement_not_enterable; exact He|].
  split; [|intros doc'; apply seek_same].
  intros v Hin Hanc. unfold visited in Hin.
  destruct (length =? 0); [contradiction|].
  eapply seekVisited_skipped; [|exact Hin|exact He|exact Hanc].
  intros e' _ H. exact H.
Qed.

Lemma docScript_same : SameOutside docScript docScript'.
Proof.
  unfold docScript, docScript'.
  apply SameOther. constructor; [|constructor].
  apply SameElement. constructor; [|constructor].
  apply SameElement.
  constructor; [apply SameElement; repeat constructor|].
  constructor; [apply SameSkipped; reflexivity|].
  constructor; [apply SameElement; repeat constructor|constructor].
Qed.

Lemma outsideSkipped_root : forall doc, outsideSkipped doc [].
Proof.
  intros doc e _ [below [Hne Heq]].
  destruct below; [contradiction|discriminate].
Qed.

Lemma outsideSkipped_cons :
  forall doc i parent,
    outsideSkipped doc parent -> ~ skippedElement doc parent ->
    outsideSkipped doc (i :: parent).
Proof.
  intros doc i parent Hout Hnot e He Hanc.
  apply strictAncestor_cons in Hanc as [->|Hanc];
    [contradiction|exact (Hout e He Hanc)].
Qed.

Lemma aText_outside : outsideSkipped docScript aText.
Proof.
  unfold aText.
  repeat (apply outsideSkipped_cons;
          [|intros [name [style [cs [Hn Hskip]]]]; vm_compute in Hn;
            try discriminate Hn; injection Hn as <- _ _; discriminate Hskip]).
  apply outsideSkipped_root.
Qed.

Lemma skipped_elements_never_entered_witness :
  skippedElement docScript scriptElement /\
  elementSeekInfo docScript scriptElement = (false, 0) /\
  (forall v,
      In v (visited docScript (constructor docScript aText 0 false true) 3) ->
      strictAncestor scriptElement v ->
      strictAncestor scriptElement (_node (constructor docScript aText 0 false true))) /\
  seek docScript' (constructor docScript aText 0 false true) 3
  = seek docScript (constructor docScript aText 0 false true) 3.
Proof.
  assert (H : skippedElement docScript scriptElement).
  { exists "SCRIPT", blockStyle, [Text (js "x")]. split; reflexivity. }
  split; [exact H|].
  destruct (skipped_elements_never_entered
              docScript (constructor docScript aText 0 false true) 3
              scriptElement H) as [H1 [H2 H3]].
  split; [exact H1|]. split; [exact H2|].
  apply H3.
  - exact docScript_same.
  - exact aText_outside.
  - split; [reflexivity|]. intros _ _. simpl. lia.
Defined.

(** In [<p>a</p><script>x</script><p>b</p>] the text of the script is passed
    over in both directions, and the script element adds no newline of its
    own: the one newline comes from the paragraphs. *)
Lemma script_text_skipped :
  (exists r,
      seek docScript (constructor docScript aText 0 false true) 3 = Some r /\
      _content r = js "a" ++ [newline] ++ js "b" /\ _remainder r = 0) /\
  (exists r,
      seek docScript (constructor docScript bText 1 false true) (-3) = Some r /\
      _content r = js "a" ++ [newline] ++ js "b" /\ _remainder r = 0) /\
  ~ In scriptText (visited docScript (constructor docScript aText 0 false true) 3) /\
  ~ In scriptText (visited docScript (constructor docScript bText 1 false true) (-3)).
Proof.
  split; [eexists; split; [vm_compute; reflexivity|split; reflexivity]|].
  split; [eexists; split; [vm_compute; reflexivity|split; reflexivity]|].
  split; vm_compute; intuition discriminate.
Qed.

(* ------------------------------------------------------------------ *)
(** ** Seeking again *)

Lemma seekRound_break_offset :
  forall doc forward this node lastNode resetOffset this' lastNode',
    1 <= _remainder this ->
    (nodeType doc node = TEXT_NODE -> resetOffset = false ->
     (_offset this <= List.length (nodeValueOf doc node))%nat) ->
    seekRound doc forward this node lastNode resetOffset
    = Some (Break this' lastNode') ->
    lastNode' = node /\ nodeType doc node = TEXT_NODE /\
    (_offset this' <= List.length (nodeValueOf doc node))%nat.
Proof.
  intros doc forward this node lastNode resetOffset this' lastNode' Hrem Hoff H.
  unfold seekRound in H. destruct (nodeType doc node) eqn:Ht.
  - fold (seekTextNode forward doc this node resetOffset) in H.
    destruct (seekTextNode_ok forward doc this node resetOffset (Hoff eq_refl) Hrem)
      as [t [Hs [_ [_ [_ [Ho _]]]]]].
    rewrite Hs in H. destruct (0 <? _remainder t).
    + unfold advance in H. destruct (getNextNode _ _ _ _ _). discriminate.
    + injection H as <- <-. split; [reflexivity|]. split; [reflexivity|exact Ho].
  - destruct (elementSeekInfo doc node) as [en nl].
    unfold advance in H. destruct (getNextNode _ _ _ _ _). discriminate.
  - unfold advance in H. destruct (getNextNode _ _ _ _ _). discriminate.
Qed.

Lemma seekLoop_validStart :
  forall doc forward fuel this node lastNode resetOffset r,
    isNode doc node = true ->
    isNode doc lastNode = true ->
    1 <= _remainder this ->
    (nodeType doc node = TEXT_NODE -> resetOffset = false ->
     (_offset this <= List.length (nodeValueOf doc node))%nat) ->
    seekLoop fuel doc forward this node lastNode resetOffset = Some r ->
    validStart doc r.
Proof.
  intros doc forward fuel. induction fuel as [|fuel IH];
    intros this node lastNode resetOffset r Hnode Hlast Hrem Hoff H;
    cbn [seekLoop] in H; [discriminate|].
  destruct (seekRound doc forward this node lastNode resetOffset)
    as [[this' lastNode'|this' next lastNode']|] eqn:Hr; [| |discriminate].
  - destruct (seekRound_break_offset _ _ _ _ _ _ _ _ Hrem Hoff Hr)
      as [-> [Ht Ho]].
    injection H as <-. unfold validStart, finish. simpl.
    split; [exact Hnode|]. intros _ _. exact Ho.
  - destruct (seekRound_next _ _ _ _ _ _ _ _ _ Hr) as [[vc [ex [Hg _]]] Hl].
    assert (Hlast' : isNode doc lastNode' = true)
      by (rewrite Hl; destruct (nodeType doc node); assumption).
    destruct next as [node'|].
    + destruct (getNextNode_decreases _ _ _ _ _ _ Hnode Hg) as [Hnode' _].
      apply (IH this' node' lastNode' true r Hnode' Hlast');
        [|discriminate|exact H].
      eapply seekRound_continue; eassumption.
    + injection H as <-. unfold validStart, finish. simpl.
      split; [exact Hlast'|]. intros _ Hfalse. discriminate Hfalse.
Qed.

(** X1: a scanner that [seek] returns is again at a position of the
    document: what is proved of one call holds for every call of a chain. *)
Lemma seek_validStart :
  forall doc this length r,
    validStart doc this -> seek doc this length = Some r -> validStart doc r.
Proof.
  intros doc this length r Hvalid H.
  destruct (Z.eq_dec length 0) as [->|Hnz].
  { injection H as <-. exact Hvalid. }
  destruct Hvalid as [Hnode Hoff].
  destruct (seek_nonzero doc this length Hnz) as [Hseek _].
  rewrite Hseek in H.
  apply (seekLoop_validStart doc (length >=? 0) (size doc)
           (set_remainder (Z.abs length) this) (_node this) (_node this)
           (_resetOffset this) r Hnode Hnode); [simpl; lia|exact Hoff|exact H].
Qed.

(** C6: the round trip fails across text nodes.  In a paragraph made of the
    two adjacent text nodes ["ab"] and ["cd"], ordinary characters with no
    element between them, [seek(3)] from the start of ["ab"] ends with
    remainder 0 inside ["cd"], at offset 1, and leaves [_resetOffset] set:
    the loop of [seek] sets [resetOffset] at the end of every round and stores
    it after a [break] in a later node as well.  So [seek(-3)] does not go on
    from offset 1: it starts afresh from the end of ["cd"], reads ["bcd"], and
    ends with remainder 0 at offset 1 of ["ab"], not at the starting offset
    0.  A seek that ends in the node it started in stores [_resetOffset]
    unset, and there the round trip holds ([ordinary_round_trip]). *)
Theorem round_trip_across_text_nodes :
  exists r1 r2,
    seek docTwoTexts (constructor docTwoTexts [0; 0]%nat 0 false true) 3 = Some r1 /\
    _remainder r1 = 0 /\ _node r1 = [1; 0]%nat /\ _offset r1 = 1%nat /\
    _resetOffset r1 = true /\ _content r1 = js "abc" /\
    seek docTwoTexts r1 (-3) = Some r2 /\
    _remainder r2 = 0 /\ _node r2 = [0; 0]%nat /\ _offset r2 = 1%nat /\
    _content r2 = js "bcdabc".
Proof.
  eexists. eexists. split; [vm_compute; reflexivity|].
  do 5 (split; [reflexivity|]).
  split; [vm_compute; reflexivity|]. repeat split; reflexivity.
Qed.

(* ================================================================== *)
(** * Further properties of the scanner *)

(* ------------------------------------------------------------------ *)
(** ** When the offset does not matter *)

(** A round on an element, or on a text node whose offset is to be reset,
    does not read the offset the scanner holds. *)
Lemma seekRound_ignores_offset :
  forall doc forward this node lastNode resetOffset (k : nat),
    nodeType doc node = ELEMENT_NODE \/
    (nodeType doc node = TEXT_NODE /\ resetOffset = true) ->
    seekRound doc forward (set_offset k this) node lastNode resetOffset
    = seekRound doc forward this node lastNode resetOffset.
Proof.
  intros doc forward this node lastNode resetOffset k [Ht|[Ht ->]];
    unfold seekRound; rewrite Ht.
  - reflexivity.
  - destruct forward; reflexivity.
Qed.

(** A round on an element does not read [resetOffset] either, and never
    leaves the loop by [break]. *)
Lemma seekRound_element :
  forall doc forward this node lastNode,
    nodeType doc node = ELEMENT_NODE ->
    exists this' next,
      forall k ro,
        seekRound doc forward (set_offset k this) node lastNode ro
        = Some (Next this' next node).
Proof.
  intros doc forward this node lastNode Ht.
  unfold seekRound. rewrite Ht.
  destruct (elementSeekInfo doc node) as [en nl].
  destruct (advance_ok doc forward (raiseNewlines nl (set_offset O this))
                       node node en) as [next [ex [Hg Ha]]].
  eexists. exists next. intros k ro.
  change (set_offset O (set_offset k this)) with (set_offset O this).
  rewrite Ha. reflexivity.
Qed.

Lemma seekLoop_ignores_offset :
  forall doc forward fuel this node lastNode resetOffset (k : nat),
    nodeType doc node = ELEMENT_NODE \/
    (nodeType doc node = TEXT_NODE /\ resetOffset = true) ->
    seekLoop fuel doc forward (set_offset k this) node lastNode resetOffset
    = seekLoop fuel doc forward this node lastNode resetOffset.
Proof.
  intros doc forward fuel this node lastNode resetOffset k H.
  destruct fuel as [|fuel]; [reflexivity|]. cbn [seekLoop].
  rewrite (seekRound_ignores_offset _ _ _ _ _ _ k H). reflexivity.
Qed.

(** X2: for a non-zero length, [seek] does not depend on the offset the
    scanner holds when its node is an element, or a text node with
    [_resetOffset] set (as it is after a seek that went on into another
    node): the scan restarts from the edge of the node. *)
Theorem seek_ignores_offset :
  forall (doc : Node) (this : DOMTextScanner) (length : Z) (k : nat),
    length <> 0 ->
    nodeType doc (_node this) = ELEMENT_NODE \/
    (nodeType doc (_node this) = TEXT_NODE /\ _resetOffset this = true) ->
    seek doc (set_offset k this) length = seek doc this length.
Proof.
  intros doc this length k Hnz H.
  destruct (seek_nonzero doc this length Hnz) as [-> _].
  destruct (seek_nonzero doc (set_offset k this) length Hnz) as [-> _].
  apply (seekLoop_ignores_offset doc (length >=? 0) (size doc)
           (set_remainder (Z.abs length) this) (_node this) (_node this)
           (_resetOffset this) k H).
Qed.

(* ------------------------------------------------------------------ *)
(** ** Parent elements and ruby *)

Lemma ancestorOrSelf_cons :
  forall q i parent,
    ancestorOrSelf q (i :: parent) -> q = i :: parent \/ ancestorOrSelf q parent.
Proof.
  intros q i parent [below H]. destruct below as [|b below].
  - left. symmetry. exact H.
  - right. exists below. simpl in H. injection H as _ H. exact H.
Qed.

(** X3: [getParentElement] returns the nearest element on the way from
    the node to the root, the node itself included: the result is an element,
    it is the node or an ancestor of it, and every element that is the node
    or an ancestor of it is the result or an ancestor of the result.  It
    returns [null] exactly when there is no element on that way. *)
Theorem getParentElement_nearest :
  forall (doc : Node) (node : NodeRef),
    match getParentElement doc node with
    | Some e =>
      nodeType doc e = ELEMENT_NODE /\
      ancestorOrSelf e node /\
      forall q, ancestorOrSelf q node -> nodeType doc q = ELEMENT_NODE ->
                ancestorOrSelf q e
    | None =>
      forall q, ancestorOrSelf q node -> nodeType doc q <> ELEMENT_NODE
    end.
Proof.
  intros doc node. induction node as [|i parent IH]; cbn [getParentElement].
  - destruct (nodeType doc []) eqn:Ht.
    + intros q [below H]. destruct below; [|discriminate].
      simpl in H. subst q. rewrite Ht. discriminate.
    + split; [exact Ht|]. split; [exists []; reflexivity|].
      intros q Hq _. exact Hq.
    + intros q [below H]. destruct below; [|discriminate].
      simpl in H. subst q. rewrite Ht. discriminate.
  - assert (Hstep :
              nodeType doc (i :: parent) <> ELEMENT_NODE ->
              match getParentElement doc parent with
              | Some e =>
                nodeType doc e = ELEMENT_NODE /\
                ancestorOrSelf e (i :: parent) /\
                (forall q, ancestorOrSelf q (i :: parent) ->
                           nodeType doc q = ELEMENT_NODE -> ancestorOrSelf q e)
              | None =>
                forall q, ancestorOrSelf q (i :: parent) ->
                          nodeType doc q <> ELEMENT_NODE
              end).
    { intros Hne. destruct (getParentElement doc parent) as [e|].
      - destruct IH as [He [[below Hb] Hnear]]. split; [exact He|]. split.
        + exists (i :: below). rewrite Hb. reflexivity.
        + intros q Hq Hel. apply ancestorOrSelf_cons in Hq as [->|Hq];
            [contradiction|]. apply Hnear; assumption.
      - intros q Hq. apply ancestorOrSelf_cons in Hq as [->|Hq];
          [exact Hne|apply IH; exact Hq]. }
    destruct (nodeType doc (i :: parent)) eqn:Ht.
    + apply Hstep. discriminate.
    + split; [exact Ht|]. split; [exists []; reflexivity|].
      intros q Hq _. exact Hq.
    + apply Hstep. discriminate.
Qed.

Lemma nodeName_element :
  forall doc node (name : string),
    toUpperCase (nodeNameOf doc node) = name ->
    String.get 0 name <> Some "#"%char ->
    nodeType doc node = ELEMENT_NODE.
Proof.
  intros doc node name Hname Hfirst. unfold nodeNameOf, nodeType in *.
  destruct (getNode doc node) as [[v|n style cs|cs]|]; try reflexivity;
    subst name; exfalso; apply Hfirst; reflexivity.
Qed.

(** What [getParentRubyElement] finds is a ruby element, the parent of the rt
    element nearest to the node. *)
Lemma getParentRubyElement_Some :
  forall doc node ruby,
    getParentRubyElement doc node = Some ruby ->
    nodeType doc ruby = ELEMENT_NODE /\
    toUpperCase (nodeNameOf doc ruby) = "RUBY" /\
    exists i,
      getParentElement doc node = Some (i :: ruby) /\
      toUpperCase (nodeNameOf doc (i :: ruby)) = "RT".
Proof.
  intros doc node ruby H. unfold getParentRubyElement in H.
  destruct (getParentElement doc node) as [rt|] eqn:Hrt; [|discriminate].
  destruct (String.eqb (toUpperCase (nodeNameOf doc rt)) "RT") eqn:Hname;
    [|discriminate].
  destruct rt as [|i parent]; cbn [parentNode] in H; [discriminate|].
  destruct (String.eqb (toUpperCase (nodeNameOf doc parent)) "RUBY") eqn:Hruby;
    [|discriminate].
  injection H as <-.
  apply String.eqb_eq in Hname. apply String.eqb_eq in Hruby.
  split; [|split; [exact Hruby|exists i; split; [reflexivity|exact Hname]]].
  apply (nodeName_element doc parent "RUBY" Hruby). discriminate.
Qed.

Lemma getParentRubyElement_of_ruby :
  forall doc ruby,
    nodeType doc ruby = ELEMENT_NODE ->
    toUpperCase (nodeNameOf doc ruby) = "RUBY" ->
    getParentRubyElement doc ruby = None.
Proof.
  intros doc ruby Ht Hname. unfold getParentRubyElement.
  assert (Hp : getParentElement doc ruby = Some ruby)
    by (destruct ruby; cbn [getParentElement]; rewrite Ht; reflexivity).
  rewrite Hp, Hname. reflexivity.
Qed.

(** No step of a seek reads the field [_resetOffset]: the loop works on its
    own copy and writes the field back at the end. *)
Lemma pendingNewlines_resetOffset :
  forall forward this char (b : bool),
    pendingNewlines forward (set_resetOffset b this) char
    = (set_resetOffset b (fst (pendingNewlines forward this char)),
       snd (pendingNewlines forward this char)).
Proof.
  intros forward this char b. unfold pendingNewlines. simpl.
  destruct (0 <? _newlines this); [|reflexivity].
  destruct (0 <? Z.of_nat (List.length (_content this))); simpl.
  - destruct (_remainder this - Z.min (_remainder this) (_newlines this) <=? 0);
      reflexivity.
  - destruct (_remainder this <=? 0); reflexivity.
Qed.

Lemma pendingWhitespace_resetOffset :
  forall forward this char (b : bool),
    pendingWhitespace forward (set_resetOffset b this) char
    = (set_resetOffset b (fst (pendingWhitespace forward this char)),
       snd (pendingWhitespace forward this char)).
Proof.
  intros forward this char b. unfold pendingWhitespace. simpl.
  destruct (_lineHasWhitespace this); [|reflexivity].
  destruct (_lineHasContent this); [|reflexivity]. simpl.
  destruct (_remainder this - 1 <=? 0); reflexivity.
Qed.

Lemma checkCharacter_resetOffset :
  forall forward this char charAttributes (b : bool),
    checkCharacter forward (set_resetOffset b this) char charAttributes
    = (set_resetOffset b (fst (checkCharacter forward this char charAttributes)),
       snd (checkCharacter forward this char charAttributes)).
Proof.
  intros forward this char a b. unfold checkCharacter.
  destruct (a =? 1); [reflexivity|].
  destruct ((a =? 2) || (a =? 3)); [|reflexivity].
  rewrite pendingNewlines_resetOffset.
  destruct (pendingNewlines forward this char) as [c1 [|]]; cbn [fst snd];
    [reflexivity|].
  change (set_lineHasContent (a =? 2) (set_resetOffset b c1))
    with (set_resetOffset b (set_lineHasContent (a =? 2) c1)).
  rewrite pendingWhitespace_resetOffset.
  destruct (pendingWhitespace forward (set_lineHasContent (a =? 2) c1) char)
    as [c2 [|]]; cbn [fst snd]; reflexivity.
Qed.

Lemma seekTextNodeLoop_resetOffset :
  forall forward nodeValue pn pw fuel this (b : bool),
    seekTextNodeLoop forward fuel nodeValue pn pw (set_resetOffset b this)
    = option_map (set_resetOffset b)
                 (seekTextNodeLoop forward fuel nodeValue pn pw this).
Proof.
  intros forward nodeValue pn pw fuel.
  induction fuel as [|fuel IH]; intros this b; cbn [seekTextNodeLoop];
    change (textPending forward nodeValue (set_resetOffset b this))
      with (textPending forward nodeValue this);
    destruct (textPending forward nodeValue this); try reflexivity.
  unfold textRound.
  change (_offset (set_resetOffset b this)) with (_offset this).
  change (moveOffset forward (readCharacter forward nodeValue (_offset this))
                     (set_resetOffset b this))
    with (set_resetOffset b
            (moveOffset forward (readCharacter forward nodeValue (_offset this))
                        this)).
  rewrite checkCharacter_resetOffset.
  destruct (checkCharacter forward _ _ _) as [this' [|]]; cbn [fst snd];
    [reflexivity|apply IH].
Qed.

Lemma seekTextNode_resetOffset :
  forall forward doc this textNode resetOffset (b : bool),
    seekTextNode forward doc (set_resetOffset b this) textNode resetOffset
    = option_map (fun r => (set_resetOffset b (fst r), snd r))
                 (seekTextNode forward doc this textNode resetOffset).
Proof.
  intros forward doc this textNode resetOffset b.
  rewrite !seekTextNode_eq. cbv zeta.
  change (_getWhitespaceSettings doc (set_resetOffset b this) textNode)
    with (_getWhitespaceSettings doc this textNode).
  destruct (_getWhitespaceSettings doc this textNode) as [pn pw].
  set (nodeValue := nodeValueOf doc textNode).
  set (this0 := if resetOffset
                then set_offset (if forward then O else List.length nodeValue) this
                else this).
  assert (H0 : (if resetOffset
                then set_offset (if forward then O else List.length nodeValue)
                                (set_resetOffset b this)
                else set_resetOffset b this) = set_resetOffset b this0)
    by (unfold this0; destruct resetOffset; reflexivity).
  rewrite H0. change (_offset (set_resetOffset b this0)) with (_offset this0).
  rewrite seekTextNodeLoop_resetOffset.
  destruct (seekTextNodeLoop forward _ nodeValue pn pw this0); reflexivity.
Qed.

Lemma raiseNewlines_resetOffset :
  forall newlines this (b : bool),
    raiseNewlines newlines (set_resetOffset b this)
    = set_resetOffset b (raiseNewlines newlines this).
Proof.
  intros newlines this b. unfold raiseNewlines. simpl.
  destruct ((newlines >? _newlines this) && _generateLayoutContent this);
    reflexivity.
Qed.

Lemma exitedNodesLoop_resetOffset :
  forall doc exitedNodes this (b : bool),
    exitedNodesLoop doc exitedNodes (set_resetOffset b this)
    = set_resetOffset b (exitedNodesLoop doc exitedNodes this).
Proof.
  intros doc exitedNodes.
  induction exitedNodes as [|e rest IH]; intros this b; cbn [exitedNodesLoop];
    [reflexivity|].
  destruct (nodeType doc e); try apply IH.
  destruct (elementSeekInfo doc e) as [en nl].
  rewrite raiseNewlines_resetOffset. apply IH.
Qed.

Lemma seekRound_resetOffset :
  forall doc forward this node lastNode resetOffset (b : bool),
    seekRound doc forward (set_resetOffset b this) node lastNode resetOffset
    = match seekRound doc forward this node lastNode resetOffset with
      | Some (Break this' lastNode') =>
        Some (Break (set_resetOffset b this') lastNode')
      | Some (Next this' next lastNode') =>
        Some (Next (set_resetOffset b this') next lastNode')
      | None => None
      end.
Proof.
  intros doc forward this node lastNode resetOffset b.
  unfold seekRound. destruct (nodeType doc node).
  - fold (seekTextNode forward doc (set_resetOffset b this) node resetOffset).
    fold (seekTextNode forward doc this node resetOffset).
    rewrite seekTextNode_resetOffset.
    destruct (seekTextNode forward doc this node resetOffset)
      as [[t [|]]|]; cbn [option_map fst snd]; try reflexivity.
    unfold advance. destruct (getNextNode doc node forward false []).
    rewrite exitedNodesLoop_resetOffset. reflexivity.
  - destruct (elementSeekInfo doc node) as [en nl].
    change (set_offset O (set_resetOffset b this))
      with (set_resetOffset b (set_offset O this)).
    rewrite raiseNewlines_resetOffset.
    unfold advance. destruct (getNextNode doc node forward en []).
    rewrite exitedNodesLoop_resetOffset. reflexivity.
  - unfold advance. destruct (getNextNode doc node forward false []).
    rewrite exitedNodesLoop_resetOffset. reflexivity.
Qed.

Lemma seekLoop_resetOffset :
  forall doc forward fuel this node lastNode resetOffset (b : bool),
    seekLoop fuel doc forward (set_resetOffset b this) node lastNode resetOffset
    = seekLoop fuel doc forward this node lastNode resetOffset.
Proof.
  intros doc forward fuel.
  induction fuel as [|fuel IH]; intros this node lastNode resetOffset b;
    cbn [seekLoop]; [reflexivity|].
  rewrite seekRound_resetOffset.
  destruct (seekRound doc forward this node lastNode resetOffset)
    as [[this' lastNode'|this' [node'|] lastNode']|]; try reflexivity.
  apply IH.
Qed.

(** The loop started on an element reads neither the offset nor
    [resetOffset]. *)
Lemma seekLoop_element_start :
  forall doc forward fuel this node lastNode (k : nat) (ro ro' : bool),
    nodeType doc node = ELEMENT_NODE ->
    seekLoop fuel doc forward (set_offset k this) node lastNode ro
    = seekLoop fuel doc forward this node lastNode ro'.
Proof.
  intros doc forward fuel this node lastNode k ro ro' Ht.
  rewrite (seekLoop_ignores_offset _ _ _ _ _ _ _ k (or_introl Ht)).
  destruct fuel as [|fuel]; [reflexivity|]. cbn [seekLoop].
  destruct (seekRound_element doc forward this node lastNode Ht)
    as [this' [next Hround]].
  pose proof (Hround (_offset this) ro) as H1.
  pose proof (Hround (_offset this) ro') as H2.
  assert (Hthis : set_offset (_offset this) this = this)
    by (destruct this; reflexivity).
  rewrite Hthis in H1, H2. rewrite H1, H2. reflexivity.
Qed.

(** X4: a scanner constructed inside the annotation text of a ruby (under
    an rt element whose parent is a ruby element) is put on the ruby element
    with its offset to be reset, and for every non-zero length it seeks
    exactly as a scanner constructed at the ruby element with offset 0. *)
Theorem ruby_start_normalised :
  forall (doc : Node) (node ruby : NodeRef) (offset : nat)
         (forcePreserveWhitespace generateLayoutContent : bool) (length : Z),
    getParentRubyElement doc node = Some ruby ->
    length <> 0 ->
    _node (constructor doc node offset forcePreserveWhitespace
                       generateLayoutContent) = ruby /\
    _resetOffset (constructor doc node offset forcePreserveWhitespace
                              generateLayoutContent) = true /\
    seek doc (constructor doc node offset forcePreserveWhitespace
                          generateLayoutContent) length
    = seek doc (constructor doc ruby 0 forcePreserveWhitespace
                            generateLayoutContent) length.
Proof.
  intros doc node ruby offset fpw glc length Hruby Hnz.
  destruct (getParentRubyElement_Some _ _ _ Hruby) as [Ht [Hname _]].
  pose proof (getParentRubyElement_of_ruby _ _ Ht Hname) as Hnone.
  rewrite (constructor_plain _ _ _ _ _ Hnone).
  set (atRuby := {| _node := ruby; _offset := O; _content := [];
                    _remainder := 0; _resetOffset := false; _newlines := 0;
                    _lineHasWhitespace := false; _lineHasContent := false;
                    _forcePreserveWhitespace := fpw;
                    _generateLayoutContent := glc |}).
  assert (Hc : constructor doc node offset fpw glc
               = set_resetOffset true (set_offset offset atRuby))
    by (unfold constructor; rewrite Hruby; reflexivity).
  rewrite Hc. cbn [_node _resetOffset set_resetOffset set_offset atRuby].
  split; [reflexivity|]. split; [reflexivity|].
  destruct (seek_nonzero doc atRuby length Hnz) as [-> _].
  destruct (seek_nonzero doc (set_resetOffset true (set_offset offset atRuby))
                         length Hnz) as [-> _].
  change (set_remainder (Z.abs length)
                        (set_resetOffset true (set_offset offset atRuby)))
    with (set_resetOffset true
            (set_offset offset (set_remainder (Z.abs length) atRuby))).
  rewrite seekLoop_resetOffset.
  apply seekLoop_element_start. exact Ht.
Qed.

Lemma ruby_start_normalised_witness :
  _node (constructor docRuby rubyAnnotationText 1 false true) = rubyElement /\
  _resetOffset (constructor docRuby rubyAnnotationText 1 false true) = true /\
  seek docRuby (constructor docRuby rubyAnnotationText 1 false true) 3
  = seek docRuby (constructor docRuby rubyElement 0 false true) 3.
Proof.
  apply (ruby_start_normalised docRuby rubyAnnotationText rubyElement 1
                               false true 3).
  - reflexivity.
  - discriminate.
Defined.

(* ------------------------------------------------------------------ *)
(** ** What the scan enters *)

Lemma seekVisited_enterable :
  forall doc forward start fuel this node lastNode resetOffset,
    (forall e, strictAncestor e node ->
               strictAncestor e start \/ enterableElement doc e) ->
    forall v e,
      In v (seekVisited fuel doc forward this node lastNode resetOffset) ->
      strictAncestor e v ->
      strictAncestor e start \/ enterableElement doc e.
Proof.
  intros doc forward start fuel.
  induction fuel as [|fuel IH]; intros this node lastNode resetOffset Hinv v e Hin;
    cbn [seekVisited] in Hin; [contradiction|].
  destruct Hin as [<-|Hin]; [apply Hinv|].
  destruct (seekRound doc forward this node lastNode resetOffset)
    as [[this' lastNode'|this' [node'|] lastNode']|] eqn:Hr;
    try contradiction.
  revert v e Hin. apply IH.
  intros e Hanc.
  destruct (seekRound_next _ _ _ _ _ _ _ _ _ Hr) as [[vc [ex [Hg Hvc]]] _].
  apply getNextNode_shape in Hg as [[-> [k ->]]|[pre [i [j [q [-> ->]]]]]].
  - apply strictAncestor_cons in Hanc as [->|Hanc]; [|apply Hinv; exact Hanc].
    right. destruct (Hvc eq_refl) as [Ht Hen]. split; assumption.
  - apply Hinv. apply strictAncestor_below.
    apply strictAncestor_cons in Hanc. exact Hanc.
Qed.

(** X5: the loop of [seek] goes down into enterable elements only.
    Every node it handles lies inside elements that [getElementSeekInfo]
    reports enterable, apart from the nodes the scan started inside of: the
    children of a non-enterable element (closed by its tag, or not visible)
    and of a node that is not an element (a comment, the document) are
    never reached from outside. *)
Theorem seek_enters_enterable_only :
  forall (doc : Node) (this : DOMTextScanner) (length : Z) (v e : NodeRef),
    In v (visited doc this length) ->
    strictAncestor e v ->
    strictAncestor e (_node this) \/ enterableElement doc e.
Proof.
  intros doc this length v e Hin Hanc. unfold visited in Hin.
  destruct (length =? 0); [contradiction|].
  eapply seekVisited_enterable; [|exact Hin|exact Hanc].
  intros e' H. left. exact H.
Qed.

Lemma seek_enters_enterable_only_witness :
  strictAncestor [1; 0; 0]%nat (_node scannerAtFoo) \/
  enterableElement docTwoDivs [1; 0; 0]%nat.
Proof.
  apply (seek_enters_enterable_only docTwoDivs scannerAtFoo 7
                                    [0; 1; 0; 0]%nat [1; 0; 0]%nat).
  - vm_compute. right. right. left. reflexivity.
  - exists [0%nat]. split; [discriminate|reflexivity].
Defined.

(** In [docClosed] the button, the invisible division and the comment are
    passed over in both directions. *)
Lemma closed_nodes_passed_over :
  (exists r,
      seek docClosed (constructor docClosed aText 0 false true) 9 = Some r /\
      _content r = js "a" ++ [newline] ++ js "b" /\ _remainder r = 6) /\
  (exists r,
      seek docClosed (constructor docClosed [0; 4; 0; 0]%nat 1 false true) (-9)
      = Some r /\
      _content r = js "a" ++ [newline] ++ js "b" /\ _remainder r = 6).
Proof.
  split; eexists; (split; [vm_compute; reflexivity|split; reflexivity]).
Qed.

(* ------------------------------------------------------------------ *)
(** ** The seek information of an element, in full *)

(** X6: [getElementSeekInfo] in one table.  An element is enterable
    exactly when its tag is none of head, rt, script, style, br, textarea,
    input, button and it is visible (display other than none, and a visible
    style).  Its newline count is 1 for br, 0 for head, rt, script, style and
    for every element that is not visible, and otherwise 2 for an
    out-of-flow position, 1 for a display that breaks the flow, 0 for the
    rest; it is never outside 0..2. *)
Theorem getElementSeekInfo_table :
  forall (nodeName : string) (style : CSSStyleDeclaration),
    fst (getElementSeekInfo nodeName style)
    = negb (closedTag nodeName) && styleShown style /\
    snd (getElementSeekInfo nodeName style)
    = (if String.eqb (toUpperCase nodeName) "BR" then 1
       else if neverEntered nodeName then 0
       else if negb (styleShown style) then 0
       else if outOfFlow style then 2
       else if breaksFlowSpec (display style) then 1
       else 0) /\
    0 <= snd (getElementSeekInfo nodeName style) <= 2.
Proof.
  intros name style.
  assert (H : fst (getElementSeekInfo name style)
              = negb (closedTag name) && styleShown style /\
              snd (getElementSeekInfo name style)
              = (if String.eqb (toUpperCase name) "BR" then 1
                 else if neverEntered name then 0
                 else if negb (styleShown style) then 0
                 else if outOfFlow style then 2
                 else if breaksFlowSpec (display style) then 1
                 else 0)).
  { unfold getElementSeekInfo, closedTag, neverEntered, styleShown,
      outOfFlow, memString. cbv zeta. simpl existsb.
    rewrite doesCSSDisplayChangeLayout_spec.
    destruct (String.eqb (toUpperCase name) "HEAD") eqn:E1;
      [apply String.eqb_eq in E1; rewrite E1; split; reflexivity|].
    destruct (String.eqb (toUpperCase name) "RT") eqn:E2;
      [apply String.eqb_eq in E2; rewrite E2; split; reflexivity|].
    destruct (String.eqb (toUpperCase name) "SCRIPT") eqn:E3;
      [apply String.eqb_eq in E3; rewrite E3; split; reflexivity|].
    destruct (String.eqb (toUpperCase name) "STYLE") eqn:E4;
      [apply String.eqb_eq in E4; rewrite E4; split; reflexivity|].
    destruct (String.eqb (toUpperCase name) "BR") eqn:E5;
      [split; reflexivity|].
    cbn [orb].
    destruct (negb (String.eqb (display style) "none") && isStyleVisible style);
      cbn [negb andb fst snd].
    - rewrite !orb_false_r. rewrite andb_true_r.
      split; [f_equal; rewrite orb_assoc; reflexivity|].
      destruct (String.eqb (position style) "absolute");
        destruct (String.eqb (position style) "fixed");
        destruct (String.eqb (position style) "sticky");
        destruct (breaksFlowSpec (display style)); reflexivity.
    - rewrite andb_false_r. split; reflexivity. }
  destruct H as [H1 H2]. split; [exact H1|]. split; [exact H2|].
  rewrite H2.
  destruct (String.eqb (toUpperCase name) "BR"); [lia|].
  destruct (neverEntered name); [lia|].
  destruct (negb (styleShown style)); [lia|].
  destruct (outOfFlow style); [lia|].
  destruct (breaksFlowSpec (display style)); lia.
Qed.

(* ------------------------------------------------------------------ *)
(** ** getNextNode and the order of the document *)

Lemma rounds_first_child :
  forall doc node,
    isNode doc (O :: node) = true ->
    (rounds doc true (O :: node) + 1 = rounds doc true node)%nat.
Proof.
  intros doc node H. unfold rounds, subtreeSize, beyond, isNode in *.
  cbn [getNode following] in *.
  destruct (getNode doc node) as [n|] eqn:Hn; [|discriminate].
  destruct (nth_error (children n) O) as [c|] eqn:E; [|discriminate].
  rewrite (size_children n).
  pose proof (skipn_nth_error _ _ _ _ E) as Hs. simpl skipn in Hs at 1.
  rewrite Hs at 2. rewrite sizes_cons. lia.
Qed.

Lemma rounds_last_child :
  forall doc node n k,
    getNode doc node = Some n ->
    List.length (children n) = S k ->
    (rounds doc false (k :: node) + 1 = rounds doc false node)%nat.
Proof.
  intros doc node n k Hn Hlen. unfold rounds, subtreeSize, beyond.
  cbn [getNode preceding]. rewrite Hn.
  destruct (nth_error (children n) k) as [c|] eqn:E;
    [|apply nth_error_None in E; lia].
  rewrite (size_children n).
  pose proof (firstn_nth_error _ _ _ _ E) as Hf.
  rewrite <- Hlen, firstn_all in Hf. rewrite Hf at 2.
  rewrite sizes_app, sizes_cons, sizes_nil. lia.
Qed.

Lemma exitNodes_none :
  forall doc forward node exited exited',
    exitNodes doc forward node exited = (None, exited') ->
    beyond doc forward node = O.
Proof.
  intros doc forward node. induction node as [|i parent IH];
    intros exited exited' H.
  - destruct forward; reflexivity.
  - cbn [exitNodes] in H. destruct forward.
    + cbn [nextSibling] in H.
      destruct (isNode doc (S i :: parent)) eqn:Hsib; [discriminate|].
      apply IH in H. unfold beyond in *. cbn [following]. rewrite H.
      unfold isNode in Hsib. cbn [getNode] in Hsib.
      destruct (getNode doc parent) as [n|]; [|reflexivity].
      destruct (nth_error (children n) (S i)) eqn:E; [discriminate|].
      apply nth_error_None in E. rewrite skipn_all2 by exact E. reflexivity.
    + destruct i as [|i]; cbn [previousSibling] in H; [|discriminate].
      apply IH in H. unfold beyond in *. cbn [preceding]. rewrite H.
      destruct (getNode doc parent); reflexivity.
Qed.

Lemma lastChild_isNode :
  forall doc node,
    match lastChild doc node with
    | Some c => isNode doc (O :: node) = true
    | None => isNode doc (O :: node) = false
    end.
Proof.
  intros doc node. unfold lastChild, isNode. cbn [getNode].
  destruct (getNode doc node) as [n|]; [|reflexivity].
  destruct (children n) as [|c cs]; reflexivity.
Qed.

(** X7: [getNextNode] follows the order of the document (mirrored when
    scanning backward).  From a node of the document, when the children are
    to be visited and there are some, the next node is a child and exactly
    one node less remains to be handled; otherwise the next node is the
    first one beyond the subtree of the node, so that exactly the nodes
    beyond that subtree remain; and the result is [null] exactly when no
    node lies beyond. *)
Theorem getNextNode_document_order :
  forall (doc : Node) (node : NodeRef) (forward visitChildren : bool),
    isNode doc node = true ->
    match fst (getNextNode doc node forward visitChildren []) with
    | Some next =>
      isNode doc next = true /\
      rounds doc forward next
      = (if visitChildren && isNode doc (O :: node)
         then rounds doc forward node - 1
         else beyond doc forward node)%nat
    | None =>
      visitChildren && isNode doc (O :: node) = false /\
      beyond doc forward node = O
    end.
Proof.
  intros doc node forward visitChildren Hnode. unfold getNextNode.
  assert (Hexit :
            match fst (exitNodes doc forward node []) with
            | Some next =>
              isNode doc next = true /\
              rounds doc forward next = beyond doc forward node
            | None => beyond doc forward node = O
            end).
  { destruct (exitNodes doc forward node []) as [[next|] ex] eqn:He; cbn [fst].
    - eapply exitNodes_next; eassumption.
    - eapply exitNodes_none; eassumption. }
  destruct visitChildren; cbn [andb].
  - destruct forward.
    + unfold firstChild. destruct (isNode doc (O :: node)) eqn:Hc; cbn [fst].
      * split; [exact Hc|]. pose proof (rounds_first_child doc node Hc). lia.
      * destruct (fst (exitNodes doc true node [])) eqn:He;
          destruct (exitNodes doc true node []) as [nx ex]; cbn [fst] in *;
            subst nx; [exact Hexit|split; [reflexivity|exact Hexit]].
    + pose proof (lastChild_isNode doc node) as Hlc.
      destruct (lastChild doc node) as [c|] eqn:Hl; rewrite Hlc; cbn [fst].
      * unfold lastChild in Hl.
        destruct (getNode doc node) as [n|] eqn:Hn; [|discriminate].
        destruct (List.length (children n)) as [|k] eqn:Hlen; [discriminate|].
        injection Hl as <-.
        pose proof (rounds_last_child doc node n k Hn Hlen).
        split; [|lia]. unfold isNode. cbn [getNode]. rewrite Hn.
        destruct (nth_error (children n) k) eqn:E; [reflexivity|].
        apply nth_error_None in E. lia.
      * destruct (fst (exitNodes doc false node [])) eqn:He;
          destruct (exitNodes doc false node []) as [nx ex]; cbn [fst] in *;
            subst nx; [exact Hexit|split; [reflexivity|exact Hexit]].
  - destruct (fst (exitNodes doc forward node [])) eqn:He;
      destruct (exitNodes doc forward node []) as [nx ex]; cbn [fst] in *;
        subst nx; [exact Hexit|split; [reflexivity|exact Hexit]].
Qed.

Lemma getNextNode_document_order_witness :
  match fst (getNextNode docTwoDivs fooText true false []) with
  | Some next =>
    isNode docTwoDivs next = true /\
    rounds docTwoDivs true next
    = (if false && isNode docTwoDivs (O :: fooText)
       then rounds docTwoDivs true fooText - 1
       else beyond docTwoDivs true fooText)%nat
  | None =>
    false && isNode docTwoDivs (O :: fooText) = false /\
    beyond docTwoDivs true fooText = O
  end.
Proof.
  apply (getNextNode_document_order docTwoDivs fooText true false).
  reflexivity.
Defined.

Lemma upwardChain_cons :
  forall i parent n,
    upwardChain (i :: parent) (S n) = (i :: parent) :: upwardChain parent n.
Proof.
  intros i parent n. unfold upwardChain.
  change (seq 0 (S (S n))) with (O :: seq 1 (S n)).
  rewrite <- seq_shift, map_cons, map_map. reflexivity.
Qed.

Lemma exitNodes_chain :
  forall doc forward node exited next exited',
    exitNodes doc forward node exited = (next, exited') ->
    exists n,
      (n <= List.length node)%nat /\
      exited' = exited ++ upwardChain node n /\
      match next with
      | Some nx => exists i j q, skipn n node = i :: q /\ nx = j :: q
      | None => skipn n node = []
      end.
Proof.
  intros doc forward node. induction node as [|i parent IH];
    intros exited next exited' H; cbn [exitNodes] in H.
  - exists O. destruct forward; cbn [nextSibling previousSibling] in H;
      injection H as <- <-; repeat split; reflexivity.
  - destruct (if forward then nextSibling doc (i :: parent)
              else previousSibling (i :: parent)) as [sib|] eqn:Hsib.
    + injection H as <- <-. exists O. split; [simpl; lia|].
      split; [reflexivity|]. exists i. destruct forward.
      * cbn [nextSibling] in Hsib.
        destruct (isNode doc (S i :: parent)); [|discriminate].
        injection Hsib as <-. exists (S i), parent. split; reflexivity.
      * destruct i as [|i]; cbn [previousSibling] in Hsib; [discriminate|].
        injection Hsib as <-. exists i, parent. split; reflexivity.
    + apply IH in H as [n [Hn [Hex Hnext]]].
      exists (S n). split; [simpl; lia|]. split.
      * rewrite Hex, upwardChain_cons, <- app_assoc. reflexivity.
      * exact Hnext.
Qed.

(** X8: the nodes [getNextNode] reports as exited.  When it goes down to
    a child, none.  Otherwise they are the node itself and its ancestors in
    turn, up to the one whose sibling is the next node, or up to the root
    when there is no next node. *)
Theorem getNextNode_exited :
  forall (doc : Node) (node : NodeRef) (forward visitChildren : bool)
         (next : option NodeRef) (exited : list NodeRef),
    getNextNode doc node forward visitChildren [] = (next, exited) ->
    (visitChildren = true /\ exited = [] /\ exists k, next = Some (k :: node)) \/
    (exists n,
        (n <= List.length node)%nat /\
        exited = upwardChain node n /\
        match next with
        | Some nx => exists i j q, skipn n node = i :: q /\ nx = j :: q
        | None => skipn n node = []
        end).
Proof.
  intros doc node forward visitChildren next exited H. unfold getNextNode in H.
  assert (Hexit : exitNodes doc forward node [] = (next, exited) ->
                  exists n,
                    (n <= List.length node)%nat /\
                    exited = upwardChain node n /\
                    match next with
                    | Some nx => exists i j q, skipn n node = i :: q /\ nx = j :: q
                    | None => skipn n node = []
                    end).
  { intros He. apply exitNodes_chain in He as [n [Hn [Hex Hnext]]].
    exists n. split; [exact Hn|]. split; [exact Hex|exact Hnext]. }
  destruct visitChildren; [|right; apply Hexit; exact H].
  destruct forward.
  - unfold firstChild in H. destruct (isNode doc (O :: node)).
    + injection H as <- <-. left. split; [reflexivity|]. split; [reflexivity|].
      exists O. reflexivity.
    + right. apply Hexit. exact H.
  - unfold lastChild in H. destruct (getNode doc node) as [n|];
      [|right; apply Hexit; exact H].
    destruct (List.length (children n)) as [|k].
    + right. apply Hexit. exact H.
    + injection H as <- <-. left. split; [reflexivity|]. split; [reflexivity|].
      exists k. reflexivity.
Qed.

Lemma getNextNode_exited_witness :
  (false = true /\ [fooText; [0; 0; 0]%nat] = [] /\
   exists k, Some [1; 0; 0]%nat = Some (k :: fooText)) \/
  (exists n,
      (n <= List.length fooText)%nat /\
      [fooText; [0; 0; 0]%nat] = upwardChain fooText n /\
      exists i j q, skipn n fooText = i :: q /\ [1; 0; 0]%nat = j :: q).
Proof.
  apply (getNextNode_exited docTwoDivs fooText true false
                            (Some [1; 0; 0]%nat) [fooText; [0; 0; 0]%nat]).
  reflexivity.
Defined.

(* ------------------------------------------------------------------ *)
(** ** Pending newlines *)

Lemma raiseNewlines_newlines :
  forall newlines this,
    _newlines (raiseNewlines newlines this)
    = (if _generateLayoutContent this
       then Z.max (_newlines this) newlines
       else _newlines this) /\
    raiseNewlines newlines this
    = set_newlines (_newlines (raiseNewlines newlines this)) this.
Proof.
  intros newlines this. unfold raiseNewlines.
  rewrite Z.gtb_ltb.
  destruct (_newlines this <? newlines) eqn:E;
    destruct (_generateLayoutContent this); cbn [andb];
      [apply Z.ltb_lt in E| |apply Z.ltb_ge in E|];
      (split; [simpl; try lia; reflexivity|destruct this; reflexivity]).
Qed.

(** X9: leaving elements raises the pending newline count to the largest
    of their newline counts, never to their sum: after the loop over the
    exited nodes the count is the maximum of what it was and of the newline
    counts of the exited elements when layout content is generated, it is
    unchanged when it is not, and no other field of the scanner changes. *)
Theorem exitedNodesLoop_maximum :
  forall (doc : Node) (exitedNodes : list NodeRef) (this : DOMTextScanner),
    _newlines (exitedNodesLoop doc exitedNodes this)
    = (if _generateLayoutContent this
       then fold_left Z.max (elementNewlines doc exitedNodes) (_newlines this)
       else _newlines this) /\
    exitedNodesLoop doc exitedNodes this
    = set_newlines (_newlines (exitedNodesLoop doc exitedNodes this)) this.
Proof.
  intros doc exitedNodes.
  induction exitedNodes as [|e rest IH]; intros this; cbn [exitedNodesLoop].
  - split; [destruct (_generateLayoutContent this); reflexivity|].
    destruct this; reflexivity.
  - unfold elementNewlines. cbn [filter].
    destruct (nodeType doc e); try apply IH.
    destruct (elementSeekInfo doc e) as [en nl] eqn:Hinfo.
    destruct (raiseNewlines_newlines nl this) as [Hr1 Hr2].
    destruct (IH (raiseNewlines nl this)) as [H1 H2].
    assert (Hg : _generateLayoutContent (raiseNewlines nl this)
                 = _generateLayoutContent this)
      by (rewrite Hr2; reflexivity).
    split.
    + rewrite H1, Hg, Hr1. cbn [map fold_left]. rewrite Hinfo. cbn [snd].
      destruct (_generateLayoutContent this); reflexivity.
    + rewrite H2 at 1. rewrite Hr2. reflexivity.
Qed.

(* ------------------------------------------------------------------ *)
(** ** Invariants of seek *)

Section SeekInvariant.

(** A property of the scanner that every assignment of [seek] keeps: the
    check of a character entered with a remainder, the assignments to
    [_offset], [_node], [_resetOffset] and [_remainder], and the raising of
    the pending newlines to the newline count of an element. *)
Variable P : DOMTextScanner -> Prop.

Hypothesis P_check :
  forall forward this char charAttributes,
    P this -> 1 <= _remainder this ->
    P (fst (checkCharacter forward this char charAttributes)).
Hypothesis P_offset : forall k this, P this -> P (set_offset k this).
Hypothesis P_node : forall n this, P this -> P (set_node n this).
Hypothesis P_resetOffset : forall b this, P this -> P (set_resetOffset b this).
Hypothesis P_remainder : forall z this, P this -> P (set_remainder z this).
Hypothesis P_raise :
  forall name style this,
    P this -> P (raiseNewlines (snd (getElementSeekInfo name style)) this).

Lemma seekTextNodeLoop_invariant :
  forall forward nodeValue pn pw fuel this this',
    seekTextNodeLoop forward fuel nodeValue pn pw this = Some this' ->
    P this -> 1 <= _remainder this -> P this'.
Proof.
  intros forward nodeValue pn pw fuel.
  induction fuel as [|fuel IH]; intros this this' H HP Hrem;
    cbn [seekTextNodeLoop] in H;
    destruct (textPending forward nodeValue this);
    try discriminate; try (injection H as <-; exact HP).
  destruct (textRound forward nodeValue pn pw this) as [t stop] eqn:Hr.
  assert (HPt : P t).
  { unfold textRound in Hr.
    pose proof (P_check forward
                  (moveOffset forward
                     (readCharacter forward nodeValue (_offset this)) this)
                  (readCharacter forward nodeValue (_offset this))
                  (getCharacterAttributes
                     (readCharacter forward nodeValue (_offset this)) pn pw))
      as Hc.
    rewrite Hr in Hc. apply Hc; [apply P_offset; exact HP|exact Hrem]. }
  destruct stop; [injection H as <-; exact HPt|].
  apply (IH t this' H HPt). eapply textRound_continue; eassumption.
Qed.

Lemma seekTextNode_invariant :
  forall forward doc this textNode resetOffset this' continue,
    seekTextNode forward doc this textNode resetOffset = Some (this', continue) ->
    P this -> 1 <= _remainder this -> P this'.
Proof.
  intros forward doc this textNode resetOffset this' continue H HP Hrem.
  rewrite seekTextNode_eq in H. cbv zeta in H.
  destruct (_getWhitespaceSettings doc this textNode) as [pn pw].
  destruct (seekTextNodeLoop forward _ _ pn pw _) as [t|] eqn:Hl;
    [|discriminate].
  injection H as <- _.
  apply (seekTextNodeLoop_invariant _ _ _ _ _ _ _ Hl).
  - destruct resetOffset; [apply P_offset|]; exact HP.
  - destruct resetOffset; exact Hrem.
Qed.

Lemma exitedNodesLoop_invariant :
  forall doc exitedNodes this,
    P this -> P (exitedNodesLoop doc exitedNodes this).
Proof.
  intros doc exitedNodes.
  induction exitedNodes as [|e rest IH]; intros this HP;
    cbn [exitedNodesLoop]; [exact HP|].
  destruct (nodeType doc e) eqn:Ht; try (apply IH; exact HP).
  unfold elementSeekInfo. unfold nodeType in Ht.
  destruct (getNode doc e) as [[v|name style cs|cs]|]; try discriminate.
  destruct (getElementSeekInfo name style) as [en nl] eqn:Hinfo.
  apply IH. pose proof (P_raise name style this HP) as Hraise.
  rewrite Hinfo in Hraise. exact Hraise.
Qed.

Lemma seekRound_invariant :
  forall doc forward this node lastNode resetOffset,
    P this -> 1 <= _remainder this ->
    match seekRound doc forward this node lastNode resetOffset with
    | Some (Break this' _) => P this'
    | Some (Next this' _ _) => P this'
    | None => True
    end.
Proof.
  intros doc forward this node lastNode resetOffset HP Hrem.
  unfold seekRound. destruct (nodeType doc node) eqn:Ht.
  - fold (seekTextNode forward doc this node resetOffset).
    destruct (seekTextNode forward doc this node resetOffset)
      as [[t continue]|] eqn:Hs; [|exact I].
    pose proof (seekTextNode_invariant _ _ _ _ _ _ _ Hs HP Hrem) as HPt.
    destruct continue; [|exact HPt].
    unfold advance. destruct (getNextNode doc node forward false []).
    apply exitedNodesLoop_invariant. exact HPt.
  - unfold elementSeekInfo. unfold nodeType in Ht.
    destruct (getNode doc node) as [[v|name style cs|cs]|]; try discriminate.
    destruct (getElementSeekInfo name style) as [en nl] eqn:Hinfo.
    unfold advance. destruct (getNextNode doc node forward en []).
    apply exitedNodesLoop_invariant.
    pose proof (P_raise name style (set_offset O this) (P_offset O this HP))
      as Hraise.
    rewrite Hinfo in Hraise. exact Hraise.
  - unfold advance. destruct (getNextNode doc node forward false []).
    apply exitedNodesLoop_invariant. exact HP.
Qed.

Lemma seekLoop_invariant :
  forall doc forward fuel this node lastNode resetOffset r,
    seekLoop fuel doc forward this node lastNode resetOffset = Some r ->
    P this -> 1 <= _remainder this -> P r.
Proof.
  intros doc forward fuel.
  induction fuel as [|fuel IH];
    intros this node lastNode resetOffset r H HP Hrem; cbn [seekLoop] in H;
    [discriminate|].
  pose proof (seekRound_invariant doc forward this node lastNode resetOffset
                HP Hrem) as Hround.
  destruct (seekRound doc forward this node lastNode resetOffset)
    as [[this' lastNode'|this' [node'|] lastNode']|] eqn:Hr;
    [| | |discriminate].
  - injection H as <-. unfold finish. apply P_resetOffset, P_node. exact Hround.
  - apply (IH _ _ _ _ _ H Hround).
    eapply seekRound_continue; eassumption.
  - injection H as <-. unfold finish. apply P_resetOffset, P_node. exact Hround.
Qed.

Lemma seek_invariant :
  forall doc this length r,
    seek doc this length = Some r -> P this -> P r.
Proof.
  intros doc this length r H HP.
  destruct (Z.eq_dec length 0) as [->|Hnz].
  { injection H as <-. apply P_remainder. exact HP. }
  destruct (seek_nonzero doc this length Hnz) as [Hseek _].
  rewrite Hseek in H.
  apply (seekLoop_invariant _ _ _ _ _ _ _ _ H).
  - apply P_remainder. exact HP.
  - simpl. lia.
Qed.

End SeekInvariant.

Lemma pendingNewlines_newlines :
  forall forward this char,
    1 <= _remainder this ->
    (_newlines this <= 0 ->
     _newlines (fst (pendingNewlines forward this char)) = _newlines this) /\
    (0 <= _newlines this ->
     0 <= _newlines (fst (pendingNewlines forward this char)) <= _newlines this).
Proof.
  intros forward this char Hrem. unfold pendingNewlines.
  destruct (0 <? _newlines this) eqn:Hnl;
    [apply Z.ltb_lt in Hnl|apply Z.ltb_ge in Hnl; cbn [fst]; split; intros; lia].
  destruct (0 <? Z.of_nat (List.length (_content this))); simpl.
  - destruct (_remainder this - Z.min (_remainder this) (_newlines this) <=? 0);
      simpl; split; intros; lia.
  - destruct (_remainder this <=? 0); simpl; split; intros; lia.
Qed.

Lemma checkCharacter_newlines :
  forall forward this char charAttributes,
    1 <= _remainder this ->
    (_newlines this <= 0 ->
     _newlines (fst (checkCharacter forward this char charAttributes))
     = _newlines this) /\
    (0 <= _newlines this ->
     0 <= _newlines (fst (checkCharacter forward this char charAttributes))
     <= _newlines this).
Proof.
  intros forward this char a Hrem. unfold checkCharacter.
  destruct (a =? 1); [simpl; split; intros; lia|].
  destruct ((a =? 2) || (a =? 3)); [|simpl; split; intros; lia].
  pose proof (pendingNewlines_newlines forward this char Hrem) as Hp.
  destruct (pendingNewlines forward this char) as [c1 [|]]; cbn [fst] in *;
    [exact Hp|].
  assert (Hrest : _newlines
                    (fst (let (t, stop) :=
                            pendingWhitespace forward
                              (set_lineHasContent (a =? 2) c1) char in
                          if stop then (t, true)
                          else emitCharacter forward t char))
                  = _newlines c1).
  { unfold pendingWhitespace, emitCharacter. simpl.
    destruct (_lineHasWhitespace c1); [destruct (a =? 2)|]; simpl;
      try reflexivity.
    destruct (_remainder c1 - 1 <=? 0); reflexivity. }
  rewrite Hrest. exact Hp.
Qed.

Lemma getElementSeekInfo_newlines_bounds :
  forall nodeName style, 0 <= snd (getElementSeekInfo nodeName style) <= 2.
Proof.
  intros name style. unfold getElementSeekInfo. cbv zeta.
  repeat match goal with
         | |- context [if ?b then _ else _] => destruct b
         end; simpl; lia.
Qed.

(** X10: the count of pending newlines stays within 0..2.  A scanner
    whose count is in that range (a constructed scanner has 0) has it there
    after every [seek]. *)
Theorem seek_newlines_range :
  forall (doc : Node) (this r : DOMTextScanner) (length : Z),
    0 <= _newlines this <= 2 ->
    seek doc this length = Some r ->
    0 <= _newlines r <= 2.
Proof.
  intros doc this r length Hrange H.
  apply (seek_invariant (fun c => 0 <= _newlines c <= 2)) with (doc := doc)
    (this := this) (length := length); try exact H; try exact Hrange;
    try (intros; assumption).
  - intros forward c char a Hc Hrem.
    destruct (checkCharacter_newlines forward c char a Hrem) as [_ Hn].
    specialize (Hn (proj1 Hc)). lia.
  - intros name style c Hc.
    destruct (raiseNewlines_newlines (snd (getElementSeekInfo name style)) c)
      as [-> _].
    pose proof (getElementSeekInfo_newlines_bounds name style) as Ht.
    destruct (_generateLayoutContent c); lia.
Qed.

Lemma seek_newlines_range_witness :
  exists r,
    seek docTwoDivs scannerAtFoo 9 = Some r /\ 0 <= _newlines r <= 2.
Proof.
  eexists. split; [vm_compute; reflexivity|].
  apply (seek_newlines_range docTwoDivs scannerAtFoo _ 9);
    [simpl; lia|vm_compute; reflexivity].
Defined.

(** X11: without [generateLayoutContent] no layout newline ever
    becomes pending: a scanner that has none pending has the same count after
    every [seek], whatever elements the scan crosses. *)
Theorem seek_without_layout_content :
  forall (doc : Node) (this r : DOMTextScanner) (length : Z),
    _generateLayoutContent this = false ->
    _newlines this <= 0 ->
    seek doc this length = Some r ->
    _newlines r = _newlines this /\ _generateLayoutContent r = false.
Proof.
  intros doc this r length Hglc Hnl H.
  apply (seek_invariant
           (fun c => _newlines c = _newlines this /\
                     _generateLayoutContent c = false))
    with (doc := doc) (this := this) (length := length);
    try exact H; try (split; [reflexivity|exact Hglc]);
    try (intros; assumption).
  - intros forward c char a [Hc Hg] Hrem.
    destruct (checkCharacter_newlines forward c char a Hrem) as [Hn _].
    split; [rewrite Hn; [exact Hc|lia]|].
    destruct (checkCharacter forward c char a) as [c' stop] eqn:Hcheck.
    cbn [fst].
    assert (Hs : forall c0 c1 s, checkCharacter forward c0 char a = (c1, s) ->
                                 _generateLayoutContent c1
                                 = _generateLayoutContent c0).
    { intros c0 c1 s Hcc. pose proof (checkCharacter_resetOffset forward c0 char a
                                         (_resetOffset c0)) as _.
      unfold checkCharacter, pendingNewlines, pendingWhitespace, emitCharacter
        in Hcc.
      repeat match type of Hcc with
             | context [if ?b then _ else _] => destruct b
             | (let (_, _) := ?p in _) = _ => simpl in Hcc
             end;
        simpl in Hcc; injection Hcc as <- _; reflexivity. }
    rewrite (Hs _ _ _ Hcheck). exact Hg.
  - intros name style c [Hc Hg].
    destruct (raiseNewlines_newlines (snd (getElementSeekInfo name style)) c)
      as [Hr1 Hr2].
    rewrite Hg in Hr1. split; [rewrite Hr1; exact Hc|].
    rewrite Hr2. exact Hg.
Qed.

Lemma seek_without_layout_content_witness :
  exists r,
    seek docTwoDivs (constructor docTwoDivs fooText 0 false false) 9 = Some r /\
    _newlines r = 0 /\ _generateLayoutContent r = false.
Proof.
  eexists. split; [vm_compute; reflexivity|].
  apply (seek_without_layout_content
           docTwoDivs (constructor docTwoDivs fooText 0 false false) _ 9);
    [reflexivity|simpl; lia|vm_compute; reflexivity].
Defined.



(* ------------------------------------------------------------------ *)
(** ** Two seeks in a row *)

Lemma repeat_add_Z :
  forall (x : Z) (n m : Z),
    0 <= n -> 0 <= m ->
    repeat x (Z.to_nat (n + m)) = repeat x (Z.to_nat n) ++ repeat x (Z.to_nat m).
Proof.
  intros x n m Hn Hm. rewrite Z2Nat.inj_add by assumption. apply repeat_app.
Qed.

(** Two scanners are equal when their fields are. *)
Lemma scanner_ext :
  forall c c' : DOMTextScanner,
    _node c = _node c' -> _offset c = _offset c' ->
    _content c = _content c' -> _remainder c = _remainder c' ->
    _resetOffset c = _resetOffset c' -> _newlines c = _newlines c' ->
    _lineHasWhitespace c = _lineHasWhitespace c' ->
    _lineHasContent c = _lineHasContent c' ->
    _forcePreserveWhitespace c = _forcePreserveWhitespace c' ->
    _generateLayoutContent c = _generateLayoutContent c' ->
    c = c'.
Proof.
  intros [] []. simpl. intros. subst. reflexivity.
Qed.

(** A check that stopped on the pending newlines: with [extra] more to go
    the check is the one made again from where it stopped. *)
Lemma pendingNewlines_split :
  forall forward this char this' extra,
    pendingNewlines forward this char = (this', true) ->
    1 <= _remainder this -> 1 <= extra ->
    _remainder this' = 0 /\
    _offset this' = _offset (revertOffset forward char this) /\
    pendingNewlines forward (shift extra this) char
    = pendingNewlines forward (set_offset (_offset this) (shift extra this')) char.
Proof.
  intros forward this char this' k H Hrem Hk.
  unfold pendingNewlines in H.
  destruct (0 <? _newlines this) eqn:Hnl; [|discriminate].
  destruct (0 <? Z.of_nat (List.length (_content this))) eqn:Hc.
  2:{ simpl in H. destruct (_remainder this <=? 0) eqn:Hz; [|discriminate].
      apply Z.leb_le in Hz. lia. }
  simpl in H.
  destruct (_remainder this - Z.min (_remainder this) (_newlines this) <=? 0)
    eqn:Hz; [|discriminate].
  apply Z.leb_le in Hz. apply Z.ltb_lt in Hnl.
  assert (Hmin : Z.min (_remainder this) (_newlines this) = _remainder this)
    by lia.
  rewrite Hmin in H. injection H as <-.
  split; [simpl; lia|]. split; [reflexivity|].
  assert (Hnl' : (0 <? _newlines this) = true) by (apply Z.ltb_lt; lia).
  assert (Hlen : forall f : bool,
             (0 <? Z.of_nat
                     (List.length
                        (if f
                         then _content this
                              ++ repeat newline (Z.to_nat (_remainder this))
                         else repeat newline (Z.to_nat (_remainder this))
                              ++ _content this))) = true).
  { intros f. apply Z.ltb_lt. apply Z.ltb_lt in Hc.
    destruct f; rewrite length_app; lia. }
  pose proof (Hlen true) as Hlen1. pose proof (Hlen false) as Hlen2.
  cbv iota in Hlen1, Hlen2. clear Hlen.
  unfold pendingNewlines.
  destruct forward; simpl; rewrite Hnl', Hc, ?Hlen1, ?Hlen2.
  - simpl.
    destruct (0 <? _newlines this - _remainder this) eqn:Hmore.
    + apply Z.ltb_lt in Hmore.
      assert (Hsplit : Z.min (_remainder this + k) (_newlines this)
                       = _remainder this
                         + Z.min (_remainder this - _remainder this + k)
                                 (_newlines this - _remainder this)) by lia.
      rewrite Hsplit.
      set (u := Z.min (_remainder this - _remainder this + k)
                      (_newlines this - _remainder this)).
      assert (Hu : 0 <= u) by (unfold u; lia).
      replace (_remainder this + k - (_remainder this + u))
        with (_remainder this - _remainder this + k - u) by lia.
      destruct (_remainder this - _remainder this + k - u <=? 0);
        (apply f_equal2; [|reflexivity]);
        apply scanner_ext; simpl; try reflexivity; try lia;
        rewrite repeat_add_Z by lia; apply app_assoc.
    + apply Z.ltb_ge in Hmore.
      assert (Hsplit : Z.min (_remainder this + k) (_newlines this)
                       = _remainder this) by lia.
      rewrite Hsplit.
      assert (Hz' : (_remainder this + k - _remainder this <=? 0) = false)
        by (apply Z.leb_gt; lia).
      rewrite Hz'. apply f_equal2; [|reflexivity].
      apply scanner_ext; simpl; try reflexivity; lia.
  - simpl.
    destruct (0 <? _newlines this - _remainder this) eqn:Hmore.
    + apply Z.ltb_lt in Hmore.
      assert (Hsplit : Z.min (_remainder this + k) (_newlines this)
                       = Z.min (_remainder this - _remainder this + k)
                               (_newlines this - _remainder this)
                         + _remainder this) by lia.
      rewrite Hsplit.
      set (u := Z.min (_remainder this - _remainder this + k)
                      (_newlines this - _remainder this)).
      assert (Hu : 0 <= u) by (unfold u; lia).
      replace (_remainder this + k - (u + _remainder this))
        with (_remainder this - _remainder this + k - u) by lia.
      destruct (_remainder this - _remainder this + k - u <=? 0);
        (apply f_equal2; [|reflexivity]);
        apply scanner_ext; simpl; try reflexivity; try lia;
        rewrite repeat_add_Z by lia; symmetry; apply app_assoc.
    + apply Z.ltb_ge in Hmore.
      assert (Hsplit : Z.min (_remainder this + k) (_newlines this)
                       = _remainder this) by lia.
      rewrite Hsplit.
      assert (Hz' : (_remainder this + k - _remainder this <=? 0) = false)
        by (apply Z.leb_gt; lia).
      rewrite Hz'. apply f_equal2; [|reflexivity].
      apply scanner_ext; simpl; try reflexivity; lia.
Qed.

Lemma pendingNewlines_passed :
  forall forward this char this',
    pendingNewlines forward this char = (this', false) ->
    1 <= _remainder this ->
    _offset this' = _offset this /\ _newlines this' <= 0 /\
    1 <= _remainder this'.
Proof.
  intros forward this char this' H Hrem. unfold pendingNewlines in H.
  repeat match type of H with
         | context [if ?b then _ else _] => destruct b eqn:?
         end;
    simpl in *; try discriminate; injection H as <-; simpl in *;
    repeat match goal with
           | E : (_ <=? _) = false |- _ => apply Z.leb_gt in E
           | E : (_ <? _) = false |- _ => apply Z.ltb_ge in E
           | E : (_ <? _) = true |- _ => apply Z.ltb_lt in E
           end; simpl in *; repeat split; lia.
Qed.

(** A check that stopped with the remainder used up, made with [extra] more
    to go: when the character itself was emitted the check goes through and
    does not stop; when it stopped before the character (and moved the offset
    back over it) it is the check made again from where it stopped. *)

Lemma checkCharacter_split :
  forall forward this char charAttributes this' extra,
    checkCharacter forward this char charAttributes = (this', true) ->
    1 <= _remainder this -> 1 <= extra ->
    (_offset this' = _offset this /\
     checkCharacter forward (shift extra this) char charAttributes
     = (shift extra this', false)) \/
    (_offset this' = _offset (revertOffset forward char this) /\
     checkCharacter forward (shift extra this) char charAttributes
     = checkCharacter forward (set_offset (_offset this) (shift extra this'))
                      char charAttributes).
Proof.
  intros forward this char a this' k H Hrem Hk. unfold checkCharacter in H.
  destruct (a =? 1) eqn:Ha1; [discriminate|].
  destruct ((a =? 2) || (a =? 3)) eqn:Ha; [|discriminate].
  destruct (pendingNewlines forward this char) as [c1 s1] eqn:H1.
  destruct s1.
  { injection H as <-. right.
    destruct (pendingNewlines_split _ _ _ _ k H1 Hrem Hk) as [_ [Hoff Hsplit]].
    split; [exact Hoff|]. unfold checkCharacter. rewrite Ha1, Ha.
    rewrite Hsplit. reflexivity. }
  destruct (pendingNewlines_passed _ _ _ _ H1 Hrem) as [Hoff1 [Hnl1 Hrem1]].
  assert (Hk0 : 0 <= k) by lia.
  pose proof (pendingNewlines_shift _ _ _ _ k H1 Hrem Hk0) as Hshift.
  unfold pendingWhitespace in H. cbn [_lineHasWhitespace _lineHasContent
    set_lineHasContent] in H.
  destruct (_lineHasWhitespace c1) eqn:Hw.
  - case_eq (a =? 2); intros Ha2; rewrite Ha2 in H.
    + simpl in H.
      destruct (_remainder c1 - 1 <=? 0) eqn:Hz.
      * injection H as <-. apply Z.leb_le in Hz. right.
        split; [simpl; destruct forward; lia|].
        unfold checkCharacter. rewrite Ha1, Ha, Hshift.
        unfold pendingNewlines at 1.
        assert (Hnl : (0 <? _newlines
                              (set_offset (_offset this)
                                 (shift k
                                    (revertOffset forward char
                                       (set_remainder (_remainder c1 - 1)
                                          (set_lineHasWhitespace false
                                             (emit forward [space]
                                                (set_lineHasContent true c1))))))))
                      = false) by (apply Z.ltb_ge; simpl; lia).
        rewrite Hnl. unfold pendingWhitespace. simpl. rewrite Hw, Ha2.
        assert (Hz' : (_remainder c1 + k - 1 <=? 0) = false)
          by (apply Z.leb_gt; lia).
        rewrite Hz'. unfold emitCharacter. simpl.
        apply f_equal2;
          [apply scanner_ext; simpl; try reflexivity; try lia; auto
          |f_equal; lia].
      * unfold emitCharacter in H. injection H as <- Hstop.
        apply Z.leb_gt in Hz. apply Z.leb_le in Hstop. simpl in Hstop.
        left. split; [simpl; exact Hoff1|].
        unfold checkCharacter. rewrite Ha1, Ha, Hshift.
        unfold pendingWhitespace. simpl. rewrite Hw, Ha2.
        assert (Hz' : (_remainder c1 + k - 1 <=? 0) = false)
          by (apply Z.leb_gt; lia).
        rewrite Hz'. unfold emitCharacter. simpl.
        assert (Hz2 : (_remainder c1 + k - 1 - 1 <=? 0) = false)
          by (apply Z.leb_gt; lia).
        rewrite Hz2. apply f_equal2; [|reflexivity]. apply scanner_ext; simpl; try reflexivity; lia.
    + unfold emitCharacter in H. injection H as <- Hstop.
      apply Z.leb_le in Hstop. simpl in Hstop.
      left. split; [simpl; exact Hoff1|].
      unfold checkCharacter. rewrite Ha1, Ha, Hshift.
      unfold pendingWhitespace. simpl. rewrite Hw, Ha2.
      unfold emitCharacter. simpl.
      assert (Hz2 : (_remainder c1 + k - 1 <=? 0) = false)
        by (apply Z.leb_gt; lia).
      rewrite Hz2. apply f_equal2; [|reflexivity]. apply scanner_ext; simpl; try reflexivity; lia.
  - unfold emitCharacter in H. injection H as <- Hstop.
    apply Z.leb_le in Hstop. simpl in Hstop.
    left. split; [simpl; exact Hoff1|].
    unfold checkCharacter. rewrite Ha1, Ha, Hshift.
    unfold pendingWhitespace. simpl. rewrite Hw.
    unfold emitCharacter. simpl.
    assert (Hz2 : (_remainder c1 + k - 1 <=? 0) = false)
      by (apply Z.leb_gt; lia).
    rewrite Hz2. apply f_equal2; [|reflexivity]. apply scanner_ext; simpl; try reflexivity; lia.
Qed.



Lemma textRound_split :
  forall forward nodeValue pn pw this this' extra,
    textRound forward nodeValue pn pw this = (this', true) ->
    textPending forward nodeValue this = true ->
    (_offset this <= List.length nodeValue)%nat ->
    1 <= _remainder this -> 1 <= extra ->
    ((textLeft forward nodeValue this' < textLeft forward nodeValue this)%nat /\
     textRound forward nodeValue pn pw (shift extra this)
     = (shift extra this', false)) \/
    (_offset this' = _offset this /\
     textRound forward nodeValue pn pw (shift extra this)
     = textRound forward nodeValue pn pw (shift extra this')).
Proof.
  intros forward nodeValue pn pw this this' k H Hpend Hoff Hrem Hk.
  unfold textRound in *. cbn [_offset shift set_remainder].
  set (char := readCharacter forward nodeValue (_offset this)) in *.
  assert (Hchar : (1 <= List.length char)%nat /\
                  (if forward
                   then (_offset this + List.length char <= List.length nodeValue)%nat
                   else (List.length char <= _offset this)%nat)).
  { unfold char, readCharacter, textPending in *. destruct forward.
    - apply Nat.ltb_lt in Hpend.
      destruct (readForward_character nodeValue (_offset this) Hpend)
        as [_ ?]. assumption.
    - apply Nat.ltb_lt in Hpend.
      destruct (readBackward_character nodeValue (_offset this)) as [_ ?]; lia. }
  destruct Hchar as [Hlen Hfit'].
  assert (Hfit : forward = false -> (List.length char <= _offset this)%nat)
    by (intros ->; exact Hfit').
  destruct (checkCharacter_split forward (moveOffset forward char this) char _
              _ k H Hrem Hk) as [[Hmoved Hgo]|[Hback Hagain]].
  - left. split; [|exact Hgo].
    unfold textLeft. rewrite Hmoved. unfold moveOffset. simpl.
    destruct forward; lia.
  - right.
    assert (Hsame : _offset this' = _offset this).
    { rewrite Hback. unfold revertOffset, moveOffset. simpl.
      destruct forward; [lia|]. specialize (Hfit eq_refl). lia. }
    split; [exact Hsame|]. rewrite Hsame. fold char.
    change (moveOffset forward char (shift k this))
      with (shift k (moveOffset forward char this)).
    rewrite Hagain. f_equal.
    unfold moveOffset, shift, set_offset, set_remainder. simpl.
    rewrite Hsame. reflexivity.
Qed.

(** A text loop gives the same with any fuel that covers what is left to
    read. *)
Lemma seekTextNodeLoop_fuel :
  forall forward nodeValue pn pw fuel fuel' this,
    (textLeft forward nodeValue this <= fuel)%nat ->
    (textLeft forward nodeValue this <= fuel')%nat ->
    (_offset this <= List.length nodeValue)%nat ->
    1 <= _remainder this ->
    seekTextNodeLoop forward fuel nodeValue pn pw this
    = seekTextNodeLoop forward fuel' nodeValue pn pw this.
Proof.
  intros forward nodeValue pn pw fuel.
  induction fuel as [|fuel IH]; intros fuel' this Hfuel Hfuel' Hoff Hrem.
  - assert (Hp : textPending forward nodeValue this = false).
    { unfold textPending, textLeft in *.
      destruct forward; apply Nat.ltb_ge; lia. }
    destruct fuel'; cbn [seekTextNodeLoop]; rewrite Hp; reflexivity.
  - destruct (textPending forward nodeValue this) eqn:Hp.
    2:{ destruct fuel'; cbn [seekTextNodeLoop]; rewrite Hp; reflexivity. }
    destruct fuel' as [|fuel'].
    { unfold textPending, textLeft in *.
      destruct forward; apply Nat.ltb_lt in Hp; lia. }
    cbn [seekTextNodeLoop]. rewrite Hp.
    destruct (textRound forward nodeValue pn pw this) as [this1 stop] eqn:Hr.
    destruct stop; [reflexivity|].
    destruct (textRound_ok _ _ _ _ _ _ _ Hp Hoff Hrem Hr)
      as [[_ [R1 _]] [Hoff1 Hleft]].
    specialize (Hleft eq_refl). apply IH; try assumption; lia.
Qed.

(** A text loop that used up its remainder, run with [extra] more to go: it
    is the loop run on from where it stopped. *)
Lemma seekTextNodeLoop_split :
  forall forward nodeValue pn pw fuel this this' extra fuel1 fuel2,
    seekTextNodeLoop forward fuel nodeValue pn pw this = Some this' ->
    (_offset this <= List.length nodeValue)%nat ->
    1 <= _remainder this -> _remainder this' <= 0 -> 1 <= extra ->
    (textLeft forward nodeValue this <= fuel1)%nat ->
    (textLeft forward nodeValue this' <= fuel2)%nat ->
    seekTextNodeLoop forward fuel1 nodeValue pn pw (shift extra this)
    = seekTextNodeLoop forward fuel2 nodeValue pn pw (shift extra this').
Proof.
  intros forward nodeValue pn pw fuel.
  induction fuel as [|fuel IH];
    intros this this' k fuel1 fuel2 H Hoff Hrem Hrem' Hk Hf1 Hf2;
    cbn [seekTextNodeLoop] in H;
    destruct (textPending forward nodeValue this) eqn:Hp;
    try discriminate; try (injection H as <-; lia).
  destruct (textRound forward nodeValue pn pw this) as [this1 stop] eqn:Hr.
  destruct (textRound_ok _ _ _ _ _ _ _ Hp Hoff Hrem Hr)
    as [[_ [R1 _]] [Hoff1 Hleft]].
  assert (Hpos : (1 <= textLeft forward nodeValue this)%nat).
  { unfold textPending, textLeft in *.
    destruct forward; apply Nat.ltb_lt in Hp; lia. }
  destruct fuel1 as [|fuel1]; [lia|].
  cbn [seekTextNodeLoop].
  change (textPending forward nodeValue (shift k this))
    with (textPending forward nodeValue this).
  rewrite Hp.
  destruct stop.
  - injection H as <-.
    destruct (textRound_split _ _ _ _ _ _ k Hr Hp Hoff Hrem Hk)
      as [[Hless Hgo]|[Hsame Hagain]].
    + rewrite Hgo.
      apply seekTextNodeLoop_fuel;
        change (textLeft forward nodeValue (shift k this1))
          with (textLeft forward nodeValue this1);
        [lia|exact Hf2|exact Hoff1|simpl; lia].
    + assert (Hleft1 : textLeft forward nodeValue this1
                       = textLeft forward nodeValue this)
        by (unfold textLeft; rewrite Hsame; reflexivity).
      assert (Hp1 : textPending forward nodeValue (shift k this1) = true)
        by (unfold textPending in *; simpl; rewrite Hsame; exact Hp).
      destruct fuel2 as [|fuel2]; [lia|].
      cbn [seekTextNodeLoop]. rewrite Hp1, Hagain.
      destruct (textRound forward nodeValue pn pw (shift k this1))
        as [t stop] eqn:Hr1.
      destruct stop; [reflexivity|].
      assert (Hrem1 : 1 <= _remainder (shift k this1)) by (simpl; lia).
      destruct (textRound_ok _ _ _ _ _ _ _ Hp1 Hoff1 Hrem1 Hr1)
        as [[_ [Rt _]] [Hofft Hleftt]].
      specialize (Hleftt eq_refl).
      change (textLeft forward nodeValue (shift k this1))
        with (textLeft forward nodeValue this1) in Hleftt.
      apply seekTextNodeLoop_fuel; try assumption; lia.
  - specialize (Hleft eq_refl).
    assert (Hk0 : 0 <= k) by lia.
    rewrite (textRound_shift _ _ _ _ _ _ k Hr Hrem Hk0).
    apply (IH this1 this' k fuel1 fuel2 H Hoff1 R1 Hrem' Hk); [lia|exact Hf2].
Qed.


(** Once the loop of [seek] has gone on to another node, [_resetOffset] is
    set in its result. *)
Lemma seekLoop_later_round :
  forall doc forward fuel this node lastNode r,
    seekLoop fuel doc forward this node lastNode true = Some r ->
    _resetOffset r = true.
Proof.
  intros doc forward fuel.
  induction fuel as [|fuel IH]; intros this node lastNode r H;
    cbn [seekLoop] in H; [discriminate|].
  destruct (seekRound doc forward this node lastNode true)
    as [[this' lastNode'|this' [node'|] lastNode']|];
    try discriminate; try (injection H as <-; reflexivity).
  apply (IH _ _ _ _ H).
Qed.

(** A seek whose result has [_resetOffset] unset was over in its first
    round, inside a text node. *)
Lemma seekLoop_first_round :
  forall doc forward fuel this node lastNode resetOffset r,
    seekLoop fuel doc forward this node lastNode resetOffset = Some r ->
    _resetOffset r = false ->
    resetOffset = false /\
    nodeType doc node = TEXT_NODE /\
    exists this',
      seekTextNode forward doc this node false = Some (this', false) /\
      r = finish node false this'.
Proof.
  intros doc forward fuel this node lastNode resetOffset r H Hr.
  destruct fuel as [|fuel]; cbn [seekLoop] in H; [discriminate|].
  destruct (seekRound doc forward this node lastNode resetOffset)
    as [[this' lastNode'|this' [node'|] lastNode']|] eqn:Hround;
    try discriminate.
  - injection H as <-. simpl in Hr. subst resetOffset. split; [reflexivity|].
    unfold seekRound in Hround. destruct (nodeType doc node).
    + split; [reflexivity|].
      fold (seekTextNode forward doc this node false) in Hround.
      destruct (seekTextNode forward doc this node false) as [[t [|]]|];
        try discriminate.
      * unfold advance in Hround.
        destruct (getNextNode doc node forward false []). discriminate.
      * injection Hround as <- <-. exists t. split; reflexivity.
    + destruct (elementSeekInfo doc node) as [en nl].
      unfold advance in Hround. destruct (getNextNode _ _ _ _ _). discriminate.
    + unfold advance in Hround. destruct (getNextNode _ _ _ _ _). discriminate.
  - apply seekLoop_later_round in H. congruence.
  - injection H as <-. simpl in Hr. discriminate.
Qed.

Lemma getWhitespaceSettings_settings :
  forall doc this this' textNode,
    _forcePreserveWhitespace this' = _forcePreserveWhitespace this ->
    _getWhitespaceSettings doc this' textNode
    = _getWhitespaceSettings doc this textNode.
Proof.
  intros doc this this' textNode H. unfold _getWhitespaceSettings.
  rewrite H. reflexivity.
Qed.

(** The first round of a seek that went on from where an earlier one was
    over, and the same round of the one seek over both lengths. *)
Lemma seekTextNode_split :
  forall forward doc this textNode this' extra,
    seekTextNode forward doc this textNode false = Some (this', false) ->
    (_offset this <= List.length (nodeValueOf doc textNode))%nat ->
    1 <= _remainder this -> 1 <= extra ->
    sameSettings this this' /\
    seekTextNode forward doc (set_remainder extra this') textNode false
    = seekTextNode forward doc (shift extra this) textNode false.
Proof.
  intros forward doc this textNode this' k H Hoff Hrem Hk.
  destruct (seekTextNode_ok forward doc this textNode false (fun _ => Hoff) Hrem)
    as [t [Hs [_ [Hrem0 [Hset [Hofft _]]]]]].
  rewrite H in Hs. injection Hs as -> Hz. symmetry in Hz.
  apply Z.ltb_ge in Hz.
  split; [exact Hset|].
  rewrite seekTextNode_eq in H. rewrite !seekTextNode_eq. cbv zeta in *.
  rewrite (getWhitespaceSettings_settings doc this (set_remainder k t) textNode)
    by (simpl; apply Hset).
  change (_getWhitespaceSettings doc (shift k this) textNode)
    with (_getWhitespaceSettings doc this textNode).
  destruct (_getWhitespaceSettings doc this textNode) as [pn pw].
  destruct (seekTextNodeLoop forward _ _ pn pw this) as [t'|] eqn:Hl;
    [|discriminate].
  injection H as ->.
  assert (Hshift : set_remainder k t = shift k t).
  { unfold shift. f_equal. lia. }
  rewrite Hshift.
  rewrite (seekTextNodeLoop_split _ _ _ _ _ _ _ k
             (if forward
              then List.length (nodeValueOf doc textNode)
              else _offset (shift k this))
             (if forward
              then List.length (nodeValueOf doc textNode)
              else _offset (shift k t))
             Hl Hoff Hrem Hz Hk).
  - reflexivity.
  - unfold textLeft. destruct forward; simpl; lia.
  - unfold textLeft. destruct forward; simpl; lia.
Qed.

(** X12: two seeks in a row are one.  When a seek is over inside the
    text node it was started in ([_resetOffset] is unset in its result), a
    second seek in the same direction gives what the one seek over the sum of
    the two lengths gives from the start, for lengths whose sum is within the
    safe integers. *)
Theorem seek_composes :
  forall (doc : Node) (this r : DOMTextScanner) (a b : Z),
    validStart doc this ->
    a <> 0 -> b <> 0 -> (a >=? 0) = (b >=? 0) ->
    safeLength (a + b) ->
    seek doc this a = Some r ->
    _resetOffset r = false ->
    seek doc r b = seek doc this (a + b).
Proof.
  intros doc this r a b [Hnode Hvalid] Ha Hb Hdir _ H Hr.
  destruct (seek_nonzero doc this a Ha) as [Hseek _].
  rewrite Hseek in H.
  destruct (seekLoop_first_round _ _ _ _ _ _ _ _ H Hr)
    as [Hreset [Htext [c1 [Hs ->]]]].
  assert (Hoff : (_offset (set_remainder (Z.abs a) this)
                  <= List.length (nodeValueOf doc (_node this)))%nat)
    by (apply Hvalid; assumption).
  assert (Hrem : 1 <= _remainder (set_remainder (Z.abs a) this))
    by (simpl; lia).
  assert (Hk : 1 <= Z.abs b) by lia.
  destruct (seekTextNode_split _ _ _ _ _ (Z.abs b) Hs Hoff Hrem Hk)
    as [[Hn [Hro [Hfpw Hglc]]] Hsplit].
  simpl in Hn, Hro.
  assert (Hfin : finish (_node this) false c1 = c1).
  { unfold finish, set_resetOffset, set_node. destruct c1. simpl in *.
    rewrite <- Hn. rewrite Hro, Hreset. reflexivity. }
  rewrite Hfin.
  assert (Hab : a + b <> 0).
  { destruct (a >=? 0) eqn:Ea; symmetry in Hdir;
      [apply Z.geb_le in Ea, Hdir|rewrite Z.geb_leb in Ea, Hdir;
                                  apply Z.leb_gt in Ea, Hdir]; lia. }
  assert (Hsum : (a + b >=? 0) = (a >=? 0) /\ Z.abs (a + b) = Z.abs a + Z.abs b).
  { destruct (a >=? 0) eqn:Ea; symmetry in Hdir.
    - apply Z.geb_le in Ea, Hdir. split; [apply Z.geb_le|]; lia.
    - rewrite Z.geb_leb in Ea, Hdir. apply Z.leb_gt in Ea, Hdir.
      split; [rewrite Z.geb_leb; apply Z.leb_gt|]; lia. }
  destruct Hsum as [Hdir' Habs].
  destruct (seek_nonzero doc c1 b Hb) as [-> _].
  destruct (seek_nonzero doc this (a + b) Hab) as [-> _].
  rewrite Hdir', Habs, <- Hdir, Hn, Hro, Hreset.
  destruct (size_S doc) as [m ->]. cbn [seekLoop].
  assert (Hround :
            seekRound doc (a >=? 0) (set_remainder (Z.abs b) c1)
                      (_node this) (_node this) false
            = seekRound doc (a >=? 0) (set_remainder (Z.abs a + Z.abs b) this)
                        (_node this) (_node this) false).
  { unfold seekRound. rewrite Htext.
    fold (seekTextNode (a >=? 0) doc (set_remainder (Z.abs b) c1)
                       (_node this) false).
    fold (seekTextNode (a >=? 0) doc (set_remainder (Z.abs a + Z.abs b) this)
                       (_node this) false).
    rewrite Hsplit. reflexivity. }
  rewrite Hround. reflexivity.
Qed.


(* ------------------------------------------------------------------ *)
(** ** Blank text *)

Lemma readCharacter_head :
  forall forward nodeValue this,
    textPending forward nodeValue this = true ->
    (_offset this <= List.length nodeValue)%nat ->
    exists u rest,
      readCharacter forward nodeValue (_offset this) = u :: rest /\
      In u nodeValue.
Proof.
  intros forward nodeValue this Hpend Hoff.
  unfold readCharacter, textPending in *. destruct forward.
  - apply Nat.ltb_lt in Hpend. rewrite readCodePointsForward_one.
    destruct (nth_error nodeValue (_offset this)) as [c|] eqn:E;
      [|apply nth_error_None in E; lia].
    apply nth_error_In in E.
    destruct (nth_error nodeValue (S (_offset this)));
      [destruct (isHighSurrogate c && isLowSurrogate z)|]; eauto.
  - apply Nat.ltb_lt in Hpend. rewrite readCodePointsBackward_one.
    destruct (nth_error nodeValue (_offset this - 1)) as [c|] eqn:E;
      [|apply nth_error_None in E; lia].
    apply nth_error_In in E.
    destruct (_offset this - 1)%nat as [|p]; [eauto|].
    destruct (nth_error nodeValue p) as [c2|] eqn:E2; [|eauto].
    apply nth_error_In in E2.
    destruct (isLowSurrogate c && isHighSurrogate c2); eauto.
Qed.

Lemma blank_round :
  forall forward nodeValue pn pw this,
    blankText pn pw nodeValue ->
    textPending forward nodeValue this = true ->
    (_offset this <= List.length nodeValue)%nat ->
    exists this',
      textRound forward nodeValue pn pw this = (this', false) /\
      _content this' = _content this /\
      _remainder this' = _remainder this /\
      _newlines this' = _newlines this /\
      _lineHasContent this' = _lineHasContent this /\
      (_lineHasWhitespace this = true -> _lineHasWhitespace this' = true).
Proof.
  intros forward nodeValue pn pw this Hblank Hpend Hoff.
  destruct (readCharacter_head forward nodeValue this Hpend Hoff)
    as [u [rest [Hread Hin]]].
  unfold blankText in Hblank. rewrite Forall_forall in Hblank.
  specialize (Hblank u Hin).
  unfold textRound. rewrite Hread.
  change (getCharacterAttributes (u :: rest) pn pw)
    with (getCharacterAttributes [u] pn pw).
  unfold checkCharacter.
  destruct (getCharacterAttributes [u] pn pw =? 1) eqn:E1.
  - eexists. split; [reflexivity|]. simpl. repeat split; auto.
  - assert (E23 : (getCharacterAttributes [u] pn pw =? 2)
                  || (getCharacterAttributes [u] pn pw =? 3) = false).
    { apply orb_false_iff. split; apply Z.eqb_neq; lia. }
    rewrite E23. eexists. split; [reflexivity|]. simpl. repeat split; auto.
Qed.

Lemma blank_loop :
  forall forward nodeValue pn pw fuel this,
    blankText pn pw nodeValue ->
    (textLeft forward nodeValue this <= fuel)%nat ->
    (_offset this <= List.length nodeValue)%nat ->
    1 <= _remainder this ->
    exists this',
      seekTextNodeLoop forward fuel nodeValue pn pw this = Some this' /\
      _content this' = _content this /\
      _remainder this' = _remainder this /\
      _newlines this' = _newlines this /\
      _lineHasContent this' = _lineHasContent this /\
      (_lineHasWhitespace this = true -> _lineHasWhitespace this' = true) /\
      _offset this' = (if forward then List.length nodeValue else O).
Proof.
  intros forward nodeValue pn pw fuel.
  induction fuel as [|fuel IH]; intros this Hblank Hfuel Hoff Hrem;
    cbn [seekTextNodeLoop];
    destruct (textPending forward nodeValue this) eqn:Hp.
  - unfold textPending, textLeft in *.
    destruct forward; apply Nat.ltb_lt in Hp; lia.
  - exists this. repeat split; auto.
    unfold textPending in Hp. destruct forward; apply Nat.ltb_ge in Hp; lia.
  - destruct (blank_round forward nodeValue pn pw this Hblank Hp Hoff)
      as [t [Hr [Hc [Hm [Hn [Hl Hw]]]]]].
    rewrite Hr.
    destruct (textRound_ok _ _ _ _ _ _ _ Hp Hoff Hrem Hr)
      as [_ [Hoff1 Hleft]].
    specialize (Hleft eq_refl).
    destruct (IH t Hblank) as [t' [Hs [Hc' [Hm' [Hn' [Hl' [Hw' Ho']]]]]]];
      [lia|exact Hoff1|lia|].
    exists t'. split; [exact Hs|]. repeat split; try congruence; auto.
  - exists this. repeat split; auto.
    unfold textPending in Hp. destruct forward; apply Nat.ltb_ge in Hp; lia.
Qed.

(** X13: a text node of blank text is passed in silence.  When every code
    unit of the text is ignorable or collapsible whitespace under the
    whitespace settings of the node, [_seekTextNodeForward] and
    [_seekTextNodeBackward] read it to its end and tell [seek] to go on,
    and neither the content, nor the remainder, nor the pending newlines
    have changed: all that is left of the text is a pending whitespace. *)
Theorem blank_text_emits_nothing :
  forall (forward : bool) (doc : Node) (this : DOMTextScanner)
         (textNode : NodeRef) (resetOffset : bool),
    blankText (fst (_getWhitespaceSettings doc this textNode))
              (snd (_getWhitespaceSettings doc this textNode))
              (nodeValueOf doc textNode) ->
    (resetOffset = false ->
     (_offset this <= List.length (nodeValueOf doc textNode))%nat) ->
    1 <= _remainder this ->
    exists this',
      (if forward then _seekTextNodeForward doc this textNode resetOffset
       else _seekTextNodeBackward doc this textNode resetOffset)
      = Some (this', true) /\
      _content this' = _content this /\
      _remainder this' = _remainder this /\
      _newlines this' = _newlines this /\
      _lineHasContent this' = _lineHasContent this /\
      (_lineHasWhitespace this = true -> _lineHasWhitespace this' = true) /\
      _offset this'
      = (if forward then List.length (nodeValueOf doc textNode) else O).
Proof.
  intros forward doc this textNode resetOffset Hblank Hoff Hrem.
  fold (seekTextNode forward doc this textNode resetOffset).
  rewrite seekTextNode_eq. cbv zeta.
  destruct (_getWhitespaceSettings doc this textNode) as [pn pw].
  cbn [fst snd] in Hblank.
  set (nodeValue := nodeValueOf doc textNode) in *.
  set (this0 := if resetOffset
                then set_offset (if forward then O else List.length nodeValue) this
                else this).
  assert (H0 : (_offset this0 <= List.length nodeValue)%nat /\
               _remainder this0 = _remainder this /\
               _content this0 = _content this /\
               _newlines this0 = _newlines this /\
               _lineHasContent this0 = _lineHasContent this /\
               _lineHasWhitespace this0 = _lineHasWhitespace this).
  { unfold this0. destruct resetOffset; simpl.
    - repeat split; auto. destruct forward; lia.
    - repeat split; auto. }
  destruct H0 as [Hoff0 [Hrem0 [Hc0 [Hn0 [Hl0 Hw0]]]]].
  destruct (blank_loop forward nodeValue pn pw
              (if forward then List.length nodeValue else _offset this0) this0
              Hblank)
    as [t [Hs [Hc [Hm [Hn [Hl [Hw Ho]]]]]]].
  - unfold textLeft. destruct forward; lia.
  - exact Hoff0.
  - lia.
  - rewrite Hs. exists t.
    assert (Hpos : (0 <? _remainder t) = true) by (apply Z.ltb_lt; lia).
    rewrite Hpos. split; [reflexivity|].
    repeat split; try congruence.
    intros Hwt. apply Hw. congruence.
Qed.

Lemma blank_text_emits_nothing_witness :
  exists this',
    _seekTextNodeForward docBlank
      (set_remainder 5 (constructor docBlank blankNode 0 false true))
      blankNode false
    = Some (this', true) /\
    _content this' = [] /\ _remainder this' = 5 /\ _newlines this' = 0 /\
    _lineHasContent this' = false /\
    (false = true -> _lineHasWhitespace this' = true) /\
    _offset this' = 5%nat.
Proof.
  apply (blank_text_emits_nothing
           true docBlank
           (set_remainder 5 (constructor docBlank blankNode 0 false true))
           blankNode false).
  - vm_compute. repeat constructor; discriminate.
  - intros _. simpl. lia.
  - simpl. lia.
Defined.


Lemma seek_composes_witness :
  exists r,
    seek docSpacesInP (constructor docSpacesInP [0; 0; 0; 0]%nat 0 false true) 2
    = Some r /\
    seek docSpacesInP r 1
    = seek docSpacesInP
           (constructor docSpacesInP [0; 0; 0; 0]%nat 0 false true) (2 + 1).
Proof.
  eexists. split; [vm_compute; reflexivity|].
  apply (seek_composes
           docSpacesInP
           (constructor docSpacesInP [0; 0; 0; 0]%nat 0 false true) _ 2 1).
  - split; [reflexivity|]. intros _ _. simpl. lia.
  - lia.
  - lia.
  - reflexivity.
  - unfold safeLength, maxSafeInteger. simpl. lia.
  - vm_compute. reflexivity.
  - reflexivity.
Defined.

Lemma seek_ignores_offset_witness :
  seek docRuby (set_offset 7 (constructor docRuby rubyElement 0 false true)) 3
  = seek docRuby (constructor docRuby rubyElement 0 false true) 3.
Proof.
  apply (seek_ignores_offset docRuby
                             (constructor docRuby rubyElement 0 false true) 3 7).
  - lia.
  - left. reflexivity.
Defined.

Lemma seek_validStart_witness : validStart docTwoDivs scannerAfterFo.
Proof.
  apply (seek_validStart docTwoDivs scannerAtFoo 2 scannerAfterFo).
  - split; [reflexivity|]. intros _ _. simpl. lia.
  - vm_compute. reflexivity.
Defined.

(* ------------------------------------------------------------------ *)
(** ** Whitespace settings *)

(** X15: [_getWhitespaceSettings] never preserves whitespace without
    preserving newlines; with [forcePreserveWhitespace] it preserves both,
    whatever the document.  So wherever a space is a significant character a
    line feed is a significant newline, and a collapsible line feed comes with
    collapsible spaces. *)
Theorem getWhitespaceSettings_newlines_first :
  forall (doc : Node) (this : DOMTextScanner) (textNode : NodeRef),
    (snd (_getWhitespaceSettings doc this textNode) = true ->
     fst (_getWhitespaceSettings doc this textNode) = true) /\
    (_forcePreserveWhitespace this = true ->
     _getWhitespaceSettings doc this textNode = (true, true)) /\
    (getCharacterAttributes [space]
       (fst (_getWhitespaceSettings doc this textNode))
       (snd (_getWhitespaceSettings doc this textNode)) = 2 ->
     getCharacterAttributes [newline]
       (fst (_getWhitespaceSettings doc this textNode))
       (snd (_getWhitespaceSettings doc this textNode)) = 3).
Proof.
  intros doc this textNode.
  assert (H : _getWhitespaceSettings doc this textNode = (true, true) \/
              _getWhitespaceSettings doc this textNode = (true, false) \/
              _getWhitespaceSettings doc this textNode = (false, false)).
  { unfold _getWhitespaceSettings.
    destruct (_forcePreserveWhitespace this); [auto|].
    destruct (getParentElement doc textNode) as [e|]; [|auto].
    destruct (getNode doc e) as [[v|name style cs|cs]|]; auto.
    destruct (String.eqb (whiteSpace style) "pre"
              || String.eqb (whiteSpace style) "pre-wrap"
              || String.eqb (whiteSpace style) "break-spaces"); [auto|].
    destruct (String.eqb (whiteSpace style) "pre-line"); auto. }
  split; [|split].
  - destruct H as [ -> | [ -> | -> ] ]; simpl; auto.
  - intros Hf. unfold _getWhitespaceSettings. rewrite Hf. reflexivity.
  - destruct H as [ -> | [ -> | -> ] ]; simpl; auto; discriminate.
Qed.

Lemma getWhitespaceSettings_newlines_first_witness :
  _getWhitespaceSettings docTwoDivs
    (constructor docTwoDivs fooText 0 true true) fooText = (true, true).
Proof.
  apply (getWhitespaceSettings_newlines_first
           docTwoDivs (constructor docTwoDivs fooText 0 true true) fooText).
  reflexivity.
Defined.

(* ------------------------------------------------------------------ *)
(** ** Transparent colours *)

Lemma list_ascii_of_string_app :
  forall s t : string,
    list_ascii_of_string (s ++ t)
    = (list_ascii_of_string s ++ list_ascii_of_string t)%list.
Proof.
  intros s t. induction s as [|c s IH]; simpl; [reflexivity|].
  rewrite IH. reflexivity.
Qed.

Lemma endsWithZeroAlpha_suffix :
  forall (s t : string),
    endsWithZeroAlpha (s ++ t)
    = match (rev (list_ascii_of_string t) ++ rev (list_ascii_of_string s))%list with
      | c :: rest => (Ascii.eqb c ")"%char && zerosThen rest)%bool
      | [] => false
      end.
Proof.
  intros s t. unfold endsWithZeroAlpha.
  rewrite list_ascii_of_string_app, rev_app_distr. reflexivity.
Qed.

(** X16: [isCSSColorTransparent] on colours as computed styles give them.
    Whatever the colour channels [s], an [rgba(] colour whose alpha is written
    [0] or [0.0] is transparent, one whose alpha is [1] or [0.5] is not, and
    neither is any [rgb(] colour nor a value that is not a string. *)
Theorem isCSSColorTransparent_alpha :
  forall s : string,
    isCSSColorTransparent (Some ("rgba(" ++ s ++ ", 0)")%string) = true /\
    isCSSColorTransparent (Some ("rgba(" ++ s ++ ", 0.0)")%string) = true /\
    isCSSColorTransparent (Some ("rgba(" ++ s ++ ", 1)")%string) = false /\
    isCSSColorTransparent (Some ("rgba(" ++ s ++ ", 0.5)")%string) = false /\
    isCSSColorTransparent (Some ("rgb(" ++ s)%string) = false /\
    isCSSColorTransparent None = false.
Proof.
  intros s. unfold isCSSColorTransparent, startsWith.
  repeat split; try reflexivity.
  all: rewrite endsWithZeroAlpha_suffix, list_ascii_of_string_app, rev_app_distr.
  all: simpl.
  all: rewrite ?andb_false_r, ?andb_true_r; try reflexivity.
  all: match goal with
       | |- prefix EmptyString ?x = true => destruct x; reflexivity
       end.
Qed.

(* ================================================================== *)
(** * What a seek writes, and the text of the document *)

(* ------------------------------------------------------------------ *)
(** ** Pieces *)

Lemma written_app :
  forall ps qs, written (ps ++ qs) = (written ps ++ written qs)%list.
Proof.
  intros ps qs. unfold written. rewrite map_app, concat_app. reflexivity.
Qed.

Lemma render_nil : forall forward content, render forward content [] = content.
Proof.
  intros [|] content; unfold render, written; simpl;
    [apply app_nil_r|reflexivity].
Qed.

Lemma render_app :
  forall forward content ps qs,
    render forward (render forward content ps) qs
    = render forward content (ps ++ qs).
Proof.
  intros [|] content ps qs; unfold render.
  - rewrite written_app, app_assoc. reflexivity.
  - rewrite rev_app_distr, written_app, app_assoc. reflexivity.
Qed.

Lemma render_one :
  forall forward content p,
    render forward content [p]
    = if forward then (content ++ pieceText p)%list
      else (pieceText p ++ content)%list.
Proof.
  intros [|] content p; unfold render, written; simpl;
    rewrite app_nil_r; reflexivity.
Qed.

Lemma charactersOf_app :
  forall ps qs, charactersOf (ps ++ qs) = (charactersOf ps ++ charactersOf qs)%list.
Proof.
  intros ps qs. induction ps as [|[| |c] ps IH]; simpl; try assumption.
  - reflexivity.
  - rewrite IH. reflexivity.
Qed.

Lemma charactersOf_newlines :
  forall k, charactersOf (repeat LayoutNewline k) = [].
Proof. intros k. induction k; simpl; auto. Qed.

Lemma written_newlines :
  forall k, written (repeat LayoutNewline k) = repeat newline k.
Proof.
  intros k. unfold written. induction k; simpl; [reflexivity|].
  rewrite IHk. reflexivity.
Qed.

Lemma rev_repeat : forall (A : Type) (x : A) (k : nat), rev (repeat x k) = repeat x k.
Proof.
  intros A x k. induction k as [|k IH]; [reflexivity|].
  simpl. rewrite IH. symmetry. apply repeat_cons.
Qed.

Lemma Renders_refl : forall forward this, Renders forward this this [].
Proof.
  intros forward this. split; [rewrite render_nil; reflexivity|simpl; lia].
Qed.

Lemma Renders_trans :
  forall forward a b c ps qs,
    Renders forward a b ps -> Renders forward b c qs ->
    Renders forward a c (ps ++ qs).
Proof.
  intros forward a b c ps qs [C1 R1] [C2 R2]. split.
  - rewrite C2, C1. apply render_app.
  - rewrite R2, R1, length_app. lia.
Qed.

Lemma Quiet_Renders :
  forall forward this this', Quiet this this' -> Renders forward this this' [].
Proof.
  intros forward this this' [C [R _]]. split;
    [rewrite render_nil; exact C|simpl; lia].
Qed.

(** The pieces read as the characters of the earlier lemmas. *)
Lemma Renders_length :
  forall forward this this' ps,
    Renders forward this this' ps ->
    Z.of_nat (List.length ps) = _remainder this - _remainder this'.
Proof. intros forward this this' ps [_ R]. lia. Qed.

(* ------------------------------------------------------------------ *)
(** ** The check of a character, piece by piece *)

Lemma pendingNewlines_renders :
  forall forward this char this' stop,
    1 <= _remainder this ->
    pendingNewlines forward this char = (this', stop) ->
    exists k,
      Renders forward this this' (repeat LayoutNewline k) /\
      _offset this'
      = (if stop then _offset (revertOffset forward char this)
         else _offset this).
Proof.
  intros forward this char this' stop Hrem H. unfold pendingNewlines in H.
  destruct (0 <? _newlines this) eqn:Hnl.
  2:{ injection H as <- <-. exists O. split; [apply Renders_refl|reflexivity]. }
  apply Z.ltb_lt in Hnl.
  destruct (0 <? Z.of_nat (List.length (_content this))) eqn:Hc.
  - simpl in H.
    exists (Z.to_nat (Z.min (_remainder this) (_newlines this))).
    assert (HR : forall c,
               _content c
               = (if forward
                  then _content this
                       ++ repeat newline
                            (Z.to_nat (Z.min (_remainder this) (_newlines this)))
                  else repeat newline
                         (Z.to_nat (Z.min (_remainder this) (_newlines this)))
                       ++ _content this)%list ->
               _remainder c
               = _remainder this - Z.min (_remainder this) (_newlines this) ->
               Renders forward this c
                       (repeat LayoutNewline
                          (Z.to_nat (Z.min (_remainder this) (_newlines this))))).
    { intros c Hcont Hr. split.
      - rewrite Hcont. unfold render.
        destruct forward; rewrite ?rev_repeat, written_newlines; reflexivity.
      - rewrite Hr, repeat_length, Z2Nat.id by lia. reflexivity. }
    destruct (_remainder this - Z.min (_remainder this) (_newlines this) <=? 0);
      injection H as <- <-; (split; [apply HR; reflexivity|reflexivity]).
  - simpl in H. exists O.
    destruct (_remainder this <=? 0); injection H as <- <-;
      (split; [split; [rewrite render_nil; reflexivity|simpl; lia]
              |reflexivity]).
Qed.

Lemma pendingWhitespace_renders :
  forall forward this char this' stop,
    pendingWhitespace forward this char = (this', stop) ->
    exists ps,
      Renders forward this this' ps /\ charactersOf ps = [] /\
      _offset this'
      = (if stop then _offset (revertOffset forward char this)
         else _offset this).
Proof.
  intros forward this char this' stop H. unfold pendingWhitespace in H.
  destruct (_lineHasWhitespace this).
  - destruct (_lineHasContent this).
    + simpl in H. exists [CollapsedSpace].
      assert (HR : forall c,
                 _content c
                 = (if forward then _content this ++ [space]
                    else [space] ++ _content this)%list ->
                 _remainder c = _remainder this - 1 ->
                 Renders forward this c [CollapsedSpace]).
      { intros c Hcont Hr. split.
        - rewrite Hcont, render_one. reflexivity.
        - rewrite Hr. simpl. lia. }
      destruct (_remainder this - 1 <=? 0); injection H as <- <-;
        (split; [apply HR; reflexivity|split; reflexivity]).
    + injection H as <- <-. exists [].
      split; [split; [rewrite render_nil; reflexivity|simpl; lia]|].
      split; reflexivity.
  - injection H as <- <-. exists [].
    split; [apply Renders_refl|]. split; reflexivity.
Qed.

Lemma emitCharacter_renders :
  forall forward this char this' stop,
    emitCharacter forward this char = (this', stop) ->
    Renders forward this this' [Character char] /\ _offset this' = _offset this.
Proof.
  intros forward this char this' stop H. unfold emitCharacter in H.
  injection H as <- _. split; [|reflexivity]. split.
  - rewrite render_one. reflexivity.
  - simpl. lia.
Qed.

(** The check of a character writes pending newlines, then the space of a
    pending run of whitespace, then the character itself, when it is
    significant and the remainder was not used up before it; a check that
    stops before the character puts the offset back over it. *)
Lemma checkCharacter_renders :
  forall forward this char charAttributes this' stop,
    1 <= _remainder this ->
    checkCharacter forward this char charAttributes = (this', stop) ->
    exists ps,
      Renders forward this this' ps /\
      (((charAttributes = 2 \/ charAttributes = 3) /\
        charactersOf ps = [char] /\ _offset this' = _offset this) \/
       ((charAttributes = 2 \/ charAttributes = 3) /\
        charactersOf ps = [] /\ stop = true /\
        _offset this' = _offset (revertOffset forward char this)) \/
       (charAttributes <> 2 /\ charAttributes <> 3 /\
        ps = [] /\ stop = false /\ _offset this' = _offset this)).
Proof.
  intros forward this char a this' stop Hrem H. unfold checkCharacter in H.
  destruct (a =? 1) eqn:Ha1.
  { injection H as <- <-. apply Z.eqb_eq in Ha1. exists [].
    split; [split; [rewrite render_nil; reflexivity|simpl; lia]|].
    right. right. repeat split; lia. }
  destruct ((a =? 2) || (a =? 3)) eqn:Ha.
  2:{ injection H as <- <-. exists []. split; [apply Renders_refl|].
      apply orb_false_iff in Ha as [H2 H3].
      apply Z.eqb_neq in H2, H3. right. right. repeat split; assumption. }
  assert (Hsig : a = 2 \/ a = 3).
  { apply orb_true_iff in Ha as [Ha|Ha]; apply Z.eqb_eq in Ha; auto. }
  destruct (pendingNewlines forward this char) as [c1 s1] eqn:H1.
  destruct (pendingNewlines_renders _ _ _ _ _ Hrem H1) as [k [R1 O1]].
  destruct s1.
  { injection H as <- <-. exists (repeat LayoutNewline k).
    split; [exact R1|]. right. left.
    split; [exact Hsig|]. split; [apply charactersOf_newlines|].
    split; [reflexivity|exact O1]. }
  destruct (pendingWhitespace forward (set_lineHasContent (a =? 2) c1) char)
    as [c2 s2] eqn:H2.
  destruct (pendingWhitespace_renders _ _ _ _ _ H2) as [ps2 [R2 [Ch2 O2]]].
  assert (R12 : Renders forward this c2 (repeat LayoutNewline k ++ ps2)).
  { eapply Renders_trans; [exact R1|]. destruct R2 as [C2 M2].
    split; [exact C2|exact M2]. }
  destruct s2.
  { injection H as <- <-. exists (repeat LayoutNewline k ++ ps2).
    split; [exact R12|]. right. left.
    split; [exact Hsig|].
    split; [rewrite charactersOf_app, charactersOf_newlines, Ch2; reflexivity|].
    split; [reflexivity|]. rewrite O2. simpl. simpl in O1.
    rewrite O1. reflexivity. }
  destruct (emitCharacter_renders _ _ _ _ _ H) as [R3 O3].
  exists ((repeat LayoutNewline k ++ ps2) ++ [Character char]).
  split; [eapply Renders_trans; eassumption|]. left.
  split; [exact Hsig|]. split.
  - rewrite !charactersOf_app, charactersOf_newlines, Ch2. reflexivity.
  - rewrite O3, O2. simpl. exact O1.
Qed.

(* ------------------------------------------------------------------ *)
(** ** The characters of a text node *)

Lemma isSignificant_attributes :
  forall (u : Z) (rest : jsstring) (pn pw : bool),
    isSignificant pn pw (u :: rest)
    = (getCharacterAttributes (u :: rest) pn pw =? 2)
      || (getCharacterAttributes (u :: rest) pn pw =? 3).
Proof.
  intros u rest pn pw.
  unfold isSignificant, getCharacterAttributes, classifySpec, memZ, charCodeAt0;
    simpl.
  unfold tab, formFeed, carriageReturn, space, lineFeed, zeroWidthSpace,
    zeroWidthNonJoiner, significant, significantNewline, collapsibleWhitespace,
    ignorable.
  rewrite !orb_false_r.
  destruct (u =? 9); simpl; [destruct pw; reflexivity|].
  destruct (u =? 12); simpl; [destruct pw; reflexivity|].
  destruct (u =? 13); simpl; [destruct pw; reflexivity|].
  destruct (u =? 32); simpl; [destruct pw; reflexivity|].
  destruct (u =? 10); simpl; [destruct pn; reflexivity|].
  destruct (u =? 8203); simpl; [reflexivity|].
  destruct (u =? 8204); simpl; reflexivity.
Qed.

(** Reading forward at an offset takes the first code point that lies ahead. *)
Lemma charactersAhead_forward :
  forall (nodeValue : jsstring) (offset : nat),
    (offset < List.length nodeValue)%nat ->
    let char := StringUtil.readCodePointsForward nodeValue offset 1 in
    charactersAhead true nodeValue offset
    = char :: charactersAhead true nodeValue (offset + List.length char).
Proof.
  intros v o Hlt. cbv zeta. rewrite readCodePointsForward_one.
  unfold charactersAhead.
  destruct (nth_error v o) as [c|] eqn:E; [|apply nth_error_None in E; lia].
  rewrite (skipn_nth_error _ _ _ _ E). cbn [codePoints].
  destruct (nth_error v (S o)) as [c2|] eqn:E2.
  - rewrite (skipn_nth_error _ _ _ _ E2).
    destruct (isHighSurrogate c && isLowSurrogate c2); simpl List.length.
    + replace (o + 2)%nat with (S (S o)) by lia. reflexivity.
    + replace (o + 1)%nat with (S o) by lia.
      rewrite (skipn_nth_error _ _ _ _ E2). reflexivity.
  - apply nth_error_None in E2. rewrite (skipn_all2 v E2).
    simpl List.length. replace (o + 1)%nat with (S o) by lia.
    rewrite (skipn_all2 v E2). reflexivity.
Qed.

(** Reading backward at an offset takes the first code point that lies
    before it. *)
Lemma charactersAhead_backward :
  forall (nodeValue : jsstring) (offset : nat),
    (0 < offset <= List.length nodeValue)%nat ->
    let char := StringUtil.readCodePointsBackward nodeValue (offset - 1) 1 in
    charactersAhead false nodeValue offset
    = char :: charactersAhead false nodeValue (offset - List.length char).
Proof.
  intros v o Ho. cbv zeta.
  assert (Hp : exists p, o = S p) by (exists (o - 1)%nat; lia).
  destruct Hp as [p ->]. replace (S p - 1)%nat with p by lia.
  rewrite readCodePointsBackward_one. unfold charactersAhead.
  destruct (nth_error v p) as [c|] eqn:E; [|apply nth_error_None in E; lia].
  rewrite (firstn_nth_error _ _ _ _ E), rev_app_distr.
  cbn [rev app codePointsBackward].
  destruct p as [|p].
  - reflexivity.
  - destruct (nth_error v p) as [c2|] eqn:E2;
      [|apply nth_error_None in E2; lia].
    rewrite (firstn_nth_error _ _ _ _ E2), rev_app_distr.
    cbn [rev app].
    destruct (isLowSurrogate c && isHighSurrogate c2).
    + replace (S (S p) - List.length [c2; c])%nat with p by (simpl; lia).
      reflexivity.
    + replace (S (S p) - List.length [c])%nat with (S p) by (simpl; lia).
      rewrite (firstn_nth_error _ _ _ _ E2), rev_app_distr. reflexivity.
Qed.

Lemma charactersAhead_read :
  forall forward nodeValue this,
    textPending forward nodeValue this = true ->
    (_offset this <= List.length nodeValue)%nat ->
    let char := readCharacter forward nodeValue (_offset this) in
    (exists u rest, char = u :: rest) /\
    charactersAhead forward nodeValue (_offset this)
    = char :: charactersAhead forward nodeValue
                              (_offset (moveOffset forward char this)) /\
    _offset (revertOffset forward char (moveOffset forward char this))
    = _offset this.
Proof.
  intros forward v this Hp Hoff. cbv zeta.
  unfold readCharacter, textPending, moveOffset, revertOffset in *.
  destruct forward; apply Nat.ltb_lt in Hp; cbn [_offset set_offset].
  - destruct (readForward_character v (_offset this) Hp) as [_ [Hlen _]].
    split; [|split; [apply charactersAhead_forward; exact Hp|lia]].
    destruct (StringUtil.readCodePointsForward v (_offset this) 1) as [|u rest];
      [simpl in Hlen; lia|exists u, rest; reflexivity].
  - destruct (readBackward_character v (_offset this)) as [_ Hlen]; [lia|].
    split; [|split; [apply charactersAhead_backward; lia|lia]].
    destruct (StringUtil.readCodePointsBackward v (_offset this - 1) 1)
      as [|u rest];
      [simpl in Hlen; lia|exists u, rest; reflexivity].
Qed.

Lemma charactersAhead_edge :
  forall forward nodeValue this,
    textPending forward nodeValue this = false ->
    (_offset this <= List.length nodeValue)%nat ->
    charactersAhead forward nodeValue (_offset this) = [].
Proof.
  intros forward v this Hp Hoff. unfold textPending, charactersAhead in *.
  destruct forward; apply Nat.ltb_ge in Hp.
  - rewrite skipn_all2 by lia. reflexivity.
  - replace (_offset this) with O by lia. reflexivity.
Qed.

(** One round of a text loop: the significant character read is written,
    unless the remainder was used up before it (and then it is still ahead). *)
Lemma textRound_renders :
  forall forward nodeValue pn pw this this' stop,
    textPending forward nodeValue this = true ->
    (_offset this <= List.length nodeValue)%nat ->
    1 <= _remainder this ->
    textRound forward nodeValue pn pw this = (this', stop) ->
    exists ps,
      Renders forward this this' ps /\
      (charactersOf ps
       ++ filter (isSignificant pn pw)
                 (charactersAhead forward nodeValue (_offset this')))%list
      = filter (isSignificant pn pw)
               (charactersAhead forward nodeValue (_offset this)).
Proof.
  intros forward v pn pw this this' stop Hp Hoff Hrem H.
  destruct (charactersAhead_read forward v this Hp Hoff)
    as [[u [rest Hchar]] [Hahead Hback]].
  unfold textRound in H.
  set (char := readCharacter forward v (_offset this)) in *.
  destruct (checkCharacter_renders
              forward (moveOffset forward char this) char _ _ _ Hrem H)
    as [ps [[C R] Hcase]].
  exists ps. split; [split; [exact C|exact R]|].
  rewrite Hahead. cbn [filter].
  rewrite Hchar at 1. rewrite isSignificant_attributes. rewrite <- Hchar.
  destruct Hcase as [[Hsig [Hch Ho]]|[[Hsig [Hch [_ Ho]]]|[H2 [H3 [-> [_ Ho]]]]]].
  - rewrite Hch, Ho.
    replace ((getCharacterAttributes char pn pw =? 2)
             || (getCharacterAttributes char pn pw =? 3)) with true
      by (symmetry; apply orb_true_iff;
          destruct Hsig as [->| ->]; [left|right]; reflexivity).
    reflexivity.
  - rewrite Hch, Ho, Hback. rewrite Hahead. cbn [filter app].
    rewrite Hchar at 1. rewrite isSignificant_attributes. rewrite <- Hchar.
    reflexivity.
  - rewrite Ho.
    replace ((getCharacterAttributes char pn pw =? 2)
             || (getCharacterAttributes char pn pw =? 3)) with false
      by (symmetry; apply orb_false_iff; split; apply Z.eqb_neq; assumption).
    reflexivity.
Qed.

(** A text loop: what it wrote of the text and what is still ahead of its
    offset make up what was ahead; with a remainder left nothing is ahead. *)
Lemma seekTextNodeLoop_renders :
  forall forward nodeValue pn pw fuel this this',
    (_offset this <= List.length nodeValue)%nat ->
    1 <= _remainder this ->
    seekTextNodeLoop forward fuel nodeValue pn pw this = Some this' ->
    exists ps,
      Renders forward this this' ps /\
      (charactersOf ps
       ++ filter (isSignificant pn pw)
                 (charactersAhead forward nodeValue (_offset this')))%list
      = filter (isSignificant pn pw)
               (charactersAhead forward nodeValue (_offset this)) /\
      (1 <= _remainder this' ->
       charactersAhead forward nodeValue (_offset this') = []).
Proof.
  intros forward v pn pw fuel.
  induction fuel as [|fuel IH]; intros this this' Hoff Hrem H;
    cbn [seekTextNodeLoop] in H;
    destruct (textPending forward v this) eqn:Hp; try discriminate;
    try (injection H as <-; exists []; split; [apply Renders_refl|];
         split; [reflexivity|];
         intros _; apply charactersAhead_edge; assumption).
  destruct (textRound forward v pn pw this) as [t stop] eqn:Hr.
  destruct (textRound_renders _ _ _ _ _ _ _ Hp Hoff Hrem Hr) as [ps [R Hs]].
  destruct (textRound_ok _ _ _ _ _ _ _ Hp Hoff Hrem Hr)
    as [[_ [R1 _]] [Hoff1 _]].
  destruct stop.
  - injection H as <-. exists ps. split; [exact R|]. split; [exact Hs|].
    intros Hleft. lia.
  - destruct (IH t this' Hoff1 R1 H) as [qs [R' [Hs' Hend]]].
    exists (ps ++ qs). split; [eapply Renders_trans; eassumption|].
    split; [|exact Hend].
    rewrite charactersOf_app, <- app_assoc, Hs'. exact Hs.
Qed.

(** A text method: what it wrote of the text node and what is still ahead of
    the offset it ended at make up what was ahead of the offset it started
    from; when it tells [seek] to go on, nothing of the node is ahead. *)
Lemma seekTextNode_renders :
  forall forward doc this textNode resetOffset this' continue,
    (resetOffset = false ->
     (_offset this <= List.length (nodeValueOf doc textNode))%nat) ->
    1 <= _remainder this ->
    seekTextNode forward doc this textNode resetOffset = Some (this', continue) ->
    exists ps,
      Renders forward this this' ps /\
      (charactersOf ps ++ textAhead doc forward this textNode (_offset this'))%list
      = textAhead doc forward this textNode
                  (if resetOffset
                   then edge forward (nodeValueOf doc textNode)
                   else _offset this) /\
      (continue = true ->
       textAhead doc forward this textNode (_offset this') = []).
Proof.
  intros forward doc this textNode resetOffset this' continue Hoff Hrem H.
  rewrite seekTextNode_eq in H. cbv zeta in H. unfold textAhead.
  destruct (_getWhitespaceSettings doc this textNode) as [pn pw].
  set (v := nodeValueOf doc textNode) in *.
  set (this0 := if resetOffset
                then set_offset (if forward then O else List.length v) this
                else this) in *.
  assert (H0 : (_offset this0 <= List.length v)%nat /\
               _remainder this0 = _remainder this /\
               _content this0 = _content this /\
               _offset this0
               = (if resetOffset then edge forward v else _offset this)).
  { unfold this0, edge. destruct resetOffset; simpl.
    - repeat split; auto. destruct forward; lia.
    - repeat split; auto. }
  destruct H0 as [Hoff0 [Hrem0 [Hc0 Ho0]]].
  destruct (seekTextNodeLoop forward _ v pn pw this0) as [t|] eqn:Hl;
    [|discriminate].
  injection H as <- <-.
  destruct (seekTextNodeLoop_renders _ _ _ _ _ _ _ Hoff0 ltac:(lia) Hl)
    as [ps [[C R] [Hs Hend]]].
  exists ps. split; [split; [rewrite C, Hc0; reflexivity|lia]|].
  split; [rewrite Hs, Ho0; reflexivity|].
  intros Hcont. apply Z.ltb_lt in Hcont. rewrite Hend by lia. reflexivity.
Qed.

(* ------------------------------------------------------------------ *)
(** ** The order of the scan and the visible text nodes *)

Lemma getElementSeekInfo_enterable :
  forall (nodeName : string) (style : CSSStyleDeclaration),
    fst (getElementSeekInfo nodeName style)
    = negb (closedTag nodeName) && styleShown style.
Proof.
  intros name style.
  unfold getElementSeekInfo, closedTag, styleShown, memString.
  cbv zeta. simpl existsb.
  destruct (String.eqb (toUpperCase name) "HEAD") eqn:E1;
    [apply String.eqb_eq in E1; rewrite E1; reflexivity|].
  destruct (String.eqb (toUpperCase name) "RT") eqn:E2;
    [apply String.eqb_eq in E2; rewrite E2; reflexivity|].
  destruct (String.eqb (toUpperCase name) "SCRIPT") eqn:E3;
    [apply String.eqb_eq in E3; rewrite E3; reflexivity|].
  destruct (String.eqb (toUpperCase name) "STYLE") eqn:E4;
    [apply String.eqb_eq in E4; rewrite E4; reflexivity|].
  destruct (String.eqb (toUpperCase name) "BR") eqn:E5; [reflexivity|].
  cbn [orb].
  destruct (negb (String.eqb (display style) "none") && isStyleVisible style);
    cbn [negb andb fst snd].
  - rewrite !orb_false_r, andb_true_r. f_equal. rewrite orb_assoc. reflexivity.
  - rewrite andb_false_r. reflexivity.
Qed.

Lemma concat_map_cons :
  forall (A B : Type) (g : list A -> list B) (q : list A) (l : list A),
    List.concat (map g (map (fun j => j :: q) l))
    = List.concat (map (fun j => g (j :: q)) l).
Proof. intros A B g q l. rewrite map_map. reflexivity. Qed.

Lemma rev_concat_map :
  forall (A B : Type) (h : A -> list B) (l : list A),
    rev (List.concat (map h l)) = List.concat (map (fun x => rev (h x)) (rev l)).
Proof.
  intros A B h l. induction l as [|x l IH]; [reflexivity|].
  simpl. rewrite rev_app_distr, IH, map_app, concat_app. simpl.
  rewrite app_nil_r. reflexivity.
Qed.

(** The visible text nodes of a node, through those of its children. *)
Lemma visibleTextsAt_node :
  forall doc ref n,
    getNode doc ref = Some n ->
    visibleTextsAt doc ref
    = match n with
      | Text _ => [ref]
      | Element nodeName style childNodes =>
        if negb (closedTag nodeName) && styleShown style
        then List.concat (map (fun j => visibleTextsAt doc (j :: ref))
                              (seq O (List.length childNodes)))
        else []
      | Other _ => []
      end.
Proof.
  intros doc ref n Hn. unfold visibleTextsAt at 1. rewrite Hn.
  destruct n as [v|name style cs|cs]; try reflexivity.
  cbn [visibleTexts].
  destruct (negb (closedTag name) && styleShown style); [|reflexivity].
  assert (H : forall cs' i,
             (forall k, nth_error cs (i + k) = nth_error cs' k) ->
             (fix inChildren (cs0 : list Node) (i0 : nat) : list NodeRef :=
                match cs0 with
                | [] => []
                | c :: cs1 => visibleTexts c (i0 :: ref) ++ inChildren cs1 (S i0)
                end) cs' i
             = List.concat (map (fun j => visibleTextsAt doc (j :: ref))
                                (seq i (List.length cs')))).
  { induction cs' as [|c cs' IH]; intros i Hk; [reflexivity|].
    cbn [List.length seq map List.concat].
    rewrite (IH (S i)).
    - f_equal. unfold visibleTextsAt. cbn [getNode]. rewrite Hn.
      cbn [children]. specialize (Hk O). rewrite Nat.add_0_r in Hk.
      rewrite Hk. reflexivity.
    - intros k. specialize (Hk (S k)).
      replace (S i + k)%nat with (i + S k)%nat by lia. exact Hk. }
  apply H. intros k. reflexivity.
Qed.

Lemma entered_spec :
  forall doc node n,
    getNode doc node = Some n ->
    entered doc node
    = match n with
      | Element nodeName style _ => negb (closedTag nodeName) && styleShown style
      | _ => false
      end.
Proof.
  intros doc node n Hn. unfold entered, nodeType, elementSeekInfo.
  rewrite Hn. destruct n as [v|name style cs|cs]; try reflexivity.
  apply getElementSeekInfo_enterable.
Qed.

(** Going up from a node: the visible text nodes beyond it are those of the
    node the upward loop of [getNextNode] finds and those beyond that one. *)
Lemma exitNodes_texts :
  forall doc forward node exited next exited',
    isNode doc node = true ->
    exitNodes doc forward node exited = (next, exited') ->
    textsBeyond doc forward node
    = match next with
      | Some nx =>
        (inOrder forward (visibleTextsAt doc nx) ++ textsBeyond doc forward nx)%list
      | None => []
      end.
Proof.
  intros doc forward node. induction node as [|i parent IH];
    intros exited next exited' Hnode H; cbn [exitNodes] in H.
  - destruct forward; simpl in H; injection H as <- _; reflexivity.
  - pose proof (isNode_parent _ _ _ Hnode) as Hparent.
    destruct (isNode_getNode _ _ Hparent) as [n Hn].
    cbn [textsBeyond]. unfold siblingsBeyond. rewrite Hn.
    destruct forward.
    + cbn [nextSibling] in H.
      destruct (isNode doc (S i :: parent)) eqn:Hsib.
      * injection H as <- _. cbn [textsBeyond]. unfold siblingsBeyond.
        rewrite Hn.
        assert (Hlt : (S i < List.length (children n))%nat).
        { unfold isNode in Hsib. cbn [getNode] in Hsib. rewrite Hn in Hsib.
          destruct (nth_error (children n) (S i)) eqn:E; [|discriminate].
          apply nth_error_Some. congruence. }
        replace (List.length (children n) - S i)%nat
          with (S (List.length (children n) - S (S i))) by lia.
        cbn [seq map List.concat]. rewrite <- app_assoc. reflexivity.
      * assert (Hge : (List.length (children n) <= S i)%nat).
        { unfold isNode in Hsib. cbn [getNode] in Hsib. rewrite Hn in Hsib.
          destruct (nth_error (children n) (S i)) eqn:E; [discriminate|].
          apply nth_error_None. exact E. }
        replace (List.length (children n) - S i)%nat with O by lia.
        cbn [seq map List.concat app].
        apply (IH _ _ _ Hparent H).
    + cbn [previousSibling] in H. destruct i as [|i].
      * cbn [seq rev map List.concat app]. apply (IH _ _ _ Hparent H).
      * injection H as <- _. cbn [textsBeyond]. unfold siblingsBeyond.
        rewrite Hn. rewrite seq_S. cbn [Nat.add]. rewrite rev_app_distr.
        cbn [rev app map List.concat]. rewrite <- app_assoc. reflexivity.
Qed.

(** One step of the scan: the visible text nodes of a node and beyond it are
    the node itself, when it is a text node, and those of the node
    [getNextNode] gives and beyond that one.  So the loop of [seek] meets the
    visible text nodes, each once, in the order of the document. *)
Lemma getNextNode_texts :
  forall doc forward node next exited,
    isNode doc node = true ->
    getNextNode doc node forward (entered doc node) [] = (next, exited) ->
    (inOrder forward (visibleTextsAt doc node) ++ textsBeyond doc forward node)%list
    = ((match nodeType doc node with TEXT_NODE => [node] | _ => [] end)
       ++ match next with
          | Some nx =>
            inOrder forward (visibleTextsAt doc nx) ++ textsBeyond doc forward nx
          | None => []
          end)%list.
Proof.
  intros doc forward node next exited Hnode H.
  destruct (isNode_getNode _ _ Hnode) as [n Hn].
  rewrite (entered_spec _ _ _ Hn) in H.
  rewrite (visibleTextsAt_node _ _ _ Hn).
  unfold nodeType. rewrite Hn. unfold getNextNode in H.
  destruct n as [v|name style cs|cs]; cbn [nodeTypeOf].
  - rewrite (exitNodes_texts _ _ _ _ _ _ Hnode H).
    destruct forward; reflexivity.
  - destruct (negb (closedTag name) && styleShown style).
    + destruct forward.
      * unfold firstChild in H. cbn [inOrder app].
        destruct (isNode doc (O :: node)) eqn:Hchild.
        -- injection H as <- _. cbn [textsBeyond]. unfold siblingsBeyond.
           rewrite Hn. cbn [children inOrder].
           assert (Hlen : (0 < List.length cs)%nat).
           { unfold isNode in Hchild. cbn [getNode] in Hchild.
             rewrite Hn in Hchild. cbn [children] in Hchild.
             destruct cs; [discriminate|simpl; lia]. }
           destruct cs as [|c cs]; [simpl in Hlen; lia|].
           change (List.length (c :: cs)) with (S (List.length cs)).
           replace (S (List.length cs) - 1)%nat with (List.length cs) by lia.
           cbn [seq map List.concat]. rewrite <- app_assoc, map_map.
           reflexivity.
        -- assert (Hnil : cs = []).
           { unfold isNode in Hchild. cbn [getNode] in Hchild.
             rewrite Hn in Hchild. cbn [children] in Hchild.
             destruct cs; [reflexivity|discriminate]. }
           subst cs. cbn [List.length seq map List.concat app].
           apply (exitNodes_texts _ _ _ _ _ _ Hnode H).
      * unfold lastChild in H. rewrite Hn in H. cbn [children] in H.
        cbn [inOrder app]. rewrite rev_concat_map.
        destruct (List.length cs) as [|k] eqn:Hlen.
        -- cbn [seq rev map List.concat app].
           apply (exitNodes_texts _ _ _ _ _ _ Hnode H).
        -- injection H as <- _. cbn [textsBeyond]. unfold siblingsBeyond.
           rewrite Hn. cbn [inOrder].
           rewrite seq_S. cbn [Nat.add]. rewrite rev_app_distr.
           cbn [rev app map List.concat]. rewrite <- app_assoc.
           f_equal. f_equal. rewrite map_map. reflexivity.
    + cbn [inOrder]. replace (inOrder forward (@nil NodeRef)) with (@nil NodeRef)
        by (destruct forward; reflexivity).
      cbn [app]. apply (exitNodes_texts _ _ _ _ _ _ Hnode H).
  - replace (inOrder forward (@nil NodeRef)) with (@nil NodeRef)
      by (destruct forward; reflexivity).
    cbn [app]. apply (exitNodes_texts _ _ _ _ _ _ Hnode H).
Qed.

(* ------------------------------------------------------------------ *)
(** ** The visible text ahead of the scan *)

Lemma textAhead_settings :
  forall doc forward this this' textNode offset,
    _forcePreserveWhitespace this' = _forcePreserveWhitespace this ->
    textAhead doc forward this' textNode offset
    = textAhead doc forward this textNode offset.
Proof.
  intros doc forward this this' textNode offset H. unfold textAhead.
  rewrite (getWhitespaceSettings_settings doc this this' textNode H).
  reflexivity.
Qed.

Lemma visibleTextAhead_settings :
  forall doc forward this this' node offset,
    _forcePreserveWhitespace this' = _forcePreserveWhitespace this ->
    visibleTextAhead doc forward this' node offset
    = visibleTextAhead doc forward this node offset.
Proof.
  intros doc forward this this' node offset H. unfold visibleTextAhead.
  assert (Ht : forall l, map (textOf doc forward this') l
                         = map (textOf doc forward this) l).
  { intros l. apply map_ext. intros t. unfold textOf.
    apply textAhead_settings. exact H. }
  rewrite !Ht. rewrite (textAhead_settings doc forward this this' node offset H).
  reflexivity.
Qed.

(** The visible text ahead of a node the scan comes to. *)
Lemma visibleTextAhead_entry :
  forall doc forward this node,
    isNode doc node = true ->
    visibleTextAhead doc forward this node
                     (edge forward (nodeValueOf doc node))
    = List.concat (map (textOf doc forward this)
                       (inOrder forward (visibleTextsAt doc node)
                        ++ textsBeyond doc forward node)).
Proof.
  intros doc forward this node Hnode.
  destruct (isNode_getNode _ _ Hnode) as [n Hn].
  unfold visibleTextAhead. rewrite map_app, concat_app.
  unfold nodeType. rewrite Hn.
  destruct n as [v|name style cs|cs]; cbn [nodeTypeOf]; try reflexivity.
  rewrite (visibleTextsAt_node _ _ _ Hn).
  replace (inOrder forward [node]) with [node]
    by (destruct forward; reflexivity).
  cbn [map List.concat]. rewrite app_nil_r. reflexivity.
Qed.

(** The visible text ahead of a node from which the scan moves on. *)
Lemma visibleTextAhead_next :
  forall doc forward this node next exited,
    isNode doc node = true ->
    getNextNode doc node forward (entered doc node) [] = (next, exited) ->
    List.concat (map (textOf doc forward this)
                     (match nodeType doc node with
                      | TEXT_NODE => []
                      | _ => inOrder forward (visibleTextsAt doc node)
                      end ++ textsBeyond doc forward node))
    = match next with
      | Some nx =>
        visibleTextAhead doc forward this nx (edge forward (nodeValueOf doc nx))
      | None => []
      end /\
    match next with Some nx => isNode doc nx = true | None => True end.
Proof.
  intros doc forward this node next exited Hnode H.
  pose proof (getNextNode_texts _ _ _ _ _ Hnode H) as Hstep.
  assert (Hnext : match next with
                  | Some nx => isNode doc nx = true
                  | None => True
                  end).
  { destruct next as [nx|]; [|exact I].
    apply (getNextNode_decreases _ _ _ _ _ _ Hnode H). }
  split; [|exact Hnext].
  assert (Hrest : (match nodeType doc node with
                   | TEXT_NODE => []
                   | _ => inOrder forward (visibleTextsAt doc node)
                   end ++ textsBeyond doc forward node)%list
                  = match next with
                    | Some nx =>
                      (inOrder forward (visibleTextsAt doc nx)
                       ++ textsBeyond doc forward nx)%list
                    | None => []
                    end).
  { destruct (isNode_getNode _ _ Hnode) as [n Hn].
    unfold nodeType in *. rewrite Hn in *.
    destruct n as [v|name style cs|cs]; cbn [nodeTypeOf] in *;
      try exact Hstep.
    rewrite (visibleTextsAt_node _ _ _ Hn) in Hstep.
    replace (inOrder forward [node]) with [node] in Hstep
      by (destruct forward; reflexivity).
    cbn [app] in Hstep. injection Hstep as Hstep. exact Hstep. }
  rewrite Hrest. destruct next as [nx|]; [|reflexivity].
  symmetry. apply visibleTextAhead_entry. exact Hnext.
Qed.

(** One round of the loop of [seek]: what it wrote of the text and the
    visible text ahead of where it leaves the scan make up the visible text
    that was ahead. *)
Lemma seekRound_renders :
  forall doc forward this node lastNode resetOffset r,
    isNode doc node = true ->
    1 <= _remainder this ->
    (nodeType doc node = TEXT_NODE -> resetOffset = false ->
     (_offset this <= List.length (nodeValueOf doc node))%nat) ->
    seekRound doc forward this node lastNode resetOffset = Some r ->
    exists ps,
      match r with
      | Break this' _ =>
        Renders forward this this' ps /\
        (charactersOf ps
         ++ visibleTextAhead doc forward this node (_offset this'))%list
        = visibleTextAhead doc forward this node
            (if resetOffset then edge forward (nodeValueOf doc node)
             else _offset this)
      | Next this' (Some next) _ =>
        Renders forward this this' ps /\
        isNode doc next = true /\
        (charactersOf ps
         ++ visibleTextAhead doc forward this next
              (edge forward (nodeValueOf doc next)))%list
        = visibleTextAhead doc forward this node
            (if resetOffset then edge forward (nodeValueOf doc node)
             else _offset this)
      | Next this' None _ =>
        Renders forward this this' ps /\
        charactersOf ps
        = visibleTextAhead doc forward this node
            (if resetOffset then edge forward (nodeValueOf doc node)
             else _offset this)
      end.
Proof.
  intros doc forward this node lastNode resetOffset r Hnode Hrem Hoff H.
  unfold seekRound in H.
  assert (Hent : entered doc node
                 = match nodeType doc node with
                   | ELEMENT_NODE => fst (elementSeekInfo doc node)
                   | _ => false
                   end) by reflexivity.
  destruct (nodeType doc node) eqn:Ht.
  - fold (seekTextNode forward doc this node resetOffset) in H.
    destruct (seekTextNode forward doc this node resetOffset)
      as [[t continue]|] eqn:Hs; [|discriminate].
    destruct (seekTextNode_renders _ _ _ _ _ _ _ (Hoff eq_refl) Hrem Hs)
      as [ps [R [Hchars Hend]]].
    exists ps. unfold visibleTextAhead. rewrite Ht.
    destruct continue.
    + injection H as <-. unfold advance.
      destruct (getNextNode doc node forward false []) as [next exited] eqn:Hg.
      rewrite <- Hent in Hg.
      destruct (visibleTextAhead_next doc forward this node next exited Hnode Hg)
        as [Hnext Hisnode].
      rewrite Ht in Hnext. cbn [app] in Hnext.
      assert (R' : Renders forward this (exitedNodesLoop doc exited t) ps).
      { destruct (exitedNodesLoop_quiet doc exited t) as [Q _].
        rewrite <- (app_nil_r ps). eapply Renders_trans; [exact R|].
        apply Quiet_Renders. exact Q. }
      rewrite <- Hchars, (Hend eq_refl), app_nil_r.
      destruct next as [nx|].
      * split; [exact R'|]. split; [exact Hisnode|].
        rewrite Hnext. unfold visibleTextAhead. reflexivity.
      * split; [exact R'|]. rewrite Hnext, app_nil_r. reflexivity.
    + injection H as <-. split; [exact R|].
      rewrite <- Hchars, app_assoc. reflexivity.
  - destruct (elementSeekInfo doc node) as [en nl] eqn:Hinfo.
    cbn [fst] in Hent. injection H as <-. unfold advance.
    destruct (getNextNode doc node forward en []) as [next exited] eqn:Hg.
    rewrite <- Hent in Hg.
    destruct (visibleTextAhead_next doc forward this node next exited Hnode Hg)
      as [Hnext Hisnode].
    rewrite Ht in Hnext.
    assert (R' : Renders forward this
                         (exitedNodesLoop doc exited
                            (raiseNewlines nl (set_offset O this))) []).
    { apply Quiet_Renders.
      destruct (exitedNodesLoop_quiet
                  doc exited (raiseNewlines nl (set_offset O this))) as [Q _].
      destruct (raiseNewlines_quiet nl (set_offset O this)) as [Q' _].
      eapply Quiet_trans; [|exact Q].
      eapply Quiet_trans; [|exact Q'].
      unfold Quiet, sameSettings. simpl. repeat split. }
    exists []. cbn [charactersOf app].
    assert (Hstart : forall o,
               visibleTextAhead doc forward this node o
               = List.concat
                   (map (textOf doc forward this)
                        (inOrder forward (visibleTextsAt doc node)
                         ++ textsBeyond doc forward node))).
    { intros o. unfold visibleTextAhead.
      rewrite Ht, map_app, concat_app. reflexivity. }
    rewrite Hstart, Hnext.
    destruct next as [nx|]; [|split; [exact R'|reflexivity]].
    split; [exact R'|]. split; [exact Hisnode|reflexivity].
  - injection H as <-. unfold advance.
    destruct (getNextNode doc node forward false []) as [next exited] eqn:Hg.
    rewrite <- Hent in Hg.
    destruct (visibleTextAhead_next doc forward this node next exited Hnode Hg)
      as [Hnext Hisnode].
    rewrite Ht in Hnext.
    assert (R' : Renders forward this (exitedNodesLoop doc exited this) []).
    { apply Quiet_Renders.
      destruct (exitedNodesLoop_quiet doc exited this) as [Q _]. exact Q. }
    exists []. cbn [charactersOf app].
    assert (Hstart : forall o,
               visibleTextAhead doc forward this node o
               = List.concat
                   (map (textOf doc forward this)
                        (inOrder forward (visibleTextsAt doc node)
                         ++ textsBeyond doc forward node))).
    { intros o. unfold visibleTextAhead.
      rewrite Ht, map_app, concat_app. reflexivity. }
    rewrite Hstart, Hnext.
    destruct next as [nx|]; [|split; [exact R'|reflexivity]].
    split; [exact R'|]. split; [exact Hisnode|reflexivity].
Qed.

(** The loop of [seek]: the characters it wrote are the first of the visible
    text that was ahead.  With a remainder left they are all of it; with the
    remainder used up, what is left of it is the visible text ahead of the
    position the loop ended at. *)
Lemma seekLoop_renders :
  forall doc forward fuel this node lastNode resetOffset r,
    isNode doc node = true ->
    1 <= _remainder this ->
    (nodeType doc node = TEXT_NODE -> resetOffset = false ->
     (_offset this <= List.length (nodeValueOf doc node))%nat) ->
    seekLoop fuel doc forward this node lastNode resetOffset = Some r ->
    exists ps rest,
      Renders forward this r ps /\
      visibleTextAhead doc forward this node
        (if resetOffset then edge forward (nodeValueOf doc node)
         else _offset this)
      = (charactersOf ps ++ rest)%list /\
      (1 <= _remainder r -> rest = []) /\
      (_remainder r <= 0 ->
       rest = visibleTextAhead doc forward this (_node r) (_offset r)).
Proof.
  intros doc forward fuel.
  induction fuel as [|fuel IH];
    intros this node lastNode resetOffset r Hnode Hrem Hoff H;
    cbn [seekLoop] in H; [discriminate|].
  destruct (seekRound doc forward this node lastNode resetOffset)
    as [round|] eqn:Hround; [|discriminate].
  destruct (seekRound_renders _ _ _ _ _ _ _ Hnode Hrem Hoff Hround)
    as [ps Hps].
  destruct (seekRound_ok doc forward this node lastNode resetOffset Hrem Hoff)
    as [round' [Hround' Hok]].
  rewrite Hround in Hround'. injection Hround' as <-.
  destruct round as [this' lastNode'|this' [next|] lastNode'].
  - injection H as <-. destruct Hps as [R Hchars].
    destruct Hok as [-> [_ [Hzero _]]].
    exists ps, (visibleTextAhead doc forward this node (_offset this')).
    split; [exact R|]. split; [symmetry; exact Hchars|].
    split; [simpl; intros; lia|]. intros _. reflexivity.
  - destruct Hps as [R [Hnext Hchars]].
    destruct Hok as [Hrem1 [_ [_ [_ [Hfpw _]]]]].
    destruct (IH this' next lastNode' true r Hnext Hrem1) as
        [qs [rest [R' [Hahead [Hleft Hover]]]]];
      [discriminate|exact H|].
    exists (ps ++ qs), rest.
    split; [eapply Renders_trans; eassumption|].
    rewrite (visibleTextAhead_settings doc forward this this' _ _ Hfpw)
      in Hahead.
    split; [rewrite <- Hchars, Hahead, charactersOf_app, app_assoc;
            reflexivity|].
    split; [exact Hleft|]. intros Hr. rewrite (Hover Hr).
    apply visibleTextAhead_settings. exact Hfpw.
  - injection H as <-. destruct Hps as [R Hchars].
    destruct Hok as [Hrem1 _].
    exists ps, []. split; [exact R|].
    split; [rewrite app_nil_r; symmetry; exact Hchars|].
    split; [reflexivity|]. simpl. intros. lia.
Qed.

(* ------------------------------------------------------------------ *)
(** ** The remainder and the text *)

(** C1: after [seek(length)] from a position of the document, for a length
    within the safe integers, the remainder is not negative and is [|length|]
    less the number of pieces the call wrote into the content: layout
    newlines, collapsed spaces and characters read from text, each counted
    once.  So the remainder is 0 exactly when [|length|] pieces were written.
    The characters among the pieces are, in order, the first significant code
    points of the visible text that lay ahead of the start ([rest] is what is
    left of it).  The node is the last text or element node the loop handled.
    When a remainder is left, the document was used up: nothing is left of
    the visible text, so the content holds all of it to the end; nothing
    comes after the last node handled; and the remainder is the exact
    shortfall: asking for [extra] more characters gives the same content, node
    and offset, and a remainder larger by [extra]. *)
Theorem seek_remainder_accounting :
  forall (doc : Node) (this : DOMTextScanner) (length : Z),
    validStart doc this ->
    safeLength length ->
    exists (r : DOMTextScanner) (ps : list Piece) (rest : list jsstring),
      seek doc this length = Some r /\
      0 <= _remainder r /\
      _content r = render (length >=? 0) (_content this) ps /\
      _remainder r = Z.abs length - Z.of_nat (List.length ps) /\
      (_remainder r = 0 <-> Z.of_nat (List.length ps) = Z.abs length) /\
      visibleTextAhead doc (length >=? 0) this (_node this)
                       (startOffset doc (length >=? 0) this)
      = (charactersOf ps ++ rest)%list /\
      _node r = lastRealNode doc (_node this) (visited doc this length) /\
      (1 <= _remainder r ->
       rest = [] /\
       (exists front lv,
           visited doc this length = (front ++ [lv])%list /\
           exhaustedAt doc (length >=? 0) lv) /\
       forall extra,
         0 <= extra ->
         safeLength (Z.abs length + extra) ->
         seek doc this (if length >=? 0 then length + extra else length - extra)
         = Some (shift extra r)).
Proof.
  intros doc this length [Hnode Hoff] _.
  destruct (Z.eq_dec length 0) as [->|Hnz].
  { exists (set_remainder 0 this), [],
      (visibleTextAhead doc (0 >=? 0) this (_node this)
                        (startOffset doc (0 >=? 0) this)).
    split; [reflexivity|]. cbn [_remainder _content _node set_remainder].
    split; [lia|]. split; [rewrite render_nil; reflexivity|].
    split; [reflexivity|]. split; [split; reflexivity|].
    split; [reflexivity|]. split; [reflexivity|]. intros; lia. }
  destruct (seek_nonzero doc this length Hnz) as [Hseek Hvis].
  rewrite Hseek, Hvis.
  assert (Hrem : 1 <= _remainder (set_remainder (Z.abs length) this))
    by (simpl; lia).
  destruct (seekLoop_ok doc (length >=? 0) (size doc)
              (set_remainder (Z.abs length) this) (_node this) (_node this)
              (_resetOffset this) Hnode)
    as [r [Hl [R [_ [_ [_ [Hn Hex]]]]]]].
  - apply rounds_le_size. exact Hnode.
  - exact Hrem.
  - exact Hoff.
  - destruct (seekLoop_renders _ _ _ _ _ _ _ _ Hnode Hrem Hoff Hl)
      as [ps [rest [[C Rem] [Hahead [Hleft _]]]]].
    simpl in C, Rem.
    exists r, ps, rest. split; [exact Hl|].
    split; [exact R|]. split; [exact C|].
    split; [exact Rem|]. split; [lia|].
    split.
    { rewrite <- Hahead. unfold startOffset.
      apply visibleTextAhead_settings. reflexivity. }
    split; [exact Hn|].
    intros Hr. split; [apply Hleft; exact Hr|].
    split; [apply Hex; exact Hr|].
    intros extra Hextra _.
    destruct (seekLoop_shift _ _ _ _ _ _ _ _ extra Hl) as [Hshift _];
      [exact Hrem|exact Hr|exact Hextra|].
    assert (Hnz' : (if length >=? 0 then length + extra else length - extra) <> 0).
    { rewrite Z.geb_leb. destruct (0 <=? length) eqn:E;
        [apply Z.leb_le in E|apply Z.leb_gt in E]; lia. }
    destruct (seek_nonzero doc this _ Hnz') as [-> _].
    rewrite <- Hshift.
    assert (Hdir : ((if length >=? 0 then length + extra else length - extra) >=? 0)
                   = (length >=? 0)).
    { rewrite !Z.geb_leb. destruct (0 <=? length) eqn:E.
      - apply Z.leb_le in E. apply Z.leb_le. lia.
      - apply Z.leb_gt in E. apply Z.leb_gt. lia. }
    rewrite Hdir. f_equal. apply scanner_ext; simpl; try reflexivity.
    rewrite Z.geb_leb. destruct (0 <=? length) eqn:E;
      [apply Z.leb_le in E|apply Z.leb_gt in E]; lia.
Qed.

Lemma seek_remainder_accounting_witness :
  exists (r : DOMTextScanner) (ps : list Piece) (rest : list jsstring),
    seek docTwoDivs scannerAtFoo 9 = Some r /\
    0 <= _remainder r /\
    _content r = render (9 >=? 0) (_content scannerAtFoo) ps /\
    _remainder r = Z.abs 9 - Z.of_nat (List.length ps) /\
    (_remainder r = 0 <-> Z.of_nat (List.length ps) = Z.abs 9) /\
    visibleTextAhead docTwoDivs (9 >=? 0) scannerAtFoo (_node scannerAtFoo)
                     (startOffset docTwoDivs (9 >=? 0) scannerAtFoo)
    = (charactersOf ps ++ rest)%list /\
    _node r = lastRealNode docTwoDivs (_node scannerAtFoo)
                           (visited docTwoDivs scannerAtFoo 9) /\
    (1 <= _remainder r ->
     rest = [] /\
     (exists front lv,
         visited docTwoDivs scannerAtFoo 9 = (front ++ [lv])%list /\
         exhaustedAt docTwoDivs (9 >=? 0) lv) /\
     forall extra,
       0 <= extra ->
       safeLength (Z.abs 9 + extra) ->
       seek docTwoDivs scannerAtFoo (if 9 >=? 0 then 9 + extra else 9 - extra)
       = Some (shift extra r)).
Proof.
  apply (seek_remainder_accounting docTwoDivs scannerAtFoo 9).
  - split; [reflexivity|]. intros _ _. simpl. lia.
  - unfold safeLength, maxSafeInteger. simpl. lia.
Defined.

(** On [<div>foo</div><div>bar</div>] the visible text ahead of the start of
    ["foo"] is the six characters of the two texts; [seek(9)] writes them and
    one layout newline, and leaves a remainder of 2. *)
Lemma seek_past_the_end :
  visibleTextAhead docTwoDivs true scannerAtFoo fooText 0
  = map (fun u => [u]) (js "foobar") /\
  exists r,
    seek docTwoDivs scannerAtFoo 9 = Some r /\
    _content r = js "foo" ++ [newline] ++ js "bar" /\ _remainder r = 2.
Proof.
  split; [vm_compute; reflexivity|].
  eexists. split; [vm_compute; reflexivity|]. split; reflexivity.
Qed.

(* ------------------------------------------------------------------ *)
(** ** What is read of the text node a scan starts in *)

Lemma charactersOf_In :
  forall ps c, In (Character c) ps -> In c (charactersOf ps).
Proof.
  intros ps c. induction ps as [|[| |c'] ps IH]; simpl; intros H;
    try (destruct H as [H|H]; [discriminate|auto]).
  - contradiction.
  - destruct H as [H|H]; [injection H as ->; left; reflexivity|right; auto].
Qed.

Lemma written_nonempty :
  forall ps,
    ps <> [] ->
    (forall c, In (Character c) ps -> c <> []) ->
    written ps <> [].
Proof.
  intros [|p ps] Hne Hc; [congruence|].
  unfold written. cbn [map List.concat].
  destruct p as [| |c]; cbn [pieceText]; try discriminate.
  specialize (Hc c (or_introl eq_refl)).
  destruct c; [congruence|discriminate].
Qed.

Lemma render_nonempty :
  forall forward ps,
    ps <> [] ->
    (forall c, In c (charactersOf ps) -> c <> []) ->
    render forward [] ps <> [].
Proof.
  intros forward ps Hne Hc. unfold render.
  assert (Hcs : forall c, In (Character c) ps -> c <> [])
    by (intros c H; apply Hc, charactersOf_In; exact H).
  destruct forward.
  - cbn [app]. apply written_nonempty; assumption.
  - rewrite app_nil_r. apply written_nonempty.
    + intros H. apply Hne. rewrite <- (rev_involutive ps), H. reflexivity.
    + intros c H. apply Hcs. apply in_rev. exact H.
Qed.

Lemma textAhead_nonempty :
  forall doc forward this textNode offset c,
    In c (textAhead doc forward this textNode offset) -> c <> [].
Proof.
  intros doc forward this textNode offset c H. unfold textAhead in H.
  destruct (_getWhitespaceSettings doc this textNode) as [pn pw].
  apply filter_In in H as [_ H]. intros ->. discriminate H.
Qed.

(** C10: a scanner constructed at a text node whose parent chain is not rt
    under ruby reads that text node first, whatever elements the node lies
    in: a script, a style, an input-like or an invisible element around it
    makes no difference.  [scanned] is the scanner after the text method ran
    on the node from the given offset, and [ps] are the pieces it wrote into
    the content.  The characters among them are, in order, the first
    significant code points of the node ahead of the offset, and what is left
    of these lies ahead of the offset the method ended at; with a remainder
    left, all of them were written.  When the node has a significant
    character ahead of the offset, the content is not empty.  The content of
    the seek starts (ends, when seeking backward) with the content of
    [scanned], and when the text node satisfies the length the seek ends
    there. *)
Theorem start_text_node_is_scanned :
  forall (doc : Node) (textNode : NodeRef) (offset : nat)
         (forcePreserveWhitespace generateLayoutContent : bool) (length : Z),
    nodeType doc textNode = TEXT_NODE ->
    getParentRubyElement doc textNode = None ->
    (offset <= List.length (nodeValueOf doc textNode))%nat ->
    length <> 0 ->
    let forward := length >=? 0 in
    let this := constructor doc textNode offset forcePreserveWhitespace
                            generateLayoutContent in
    exists (scanned : DOMTextScanner) (ps : list Piece),
      seekTextNode forward doc (set_remainder (Z.abs length) this) textNode false
      = Some (scanned, 0 <? _remainder scanned) /\
      _content scanned = render forward [] ps /\
      _remainder scanned = Z.abs length - Z.of_nat (List.length ps) /\
      (charactersOf ps
       ++ textAhead doc forward this textNode (_offset scanned))%list
      = textAhead doc forward this textNode offset /\
      (1 <= _remainder scanned ->
       charactersOf ps = textAhead doc forward this textNode offset) /\
      (textAhead doc forward this textNode offset <> [] ->
       _content scanned <> []) /\
      (_remainder scanned = 0 ->
       seek doc this length = Some (finish textNode false scanned)) /\
      exists r rest,
        seek doc this length = Some r /\
        Forall isCharacter rest /\
        _content r = extend forward (_content scanned) rest.
Proof.
  intros doc textNode offset fpw glc length Ht Hruby Hoff Hnz forward this.
  destruct (seek_nonzero doc this length Hnz) as [Hseek _].
  rewrite Hseek. unfold this. rewrite (constructor_plain _ _ _ _ _ Hruby).
  cbn [_node _resetOffset].
  set (start := {| _node := textNode; _offset := offset; _content := [];
                   _remainder := 0; _resetOffset := false; _newlines := 0;
                   _lineHasWhitespace := false; _lineHasContent := false;
                   _forcePreserveWhitespace := fpw;
                   _generateLayoutContent := glc |}).
  assert (Hrem : 1 <= _remainder (set_remainder (Z.abs length) start))
    by (simpl; lia).
  assert (Hoff' : false = false ->
                  (_offset (set_remainder (Z.abs length) start)
                   <= List.length (nodeValueOf doc textNode))%nat)
    by (intros _; exact Hoff).
  destruct (seekLoop_first_text doc forward (size doc)
              (set_remainder (Z.abs length) start) textNode textNode false Ht)
    as [scanned [Hs [Hend Hseekr]]].
  - apply rounds_le_size. apply nodeType_text_isNode. exact Ht.
  - exact Hrem.
  - exact Hoff'.
  - destruct (seekTextNode_renders _ _ _ _ _ _ _ Hoff' Hrem Hs)
      as [ps [[C R] [Hchars Hcont]]].
    cbn [_content _remainder _offset set_remainder start] in C, R, Hchars.
    assert (Hset : forall o,
               textAhead doc forward (set_remainder (Z.abs length) start)
                         textNode o
               = textAhead doc forward start textNode o)
      by (intros o; apply textAhead_settings; reflexivity).
    rewrite !Hset in Hchars. rewrite Hset in Hcont.
    exists scanned, ps. split; [exact Hs|]. split; [exact C|].
    split; [exact R|]. split; [exact Hchars|].
    assert (Hall : 1 <= _remainder scanned ->
                   charactersOf ps = textAhead doc forward start textNode offset).
    { intros Hleft. rewrite <- Hchars, Hcont, app_nil_r; [reflexivity|].
      apply Z.ltb_lt. lia. }
    split; [exact Hall|]. split; [|split; [exact Hend|exact Hseekr]].
    intros Hsome. rewrite C. apply render_nonempty.
    + intros ->. simpl in R.
      assert (Hleft : 1 <= _remainder scanned) by lia.
      specialize (Hall Hleft). simpl in Hall. congruence.
    + intros c Hin.
      apply (textAhead_nonempty doc forward start textNode offset).
      rewrite <- Hchars. apply in_or_app. left. exact Hin.
Qed.

Lemma start_text_node_is_scanned_witness :
  exists (scanned : DOMTextScanner) (ps : list Piece),
    seekTextNode (1 >=? 0) docScript
                 (set_remainder (Z.abs 1) (constructor docScript scriptText 0 false true))
                 scriptText false
    = Some (scanned, 0 <? _remainder scanned) /\
    _content scanned = render (1 >=? 0) [] ps /\
    _remainder scanned = Z.abs 1 - Z.of_nat (List.length ps) /\
    (charactersOf ps
     ++ textAhead docScript (1 >=? 0)
                  (constructor docScript scriptText 0 false true)
                  scriptText (_offset scanned))%list
    = textAhead docScript (1 >=? 0)
                (constructor docScript scriptText 0 false true) scriptText 0 /\
    (1 <= _remainder scanned ->
     charactersOf ps
     = textAhead docScript (1 >=? 0)
                 (constructor docScript scriptText 0 false true) scriptText 0) /\
    (textAhead docScript (1 >=? 0)
               (constructor docScript scriptText 0 false true) scriptText 0
     <> [] ->
     _content scanned <> []) /\
    (_remainder scanned = 0 ->
     seek docScript (constructor docScript scriptText 0 false true) 1
     = Some (finish scriptText false scanned)) /\
    exists r rest,
      seek docScript (constructor docScript scriptText 0 false true) 1 = Some r /\
      Forall isCharacter rest /\
      _content r = extend (1 >=? 0) (_content scanned) rest.
Proof.
  apply (start_text_node_is_scanned docScript scriptText 0 false true 1).
  - reflexivity.
  - reflexivity.
  - simpl. lia.
  - discriminate.
Defined.

(* ------------------------------------------------------------------ *)
(** ** A longer seek *)

Lemma seekRound_break_text :
  forall doc forward this node lastNode resetOffset this' lastNode',
    seekRound doc forward this node lastNode resetOffset
    = Some (Break this' lastNode') ->
    nodeType doc node = TEXT_NODE /\ lastNode' = node /\
    seekTextNode forward doc this node resetOffset = Some (this', false).
Proof.
  intros doc forward this node lastNode resetOffset this' lastNode' H.
  unfold seekRound in H. destruct (nodeType doc node).
  - fold (seekTextNode forward doc this node resetOffset) in H.
    destruct (seekTextNode forward doc this node resetOffset) as [[t [|]]|];
      try discriminate.
    + unfold advance in H.
      destruct (getNextNode doc node forward false []). discriminate.
    + injection H as <- <-. repeat split.
  - destruct (elementSeekInfo doc node) as [en nl].
    unfold advance in H. destruct (getNextNode _ _ _ _ _). discriminate.
  - unfold advance in H. destruct (getNextNode _ _ _ _ _). discriminate.
Qed.

(** A text node in which a seek was over, scanned with [extra] more to go:
    the scan is the one that goes on from where the seek was over. *)
Lemma seekTextNode_resume :
  forall forward doc this textNode resetOffset this' extra,
    seekTextNode forward doc this textNode resetOffset = Some (this', false) ->
    (resetOffset = false ->
     (_offset this <= List.length (nodeValueOf doc textNode))%nat) ->
    1 <= _remainder this -> 1 <= extra ->
    _remainder this' = 0 /\
    (_offset this' <= List.length (nodeValueOf doc textNode))%nat /\
    sameSettings this this' /\
    seekTextNode forward doc (shift extra this) textNode resetOffset
    = seekTextNode forward doc (shift extra this') textNode false.
Proof.
  intros forward doc this textNode resetOffset this' k H Hoff Hrem Hk.
  destruct (seekTextNode_ok forward doc this textNode resetOffset Hoff Hrem)
    as [t0 [Hs [_ [Hrem0 [Hset [Hofft _]]]]]].
  rewrite H in Hs. injection Hs as <- Hz. symmetry in Hz.
  apply Z.ltb_ge in Hz.
  split; [lia|]. split; [exact Hofft|]. split; [exact Hset|].
  rewrite seekTextNode_eq in H. rewrite !seekTextNode_eq. cbv zeta in *.
  rewrite (getWhitespaceSettings_settings doc this (shift k this') textNode)
    by (simpl; apply Hset).
  change (_getWhitespaceSettings doc (shift k this) textNode)
    with (_getWhitespaceSettings doc this textNode).
  destruct (_getWhitespaceSettings doc this textNode) as [pn pw].
  set (nodeValue := nodeValueOf doc textNode) in *.
  set (this0 := if resetOffset
                then set_offset (if forward then O else List.length nodeValue) this
                else this) in *.
  assert (H0 : (if resetOffset
                then set_offset (if forward then O else List.length nodeValue)
                                (shift k this)
                else shift k this) = shift k this0)
    by (unfold this0; destruct resetOffset; reflexivity).
  rewrite H0.
  assert (Hoff0 : (_offset this0 <= List.length nodeValue)%nat).
  { unfold this0. destruct resetOffset; simpl.
    - destruct forward; lia.
    - apply Hoff. reflexivity. }
  assert (Hrem0' : 1 <= _remainder this0)
    by (unfold this0; destruct resetOffset; exact Hrem).
  destruct (seekTextNodeLoop forward _ nodeValue pn pw this0) as [t'|] eqn:Hl;
    [|discriminate].
  injection H as ->.
  rewrite (seekTextNodeLoop_split _ _ _ _ _ _ _ k
             (if forward then List.length nodeValue else _offset (shift k this0))
             (if forward then List.length nodeValue else _offset (shift k this'))
             Hl Hoff0 Hrem0' Hz Hk).
  - reflexivity.
  - unfold textLeft. destruct forward; simpl; lia.
  - unfold textLeft. destruct forward; simpl; lia.
Qed.

(** The loop of [seek] that used up its length, run with [extra] more to
    go: it writes what the loop writes that goes on, with [extra] to go, from
    the position the shorter one ended at. *)
Lemma seekLoop_extend :
  forall doc forward fuel this node lastNode resetOffset r extra,
    isNode doc node = true ->
    (rounds doc forward node <= fuel)%nat ->
    1 <= _remainder this ->
    (nodeType doc node = TEXT_NODE -> resetOffset = false ->
     (_offset this <= List.length (nodeValueOf doc node))%nat) ->
    seekLoop fuel doc forward this node lastNode resetOffset = Some r ->
    _remainder r <= 0 -> 1 <= extra ->
    exists r' ps rest,
      seekLoop fuel doc forward (shift extra this) node lastNode resetOffset
      = Some r' /\
      _content r' = render forward (_content r) ps /\
      _remainder r' = extra - Z.of_nat (List.length ps) /\
      0 <= _remainder r' /\
      visibleTextAhead doc forward this (_node r) (_offset r)
      = (charactersOf ps ++ rest)%list /\
      (1 <= _remainder r' -> rest = []).
Proof.
  intros doc forward fuel.
  induction fuel as [|fuel IH];
    intros this node lastNode resetOffset r k Hnode Hfuel Hrem Hoff H Hr Hk;
    cbn [seekLoop] in H; [discriminate|].
  destruct (seekRound doc forward this node lastNode resetOffset)
    as [[this' lastNode'|this' [node'|] lastNode']|] eqn:Hround;
    try discriminate.
  - injection H as <-.
    destruct (seekRound_break_text _ _ _ _ _ _ _ _ Hround) as [Ht [-> Hs]].
    destruct (seekTextNode_resume _ _ _ _ _ _ k Hs (Hoff Ht) Hrem Hk)
      as [Hzero [Hoff1 [[_ [_ [Hfpw _]]] Hresume]]].
    assert (Hrem1 : 1 <= _remainder (shift k this')) by (simpl; lia).
    assert (Hoff1' : nodeType doc node = TEXT_NODE -> false = false ->
                     (_offset (shift k this')
                      <= List.length (nodeValueOf doc node))%nat)
      by (intros _ _; exact Hoff1).
    destruct (seekLoop_ok doc forward (S fuel) (shift k this') node lastNode
                          false Hnode Hfuel Hrem1 Hoff1')
      as [x [Hx [Rx _]]].
    destruct (seekLoop_renders _ _ _ _ _ _ _ _ Hnode Hrem1 Hoff1' Hx)
      as [ps [rest [[C R] [Hahead [Hleft _]]]]].
    cbn [_content _remainder _offset shift set_remainder] in C, R, Hahead.
    rewrite (visibleTextAhead_settings doc forward this (shift k this'))
      in Hahead by (simpl; exact Hfpw).
    assert (Hsame : exists r',
               seekLoop (S fuel) doc forward (shift k this) node lastNode
                        resetOffset = Some r' /\
               _content r' = _content x /\ _remainder r' = _remainder x).
    { cbn [seekLoop] in Hx |- *.
      assert (Hround' :
                seekRound doc forward (shift k this) node lastNode resetOffset
                = seekRound doc forward (shift k this') node lastNode false).
      { unfold seekRound. rewrite Ht.
        fold (seekTextNode forward doc (shift k this) node resetOffset).
        fold (seekTextNode forward doc (shift k this') node false).
        rewrite Hresume. reflexivity. }
      rewrite Hround'.
      destruct (seekRound doc forward (shift k this') node lastNode false)
        as [[t l|t [nx|] l]|]; try discriminate.
      - injection Hx as <-. eexists. split; [reflexivity|].
        split; reflexivity.
      - exists x. split; [exact Hx|]. split; reflexivity.
      - exists x. split; [exact Hx|]. split; reflexivity. }
    destruct Hsame as [r' [Hr' [Cr Rr]]].
    exists r', ps, rest. split; [exact Hr'|].
    cbn [_content _remainder _node _offset finish set_resetOffset set_node].
    split; [rewrite Cr; exact C|]. split; [rewrite Rr; lia|].
    split; [lia|]. split; [exact Hahead|].
    intros Hr1. apply Hleft. lia.
  - pose proof (seekRound_continue _ _ _ _ _ _ _ _ _ Hround Hrem) as Hrem1.
    destruct (seekRound_next _ _ _ _ _ _ _ _ _ Hround)
      as [[vc [ex [Hg _]]] _].
    destruct (getNextNode_decreases _ _ _ _ _ _ Hnode Hg) as [Hnode' Hdec].
    destruct (seekRound_ok doc forward this node lastNode resetOffset Hrem Hoff)
      as [round' [Hround' Hok]].
    rewrite Hround in Hround'. injection Hround' as <-.
    destruct Hok as [_ [_ [_ [_ [Hfpw _]]]]].
    assert (Hk0 : 0 <= k) by lia.
    cbn [seekLoop].
    rewrite (seekRound_shift _ _ _ _ _ _ _ _ _ k Hround Hrem Hk0).
    destruct (IH this' node' lastNode' true r k Hnode') as
        [r' [ps [rest [Hr' [C [R [R0 [Hahead Hleft]]]]]]]];
      try assumption; [lia|discriminate|].
    exists r', ps, rest. split; [exact Hr'|]. split; [exact C|].
    split; [exact R|]. split; [exact R0|]. split; [|exact Hleft].
    rewrite <- Hahead. symmetry.
    apply visibleTextAhead_settings. exact Hfpw.
  - injection H as <-.
    pose proof (seekRound_continue _ _ _ _ _ _ _ _ _ Hround Hrem) as Hrem1.
    simpl in Hr. lia.
Qed.

(** X14: a longer seek goes on from the content of the shorter one.
    From a position of the document, what [seek] gives for a length is kept
    by the seek for a length greater by [extra] in the same direction (within
    the safe integers): its content is the content of the shorter seek and
    at most [extra] more pieces, each counted once against the remainder.
    When the shorter seek left a remainder, nothing more is written.  When it
    used up its length, the characters among the further pieces are, in
    order, the first significant code points of the visible text ahead of the
    position it ended at, and all of them when the longer seek leaves a
    remainder. *)
Theorem seek_longer_extends :
  forall (doc : Node) (this r : DOMTextScanner) (length extra : Z),
    validStart doc this ->
    length <> 0 -> 0 <= extra ->
    safeLength (Z.abs length + extra) ->
    seek doc this length = Some r ->
    exists (r' : DOMTextScanner) (ps : list Piece) (rest : list jsstring),
      seek doc this (if length >=? 0 then length + extra else length - extra)
      = Some r' /\
      _content r' = render (length >=? 0) (_content r) ps /\
      _remainder r' = _remainder r + extra - Z.of_nat (List.length ps) /\
      0 <= _remainder r' /\
      Z.of_nat (List.length ps) <= extra /\
      (1 <= _remainder r -> ps = []) /\
      (_remainder r = 0 ->
       visibleTextAhead doc (length >=? 0) this (_node r) (_offset r)
       = (charactersOf ps ++ rest)%list /\
       (1 <= _remainder r' -> rest = [])).
Proof.
  intros doc this r length k [Hnode Hoff] Hnz Hk _ H.
  assert (Hnz' : (if length >=? 0 then length + k else length - k) <> 0).
  { rewrite Z.geb_leb. destruct (0 <=? length) eqn:E;
      [apply Z.leb_le in E|apply Z.leb_gt in E]; lia. }
  assert (Hdir : ((if length >=? 0 then length + k else length - k) >=? 0)
                 = (length >=? 0)).
  { rewrite !Z.geb_leb. destruct (0 <=? length) eqn:E.
    - apply Z.leb_le in E. apply Z.leb_le. lia.
    - apply Z.leb_gt in E. apply Z.leb_gt. lia. }
  assert (Habs : Z.abs (if length >=? 0 then length + k else length - k)
                 = Z.abs length + k).
  { rewrite Z.geb_leb. destruct (0 <=? length) eqn:E;
      [apply Z.leb_le in E|apply Z.leb_gt in E]; lia. }
  destruct (seek_nonzero doc this length Hnz) as [Hseek _].
  destruct (seek_nonzero doc this _ Hnz') as [-> _].
  rewrite Hdir, Habs. rewrite Hseek in H.
  assert (Hrounds : (rounds doc (length >=? 0) (_node this) <= size doc)%nat)
    by (apply rounds_le_size; exact Hnode).
  assert (Hrem : 1 <= _remainder (set_remainder (Z.abs length) this))
    by (simpl; lia).
  destruct (seekLoop_ok doc (length >=? 0) (size doc)
              (set_remainder (Z.abs length) this) (_node this) (_node this)
              (_resetOffset this) Hnode Hrounds Hrem Hoff)
    as [r0 [Hl [R0 _]]].
  rewrite H in Hl. injection Hl as <-.
  change (set_remainder (Z.abs length + k) this)
    with (shift k (set_remainder (Z.abs length) this)).
  destruct (Z_le_gt_dec 1 (_remainder r)) as [Hleft|Hover].
  - destruct (seekLoop_shift _ _ _ _ _ _ _ _ k H Hrem Hleft Hk) as [-> _].
    exists (shift k r), [], []. split; [reflexivity|].
    cbn [_content _remainder shift set_remainder List.length].
    split; [rewrite render_nil; reflexivity|].
    split; [lia|]. split; [lia|]. split; [simpl; lia|].
    split; [reflexivity|]. intros; lia.
  - destruct (Z.eq_dec k 0) as [->|Hk1].
    + exists r, [],
        (visibleTextAhead doc (length >=? 0) this (_node r) (_offset r)).
      split.
      * rewrite <- H. f_equal.
        apply scanner_ext; simpl; try reflexivity; lia.
      * cbn [List.length].
        split; [rewrite render_nil; reflexivity|].
        split; [lia|]. split; [lia|]. split; [simpl; lia|].
        split; [reflexivity|]. intros _. split; [reflexivity|]. intros; lia.
    + destruct (seekLoop_extend _ _ _ _ _ _ _ _ k Hnode Hrounds Hrem Hoff H)
        as [r' [ps [rest [Hl [C [Rem [R' [Hahead Hall]]]]]]]]; [lia|lia|].
      exists r', ps, rest. split; [exact Hl|]. split; [exact C|].
      split; [lia|]. split; [exact R'|]. split; [lia|].
      split; [intros; lia|]. intros _. split; [|exact Hall].
      rewrite <- Hahead. symmetry.
      apply visibleTextAhead_settings. reflexivity.
Qed.

Lemma seek_longer_extends_witness :
  exists (r' : DOMTextScanner) (ps : list Piece) (rest : list jsstring),
    seek docTwoDivs scannerAtFoo (if 2 >=? 0 then 2 + 3 else 2 - 3) = Some r' /\
    _content r' = render (2 >=? 0) (_content scannerAfterFo) ps /\
    _remainder r' = _remainder scannerAfterFo + 3 - Z.of_nat (List.length ps) /\
    0 <= _remainder r' /\
    Z.of_nat (List.length ps) <= 3 /\
    (1 <= _remainder scannerAfterFo -> ps = []) /\
    (_remainder scannerAfterFo = 0 ->
     visibleTextAhead docTwoDivs (2 >=? 0) scannerAtFoo
                      (_node scannerAfterFo) (_offset scannerAfterFo)
     = (charactersOf ps ++ rest)%list /\
     (1 <= _remainder r' -> rest = [])).
Proof.
  apply (seek_longer_extends docTwoDivs scannerAtFoo scannerAfterFo 2 3).
  - split; [reflexivity|]. intros _ _. simpl. lia.
  - lia.
  - lia.
  - unfold safeLength, maxSafeInteger. simpl. lia.
  - vm_compute. reflexivity.
Defined.
